(** * Smart Campus Navigation: the constraint-aware shortest-path core

    A shallow embedding of [campus-nav-python.py] (the graph model, the
    constraint store of [PathFinder], [_get_effective_weight], [dijkstra]
    and [find_nearest_exit]) and of the constraint endpoints of
    [campus-nav-api.py], followed by the properties of that code.

    Conventions of the embedding:
    - a Python [dict] whose iteration order the code observes
      ([graph.nodes], [node.connections]) is an association list in
      insertion order; the dicts that are only read and written by key
      ([distances], [previous]) are [gmap]s, the sets are [gset]s;
    - a number held in [distances] is either a Python [int] or
      [float('inf')]: type [num];
    - the traffic multipliers are binary64 floats, modelled by the
      Standard Library's executable IEEE-754 specification [spec_float];
    - a Python exception is the [Raise] outcome; the two [while] loops take
      a bound on their iterations and answer [Timeout] when it is exceeded
      (it never is: see [search_loop_spec] and [reconstruct_tree_path]). *)

From Stdlib Require Import ZArith String List Lia Permutation.
From Stdlib Require Import Floats.SpecFloat.
From stdpp Require Import gmap strings list fin_maps.

Local Open Scope string_scope.
Local Open Scope Z_scope.
Local Open Scope list_scope.

(** ** Outcomes of Python code *)

Inductive exn := KeyError | OverflowError | ValueError.

Inductive outcome (A : Type) : Type :=
| Ok (a : A)
| Raise (e : exn)
| Timeout.
Arguments Ok {A} a.
Arguments Raise {A} e.
Arguments Timeout {A}.

Definition bind {A B} (m : outcome A) (k : A -> outcome B) : outcome B :=
  match m with
  | Ok a => k a
  | Raise e => Raise e
  | Timeout => Timeout
  end.

Notation "'let!' x ':=' m 'in' k" := (bind m (fun x => k))
  (at level 10, x name, m at level 100, k at level 200).

(** [d[k]] on a dict held as an association list, [d.get(k)] being
    [dict_get]; the keys of a dict are distinct, so the first binding is
    the binding. *)
Fixpoint dict_get {A} (k : string) (d : list (string * A)) : option A :=
  match d with
  | [] => None
  | (k', v) :: d' => if decide (k = k') then Some v else dict_get k d'
  end.

Definition getitem {A} (o : option A) : outcome A :=
  match o with
  | Some v => Ok v
  | None => Raise KeyError
  end.

(** ** Numbers *)

(** binary64 *)
Definition prec : Z := 53.
Definition emax : Z := 1024.

(** [float(n)] for an [int] [n], as [int * float] performs it: the nearest
    double, [OverflowError] when [n] is too large. *)
Definition float_of_int (n : Z) : outcome spec_float :=
  match binary_normalize prec emax n 0 false with
  | S754_infinity _ => Raise OverflowError
  | f => Ok f
  end.

Definition float_mul : spec_float -> spec_float -> spec_float :=
  SFmul prec emax.

(** The integer nearest to [m * 2^e], a tie going to the even one. *)
Definition round_half_even (m : positive) (e : Z) : Z :=
  match e with
  | Zneg p =>
      let d := Z.pow_pos 2 p in
      let q := Z.pos m / d in
      let r := Z.pos m mod d in
      match 2 * r ?= d with
      | Lt => q
      | Gt => q + 1
      | Eq => if Z.even q then q else q + 1
      end
  | _ => Z.pos m * 2 ^ e
  end.

(** The builtin [round(x)] on a float, without [ndigits]: the nearest
    [int], and of two equally near the even one (Python 3 rounds half to
    even); an infinity raises [OverflowError], a NaN [ValueError]. *)
Definition py_round (f : spec_float) : outcome Z :=
  match f with
  | S754_zero _ => Ok 0
  | S754_finite s m e => Ok (cond_Zopp s (round_half_even m e))
  | S754_infinity _ => Raise OverflowError
  | S754_nan => Raise ValueError
  end.

(** The double a decimal literal with one fractional digit denotes:
    [tenths 15] is [1.5]. Both operands are exact and the division is
    correctly rounded, as the parsing of the literal is. *)
Definition tenths (n : Z) : spec_float :=
  SFdiv prec emax (binary_normalize prec emax n 0 false)
                  (binary_normalize prec emax 10 0 false).

(** An [int] or [float('inf')]. *)
Inductive num := Int (n : Z) | PosInf.

Global Instance num_eq_dec : EqDecision num.
Proof. solve_decision. Defined.

Definition num_add (a b : num) : num :=
  match a, b with
  | Int a, Int b => Int (a + b)
  | _, _ => PosInf
  end.

Definition num_ltb (a b : num) : bool :=
  match a, b with
  | Int a, Int b => a <? b
  | Int _, PosInf => true
  | PosInf, _ => false
  end.

Definition num_eqb (a b : num) : bool := bool_decide (a = b).

(** ** The graph model *)

Inductive NodeType :=
  ENTRANCE | ACADEMIC | LAB | ADMIN | FACILITY | SPORTS | RESIDENCE.

Inductive TimeOfDay := MORNING | AFTERNOON | EVENING.

Record TrafficMultiplier := {
  morning : spec_float;
  afternoon : spec_float;
  evening : spec_float
}.

Record Connection := {
  distance : Z;
  traffic : TrafficMultiplier
}.

Record Node := {
  x : Z;
  y : Z;
  connections : list (string * Connection);
  node_type : NodeType;
  icon : string
}.

Record CampusGraph := {
  nodes : list (string * Node);
  exit_points : list string
}.

Definition get_all_nodes (g : CampusGraph) : list string := map fst (nodes g).

Definition get_node_info (g : CampusGraph) (node_name : string) : option Node :=
  dict_get node_name (nodes g).

(** ** The constraint store and the weight function *)

Record PathFinder := {
  graph : CampusGraph;
  blocked_paths : gset (string * string);
  hazard_zones : gset string
}.

(** [PathFinder.__init__] *)
Definition new_PathFinder (g : CampusGraph) : PathFinder :=
  {| graph := g; blocked_paths := ∅; hazard_zones := ∅ |}.

(** [tuple(sorted([node1, node2]))]: the sort is stable, so the two names
    are swapped only when the second is strictly smaller. *)
Definition path_key (node1 node2 : string) : string * string :=
  if String.ltb node2 node1 then (node2, node1) else (node1, node2).

Definition block_path (pf : PathFinder) (node1 node2 : string) : PathFinder :=
  {| graph := graph pf;
     blocked_paths := blocked_paths pf ∪ {[ path_key node1 node2 ]};
     hazard_zones := hazard_zones pf |}.

Definition unblock_path (pf : PathFinder) (node1 node2 : string) : PathFinder :=
  {| graph := graph pf;
     blocked_paths := blocked_paths pf ∖ {[ path_key node1 node2 ]};
     hazard_zones := hazard_zones pf |}.

Definition add_hazard_zone (pf : PathFinder) (node : string) : PathFinder :=
  if decide (node ∈ exit_points (graph pf)) then pf
  else {| graph := graph pf;
          blocked_paths := blocked_paths pf;
          hazard_zones := hazard_zones pf ∪ {[ node ]} |}.

Definition remove_hazard_zone (pf : PathFinder) (node : string) : PathFinder :=
  {| graph := graph pf;
     blocked_paths := blocked_paths pf;
     hazard_zones := hazard_zones pf ∖ {[ node ]} |}.

Definition clear_hazards (pf : PathFinder) : PathFinder :=
  {| graph := graph pf;
     blocked_paths := blocked_paths pf;
     hazard_zones := ∅ |}.

(** [reset_state] of the API: [blocked_paths.clear()], then
    [clear_hazards()]. *)
Definition reset_state (pf : PathFinder) : PathFinder :=
  clear_hazards {| graph := graph pf;
                   blocked_paths := ∅;
                   hazard_zones := hazard_zones pf |}.

Definition multiplier_at (t : TrafficMultiplier) (time_of_day : TimeOfDay)
  : spec_float :=
  match time_of_day with
  | MORNING => morning t
  | AFTERNOON => afternoon t
  | _ => evening t
  end.

(** [round(base_distance * multiplier)] *)
Definition traffic_weight (c : Connection) (time_of_day : TimeOfDay)
  : outcome Z :=
  let! base := float_of_int (distance c) in
  py_round (float_mul base (multiplier_at (traffic c) time_of_day)).

Definition hazard_penalty (pf : PathFinder) (from_node to_node : string) : Z :=
  (if decide (from_node ∈ hazard_zones pf) then 500 else 0)
  + (if decide (to_node ∈ hazard_zones pf) then 500 else 0).

Definition _get_effective_weight (pf : PathFinder) (from_node to_node : string)
    (time_of_day : TimeOfDay) (emergency_mode : bool) : outcome num :=
  if decide (path_key from_node to_node ∈ blocked_paths pf) then Ok PosInf
  else
    match dict_get from_node (nodes (graph pf)) with
    | None => Ok PosInf
    | Some node =>
        match dict_get to_node (connections node) with
        | None => Ok PosInf
        | Some connection =>
            if emergency_mode
            then Ok (Int (distance connection
                          + hazard_penalty pf from_node to_node))
            else let! w := traffic_weight connection time_of_day in Ok (Int w)
        end
    end.

(** ** The shortest-path engine *)

Inductive StepType := init | visit | found | relax.

(** An entry of [steps]. The two display strings of an entry ([message],
    [description]) are left out; [neighbor] is present on [relax] entries
    only. *)
Record Step := {
  step_type : StepType;
  current : option string;
  neighbor : option string;
  step_distances : gmap string num
}.

(** [PathResult]; [path_distance] is its field [distance]. *)
Record PathResult := {
  path : list string;
  path_distance : num;
  steps : list Step;
  visited_nodes : gset string
}.

(** The local variables of [dijkstra]; [log] is its list [steps]. *)
Record search := {
  distances : gmap string num;
  previous : gmap string (option string);
  pq : list (num * string);
  visited : gset string;
  log : list Step
}.

(** Order of the [(distance, node)] tuples: the first components decide
    unless they are equal. *)
Definition entry_ltb (a b : num * string) : bool :=
  if decide (a.1 = b.1) then String.ltb a.2 b.2 else num_ltb a.1 b.1.

(** [heapq]: the queue is the multiset of its entries, [heappop] removes a
    least entry. [pop_min e l] is the least entry of [e :: l] and the
    others. *)
Definition heappush (q : list (num * string)) (e : num * string)
  : list (num * string) := q ++ [e].

Fixpoint pop_min (e : num * string) (l : list (num * string))
  : (num * string) * list (num * string) :=
  match l with
  | [] => (e, [])
  | e' :: l' =>
      if entry_ltb e' e
      then let '(m, r) := pop_min e' l' in (m, e :: r)
      else let '(m, r) := pop_min e l' in (m, e' :: r)
  end.

Definition heappop (q : list (num * string))
  : option ((num * string) * list (num * string)) :=
  match q with
  | [] => None
  | e :: l => Some (pop_min e l)
  end.

Definition record (track_steps : bool) (s : Step) (l : list Step) : list Step :=
  if track_steps then l ++ [s] else l.

Section Search.
Variable pf : PathFinder.
Variables (finish : string) (time_of_day : TimeOfDay).
Variables (emergency_mode track_steps : bool).

(** The body of [for neighbor in node.connections]. *)
Definition relax_neighbor (cur : string) (st : search) (nb : string)
  : outcome search :=
  if decide (nb ∈ visited st) then Ok st
  else
    let! edge_weight :=
      _get_effective_weight pf cur nb time_of_day emergency_mode in
    if num_eqb edge_weight PosInf then Ok st
    else
      let! d_cur := getitem (distances st !! cur) in
      let alt_distance := num_add d_cur edge_weight in
      let! d_nb := getitem (distances st !! nb) in
      if num_ltb alt_distance d_nb
      then
        let distances' := <[nb := alt_distance]> (distances st) in
        Ok {| distances := distances';
              previous := <[nb := Some cur]> (previous st);
              pq := heappush (pq st) (alt_distance, nb);
              visited := visited st;
              log := record track_steps
                       {| step_type := relax; current := Some cur;
                          neighbor := Some nb;
                          step_distances := distances' |} (log st) |}
      else Ok st.

Fixpoint explore (cur : string) (nbs : list string) (st : search)
  : outcome search :=
  match nbs with
  | [] => Ok st
  | nb :: nbs' =>
      let! st' := relax_neighbor cur st nb in explore cur nbs' st'
  end.

(** [while pq: ...], at most [fuel] iterations. *)
Fixpoint search_loop (fuel : nat) (st : search) : outcome search :=
  match heappop (pq st) with
  | None => Ok st
  | Some ((current_dist, cur), pq') =>
      match fuel with
      | O => Timeout
      | S fuel' =>
          if decide (cur ∈ visited st)
          then search_loop fuel'
                 {| distances := distances st; previous := previous st;
                    pq := pq'; visited := visited st; log := log st |}
          else
            let st1 :=
              {| distances := distances st; previous := previous st;
                 pq := pq'; visited := visited st ∪ {[ cur ]};
                 log := record track_steps
                          {| step_type := visit; current := Some cur;
                             neighbor := None;
                             step_distances := distances st |} (log st) |} in
            if decide (cur = finish)
            then Ok {| distances := distances st1; previous := previous st1;
                       pq := pq st1; visited := visited st1;
                       log := record track_steps
                                {| step_type := found; current := Some cur;
                                   neighbor := None;
                                   step_distances := distances st1 |}
                                (log st1) |}
            else
              let! node := getitem (dict_get cur (nodes (graph pf))) in
              let! st2 := explore cur (map fst (connections node)) st1 in
              search_loop fuel' st2
      end
  end.
End Search.

(** [while current is not None: path.insert(0, current); ...], at most
    [fuel] iterations. *)
Fixpoint reconstruct (fuel : nat) (prev : gmap string (option string))
    (cur : option string) (acc : list string) : outcome (list string) :=
  match cur with
  | None => Ok acc
  | Some c =>
      match fuel with
      | O => Timeout
      | S fuel' =>
          let! p := getitem (prev !! c) in reconstruct fuel' prev p (c :: acc)
      end
  end.

(** Every pass of the search loop removes a queue entry, and entries are
    added only while a node is finalized, at most one per connection. *)
Definition search_fuel (g : CampusGraph) : nat :=
  S (list_sum (map (fun kv => length (connections kv.2)) (nodes g))).

Definition initial_search (g : CampusGraph) (start : string)
    (track_steps : bool) : search :=
  let distances0 : gmap string num :=
    <[start := Int 0]> (list_to_map (map (fun k => (k, PosInf)) (map fst (nodes g)))) in
  {| distances := distances0;
     previous := list_to_map (map (fun k => (k, None)) (map fst (nodes g)));
     pq := [(Int 0, start)];
     visited := ∅;
     log := record track_steps
              {| step_type := init; current := None; neighbor := None;
                 step_distances := distances0 |} [] |}.

Definition dijkstra (pf : PathFinder) (start finish : string)
    (time_of_day : TimeOfDay) (emergency_mode track_steps : bool)
  : outcome PathResult :=
  let st0 := initial_search (graph pf) start track_steps in
  let! st := search_loop pf finish time_of_day emergency_mode track_steps
               (search_fuel (graph pf)) st0 in
  let! p := reconstruct (S (length (nodes (graph pf)))) (previous st)
              (Some finish) [] in
  let! d := getitem (distances st !! finish) in
  Ok {| path := p; path_distance := d; steps := log st;
        visited_nodes := visited st |}.

(** ** The exit finder *)

Fixpoint nearest_loop (pf : PathFinder) (start : string)
    (time_of_day : TimeOfDay) (exits : list string)
    (min_distance : num) (nearest_exit : option string)
  : outcome (option string * num) :=
  match exits with
  | [] => Ok (nearest_exit, min_distance)
  | exit_point :: rest =>
      let! result := dijkstra pf start exit_point time_of_day true false in
      if num_ltb (path_distance result) min_distance
      then nearest_loop pf start time_of_day rest
             (path_distance result) (Some exit_point)
      else nearest_loop pf start time_of_day rest min_distance nearest_exit
  end.

Definition find_nearest_exit (pf : PathFinder) (start : string)
    (time_of_day : TimeOfDay) : outcome (option string * num) :=
  nearest_loop pf start time_of_day (exit_points (graph pf)) PosInf None.

(** ** The campus graph of [CampusGraph._initialize_campus_graph] *)

(** [Connection(d, TrafficMultiplier(m/10, a/10, e/10))] *)
Definition Conn (d : Z) (m a e : Z) : Connection :=
  {| distance := d;
     traffic := {| morning := tenths m; afternoon := tenths a;
                   evening := tenths e |} |}.

Definition campus_nodes : list (string * Node) :=
  [ ("Main Gate",
     {| x := 100; y := 300;
        connections := [ ("Library", Conn 150 15 10 12);
                         ("Admin Block", Conn 200 18 13 10) ];
        node_type := ENTRANCE; icon := "🚪" |});
    ("Library",
     {| x := 250; y := 250;
        connections := [ ("Main Gate", Conn 150 15 10 12);
                         ("Computer Lab", Conn 120 16 14 10) ];
        node_type := ACADEMIC; icon := "📚" |});
    ("Computer Lab",
     {| x := 400; y := 200;
        connections := [ ("Library", Conn 120 16 14 10);
                         ("Lecture Hall", Conn 100 17 15 10);
                         ("Admin Block", Conn 150 14 12 10) ];
        node_type := LAB; icon := "💻" |});
    ("Lecture Hall",
     {| x := 550; y := 250;
        connections := [ ("Computer Lab", Conn 100 17 15 10);
                         ("Sports Complex", Conn 200 10 13 16);
                         ("Cafeteria", Conn 160 13 18 14) ];
        node_type := ACADEMIC; icon := "🎓" |});
    ("Admin Block",
     {| x := 250; y := 400;
        connections := [ ("Main Gate", Conn 200 18 13 10);
                         ("Computer Lab", Conn 150 14 12 10);
                         ("Cafeteria", Conn 100 15 12 10) ];
        node_type := ADMIN; icon := "🏢" |});
    ("Cafeteria",
     {| x := 400; y := 380;
        connections := [ ("Admin Block", Conn 100 15 12 10);
                         ("Lecture Hall", Conn 160 13 18 14);
                         ("Auditorium", Conn 140 10 12 15) ];
        node_type := FACILITY; icon := "☕" |});
    ("Sports Complex",
     {| x := 700; y := 200;
        connections := [ ("Lecture Hall", Conn 200 10 13 16);
                         ("Auditorium", Conn 180 10 14 17) ];
        node_type := SPORTS; icon := "⚽" |});
    ("Auditorium",
     {| x := 600; y := 400;
        connections := [ ("Cafeteria", Conn 140 10 12 15);
                         ("Sports Complex", Conn 180 10 14 17);
                         ("Hostel", Conn 150 12 10 13) ];
        node_type := FACILITY; icon := "🎭" |});
    ("Hostel",
     {| x := 750; y := 380;
        connections := [ ("Auditorium", Conn 150 12 10 13);
                         ("Sports Complex", Conn 220 10 11 14) ];
        node_type := RESIDENCE; icon := "🏠" |}) ].

Definition campus : CampusGraph :=
  {| nodes := campus_nodes; exit_points := ["Main Gate"; "Sports Complex"] |}.

(** * The vocabulary of the properties *)

(** ** Orders on numbers *)

Definition num_le (a b : num) : Prop := num_ltb b a = false.

(** ** Well-formed graphs and the cost of a route *)

(** A link is sound when its base distance is not negative and its
    traffic-weighted cost is defined and not negative at every time of day,
    as it is when the multipliers are not negative and the products are
    finite ([link_ok_intro]). *)
Definition link_ok (c : Connection) : Prop :=
  0 ≤ distance c ∧
  ∀ time_of_day, ∃ w, traffic_weight c time_of_day = Ok w ∧ 0 ≤ w.

(** The invariants of the data model: every link is sound and leads to a
    location of the graph. *)
Definition wf_graph (g : CampusGraph) : Prop :=
  Forall (fun kn : string * Node =>
            Forall (fun kc : string * Connection =>
                      kc.1 ∈ map fst (nodes g) ∧ link_ok kc.2)
                   (connections kn.2))
         (nodes g).

(** Every link has a positive length. *)
Definition positive_links (g : CampusGraph) : Prop :=
  Forall (fun kn : string * Node =>
            Forall (fun kc : string * Connection => 0 < distance kc.2)
                   (connections kn.2))
         (nodes g).

(** The same, for evaluation. *)
Definition link_okb (c : Connection) : bool :=
  (0 <=? distance c)
  && forallb (fun t => match traffic_weight c t with
                       | Ok w => 0 <=? w
                       | _ => false
                       end) [MORNING; AFTERNOON; EVENING].

Definition wf_graphb (g : CampusGraph) : bool :=
  forallb (fun kn : string * Node =>
             forallb (fun kc : string * Connection =>
                        bool_decide (kc.1 ∈ map fst (nodes g)) && link_okb kc.2)
                     (connections kn.2))
          (nodes g).

(** The cost of the edge as the search sees it. *)
Definition edge_cost (pf : PathFinder) (time_of_day : TimeOfDay)
    (emergency_mode : bool) (u v : string) : num :=
  match _get_effective_weight pf u v time_of_day emergency_mode with
  | Ok w => w
  | _ => PosInf
  end.

(** The sum of the edge costs along a sequence of locations. *)
Fixpoint path_cost (pf : PathFinder) (time_of_day : TimeOfDay)
    (emergency_mode : bool) (p : list string) : num :=
  match p with
  | u :: ((v :: _) as p') =>
      num_add (edge_cost pf time_of_day emergency_mode u v)
              (path_cost pf time_of_day emergency_mode p')
  | _ => Int 0
  end.

(** [p] leads from [a] to [b]. *)
Definition route (a b : string) (p : list string) : Prop :=
  head p = Some a ∧ last p = Some b.

(** ** Rounding *)

(** A multiplier that is not negative. *)
Definition nonneg_float (f : spec_float) : Prop :=
  match f with
  | S754_zero _ | S754_finite false _ _ => True
  | _ => False
  end.

(** [n] is the integer nearest to [a / b], the even one of two that are
    equally near. *)
Definition nearest_ties_even (a b n : Z) : Prop :=
  Z.abs (2 * a - 2 * n * b) ≤ b ∧
  (Z.abs (2 * a - 2 * n * b) = b → Z.even n = true).

(** [a / b] rounded half up: the floor of [a / b + 1/2]. *)
Definition round_half_up (a b : Z) : Z := (2 * a + b) / (2 * b).

(** The value of a finite float as a fraction. *)
Definition float_fraction (f : spec_float) : option (Z * Z) :=
  match f with
  | S754_zero _ => Some (0, 1)
  | S754_finite s m e =>
      Some match e with
           | Zneg p => (cond_Zopp s (Z.pos m), Z.pow_pos 2 p)
           | _ => (cond_Zopp s (Z.pos m * 2 ^ e), 1)
           end
  | _ => None
  end.

(** The weight under round-half-up, as the specification words it: the
    product of the base distance and the multiplier, rounded half up. *)
Definition half_up_weight (c : Connection) (time_of_day : TimeOfDay)
  : option Z :=
  match float_of_int (distance c) with
  | Ok base =>
      match float_fraction
              (float_mul base (multiplier_at (traffic c) time_of_day)) with
      | Some (a, b) => Some (round_half_up a b)
      | None => None
      end
  | _ => None
  end.

Definition half_up_agrees (c : Connection) : bool :=
  forallb (fun t => match traffic_weight c t, half_up_weight c t with
                    | Ok w, Some w' => w =? w'
                    | _, _ => false
                    end) [MORNING; AFTERNOON; EVENING].

(** ** Calls on the path finder *)

(** The operations of the constraint store and the two queries, as calls on
    the one [PathFinder] object the API holds. *)
Inductive call :=
| blockPair (a b : string)
| unblockPair (a b : string)
| markHazard (id : string)
| unmarkHazard (id : string)
| clearHazards
| resetAll
| findPath (start finish : string) (time_of_day : TimeOfDay)
           (emergency_mode track_steps : bool)
| nearestExit (start : string) (time_of_day : TimeOfDay).

Inductive reply :=
| Done
| Route (r : outcome PathResult)
| Exit (r : outcome (option string * num)).

(** The state of the object after the call, and what the call returns. *)
Definition serve (pf : PathFinder) (c : call) : PathFinder * reply :=
  match c with
  | blockPair a b => (block_path pf a b, Done)
  | unblockPair a b => (unblock_path pf a b, Done)
  | markHazard id => (add_hazard_zone pf id, Done)
  | unmarkHazard id => (remove_hazard_zone pf id, Done)
  | clearHazards => (clear_hazards pf, Done)
  | resetAll => (reset_state pf, Done)
  | findPath s e t em tr => (pf, Route (dijkstra pf s e t em tr))
  | nearestExit s t => (pf, Exit (find_nearest_exit pf s t))
  end.

Definition is_query (c : call) : bool :=
  match c with
  | findPath _ _ _ _ _ | nearestExit _ _ => true
  | _ => false
  end.

Definition serve_all (pf : PathFinder) (cs : list call) : PathFinder :=
  fold_left (fun pf c => (serve pf c).1) cs pf.

(** No exit point is a hazard zone. *)
Definition exits_safe (pf : PathFinder) : Prop :=
  ∀ id, id ∈ hazard_zones pf → id ∉ exit_points (graph pf).

(** ** The exit finder *)

(** The distance [find_nearest_exit] obtains for an exit point: that of an
    emergency-mode search without trace. *)
Definition exit_distance (pf : PathFinder) (start : string)
    (time_of_day : TimeOfDay) (e : string) : num :=
  match dijkstra pf start e time_of_day true false with
  | Ok r => path_distance r
  | _ => PosInf
  end.

(** ** Graphs and stores of the examples *)

(** The path and the distance of a result, for evaluation. *)
Definition route_of (o : outcome PathResult) : option (list string * num) :=
  match o with
  | Ok r => Some (path r, path_distance r)
  | _ => None
  end.

(** A link of length 3 with the morning multiplier 1.5: the product 4.5 is
    a tie. *)
Definition tie_graph : CampusGraph :=
  {| nodes :=
       [ ("A", {| x := 0; y := 0; connections := [("B", Conn 3 15 10 12)];
                  node_type := ENTRANCE; icon := "a" |});
         ("B", {| x := 1; y := 0; connections := [("A", Conn 3 15 10 12)];
                  node_type := ACADEMIC; icon := "b" |}) ];
     exit_points := ["A"] |}.

(** Two exit points joined by a link of length 0. *)
Definition zero_link_graph : CampusGraph :=
  {| nodes :=
       [ ("A", {| x := 0; y := 0; connections := [("B", Conn 0 10 10 10)];
                  node_type := ENTRANCE; icon := "a" |});
         ("B", {| x := 0; y := 0; connections := [("A", Conn 0 10 10 10)];
                  node_type := ENTRANCE; icon := "b" |}) ];
     exit_points := ["A"; "B"] |}.

(** The scenario of the two links that are the only route. *)
Definition two_link_graph : CampusGraph :=
  {| nodes :=
       [ ("Main Gate",
          {| x := 100; y := 300;
             connections := [("Library", Conn 150 15 10 12)];
             node_type := ENTRANCE; icon := "a" |});
         ("Library",
          {| x := 250; y := 250;
             connections := [("Computer Lab", Conn 120 16 14 10)];
             node_type := ACADEMIC; icon := "b" |});
         ("Computer Lab",
          {| x := 400; y := 200; connections := [];
             node_type := LAB; icon := "c" |}) ];
     exit_points := ["Main Gate"] |}.

(** The campus with both links of the main gate closed. *)
Definition gate_closed : PathFinder :=
  block_path (block_path (new_PathFinder campus) "Main Gate" "Library")
             "Main Gate" "Admin Block".

(** The campus with the link between library and computer lab closed. *)
Definition lab_link_closed : PathFinder :=
  block_path (new_PathFinder campus) "Library" "Computer Lab".

(** ** The vocabulary of the search invariant *)

(** The connections still to be explored: those of the locations not yet
    finalized. With the length of the queue this bounds the passes of the
    search loop that remain. *)
Definition unvisited_degree (S : gset string) (l : list (string * Node)) : nat :=
  list_sum (map (fun kn : string * Node =>
                   if decide (kn.1 ∈ S) then O else length (connections kn.2)) l).

Definition search_measure (pf : PathFinder) (st : search) : nat :=
  (length (pq st) + unvisited_degree (visited st) (nodes (graph pf)))%nat.

(** [tree_path_from ... start prev S v p d]: following [prev] back from [v]
    walks the route [p] from [start], in reverse, through locations of [S];
    the costs of its edges add up to [d]. *)
Inductive tree_path_from (pf : PathFinder) (time_of_day : TimeOfDay)
    (emergency_mode : bool) (start : string)
    (prev : gmap string (option string)) (S : gset string)
  : string → list string → Z → Prop :=
| tree_root :
    prev !! start = Some None →
    tree_path_from pf time_of_day emergency_mode start prev S start [start] 0
| tree_edge u v p d c :
    tree_path_from pf time_of_day emergency_mode start prev S u p d →
    u ∈ S → prev !! v = Some (Some u) →
    edge_cost pf time_of_day emergency_mode u v = Int c →
    tree_path_from pf time_of_day emergency_mode start prev S v
      (p ++ [v]) (d + c).

(** The invariant of the search. [relaxed u v] tells for which pairs the
    edge from [u] to [v] has been examined already. *)
Record search_inv (pf : PathFinder) (time_of_day : TimeOfDay)
    (emergency_mode : bool) (start : string)
    (relaxed : string → string → Prop) (st : search) : Prop := {
  inv_dom : ∀ v, v ∈ map fst (nodes (graph pf)) →
    is_Some (distances st !! v) ∧ is_Some (previous st !! v);
  inv_start : distances st !! start = Some (Int 0);
  inv_root : ∀ u, u ∈ visited st → start ∈ visited st;
  inv_tree : ∀ v d, distances st !! v = Some (Int d) →
    ∃ p, tree_path_from pf time_of_day emergency_mode start
           (previous st) (visited st) v p d ∧ NoDup p;
  inv_frontier : ∀ v d, distances st !! v = Some (Int d) →
    v ∉ visited st → (Int d, v) ∈ pq st;
  inv_queue : ∀ k v, (k, v) ∈ pq st →
    ∃ d d', k = Int d ∧ distances st !! v = Some (Int d') ∧ d' ≤ d;
  inv_visited : ∀ u, u ∈ visited st →
    ∃ d, distances st !! u = Some (Int d);
  inv_mono : ∀ u v du dv, u ∈ visited st → v ∉ visited st →
    distances st !! u = Some (Int du) → distances st !! v = Some (Int dv) →
    du ≤ dv;
  inv_inf : ∀ v, distances st !! v = Some PosInf →
    previous st !! v = Some None;
  inv_relaxed : ∀ u v du c, relaxed u v →
    distances st !! u = Some (Int du) →
    edge_cost pf time_of_day emergency_mode u v = Int c →
    ∃ dv, distances st !! v = Some (Int dv) ∧ dv ≤ du + c
}.

(** While the connections of [cur] are explored: the locations finalized
    before are done, [cur] is done for the neighbours in [seen]. *)
Definition during (S : gset string) (cur : string) (seen : list string)
  : string → string → Prop :=
  fun u v => (u ∈ S ∧ u ≠ cur) ∨ (u = cur ∧ v ∈ seen).

(** No finalized location is farther than [cur]. *)
Definition farthest (st : search) (cur : string) : Prop :=
  ∀ u du dc, u ∈ visited st →
    distances st !! u = Some (Int du) →
    distances st !! cur = Some (Int dc) → du ≤ dc.

(** Along a route of finite cost that begins where a bound is known, the
    bound is carried to its end, or to a location on it that the search
    has not finished with. *)
Definition carried_bound (finish : string) (st : search) (v : string) (c : Z)
  : Prop :=
  ∃ y dy, distances st !! y = Some (Int dy) ∧ dy ≤ c
          ∧ (y = v ∨ y ∉ visited st ∨ y = finish).

(** ** The path finder as an object *)

(** A method of [PathFinder]: it runs on the object [self], whose fields
    it can read and update, and leaves it in some state whether it returns
    or raises. *)
Definition method (A : Type) : Type := PathFinder → outcome A * PathFinder.

Module Method.

Definition ret {A} (a : A) : method A := fun self => (Ok a, self).

Definition mbind {A B} (m : method A) (k : A → method B) : method B :=
  fun self =>
    match m self with
    | (Ok a, self') => k a self'
    | (Raise e, self') => (Raise e, self')
    | (Timeout, self') => (Timeout, self')
    end.

(** [self.f] *)
Definition read {A} (f : PathFinder → A) : method A :=
  fun self => (Ok (f self), self).

(** An update in place of the set [self.blocked_paths]. *)
Definition update_blocked_paths
    (f : gset (string * string) → gset (string * string)) : method unit :=
  fun self =>
    (Ok tt, {| graph := graph self;
               blocked_paths := f (blocked_paths self);
               hazard_zones := hazard_zones self |}).

(** An update in place of the set [self.hazard_zones]. *)
Definition update_hazard_zones (f : gset string → gset string)
  : method unit :=
  fun self =>
    (Ok tt, {| graph := graph self;
               blocked_paths := blocked_paths self;
               hazard_zones := f (hazard_zones self) |}).

(** A computation on local values only. *)
Definition lift {A} (o : outcome A) : method A := fun self => (o, self).

Notation "'let*' x ':=' m 'in' k" := (mbind m (fun x => k))
  (at level 10, x name, m at level 200, k at level 200, only parsing).

Definition block_path (node1 node2 : string) : method unit :=
  let path_key := path_key node1 node2 in
  update_blocked_paths (fun s => s ∪ {[ path_key ]}).

Definition unblock_path (node1 node2 : string) : method unit :=
  let path_key := path_key node1 node2 in
  update_blocked_paths (fun s => s ∖ {[ path_key ]}).

Definition add_hazard_zone (node : string) : method unit :=
  let* exit_points := read (fun self => exit_points (graph self)) in
  if decide (node ∈ exit_points) then ret tt
  else update_hazard_zones (fun s => s ∪ {[ node ]}).

Definition remove_hazard_zone (node : string) : method unit :=
  update_hazard_zones (fun s => s ∖ {[ node ]}).

Definition clear_hazards : method unit :=
  update_hazard_zones (fun _ => ∅).

(** [reset_state] of the API *)
Definition reset_state : method unit :=
  let* _ := update_blocked_paths (fun _ => ∅) in clear_hazards.

Definition _get_effective_weight (from_node to_node : string)
    (time_of_day : TimeOfDay) (emergency_mode : bool) : method num :=
  let* blocked := read blocked_paths in
  if decide (path_key from_node to_node ∈ blocked) then ret PosInf
  else
    let* nodes := read (fun self => nodes (graph self)) in
    match dict_get from_node nodes with
    | None => ret PosInf
    | Some node =>
        match dict_get to_node (connections node) with
        | None => ret PosInf
        | Some connection =>
            if emergency_mode
            then
              let* hazards := read hazard_zones in
              let p1 := if decide (from_node ∈ hazards) then 500 else 0 in
              let* hazards' := read hazard_zones in
              let p2 := if decide (to_node ∈ hazards') then 500 else 0 in
              ret (Int (distance connection + (p1 + p2)))
            else
              let* w := lift (traffic_weight connection time_of_day) in
              ret (Int w)
        end
    end.

Section Search.
Variables (finish : string) (time_of_day : TimeOfDay).
Variables (emergency_mode track_steps : bool).

(** The body of [for neighbor in node.connections]; [st] holds the local
    variables of [dijkstra]. *)
Definition relax_neighbor (cur : string) (st : search) (nb : string)
  : method search :=
  if decide (nb ∈ visited st) then ret st
  else
    let* edge_weight :=
      _get_effective_weight cur nb time_of_day emergency_mode in
    if num_eqb edge_weight PosInf then ret st
    else
      let* d_cur := lift (getitem (distances st !! cur)) in
      let alt_distance := num_add d_cur edge_weight in
      let* d_nb := lift (getitem (distances st !! nb)) in
      if num_ltb alt_distance d_nb
      then
        let distances' := <[nb := alt_distance]> (distances st) in
        ret {| distances := distances';
               previous := <[nb := Some cur]> (previous st);
               pq := heappush (pq st) (alt_distance, nb);
               visited := visited st;
               log := record track_steps
                        {| step_type := relax; current := Some cur;
                           neighbor := Some nb;
                           step_distances := distances' |} (log st) |}
      else ret st.

Fixpoint explore (cur : string) (nbs : list string) (st : search)
  : method search :=
  match nbs with
  | [] => ret st
  | nb :: nbs' =>
      let* st' := relax_neighbor cur st nb in explore cur nbs' st'
  end.

(** [while pq: ...], at most [fuel] iterations. *)
Fixpoint search_loop (fuel : nat) (st : search) : method search :=
  match heappop (pq st) with
  | None => ret st
  | Some ((current_dist, cur), pq') =>
      match fuel with
      | O => lift Timeout
      | S fuel' =>
          if decide (cur ∈ visited st)
          then search_loop fuel'
                 {| distances := distances st; previous := previous st;
                    pq := pq'; visited := visited st; log := log st |}
          else
            let st1 :=
              {| distances := distances st; previous := previous st;
                 pq := pq'; visited := visited st ∪ {[ cur ]};
                 log := record track_steps
                          {| step_type := visit; current := Some cur;
                             neighbor := None;
                             step_distances := distances st |} (log st) |} in
            if decide (cur = finish)
            then ret {| distances := distances st1; previous := previous st1;
                        pq := pq st1; visited := visited st1;
                        log := record track_steps
                                 {| step_type := found; current := Some cur;
                                    neighbor := None;
                                    step_distances := distances st1 |}
                                 (log st1) |}
            else
              let* nodes := read (fun self => nodes (graph self)) in
              let* node := lift (getitem (dict_get cur nodes)) in
              let* st2 := explore cur (map fst (connections node)) st1 in
              search_loop fuel' st2
      end
  end.
End Search.

Definition dijkstra (start finish : string) (time_of_day : TimeOfDay)
    (emergency_mode track_steps : bool) : method PathResult :=
  let* g := read graph in
  let st0 := initial_search g start track_steps in
  let* st := search_loop finish time_of_day emergency_mode track_steps
               (search_fuel g) st0 in
  let* p := lift (reconstruct (S (length (nodes g))) (previous st)
                    (Some finish) []) in
  let* d := lift (getitem (distances st !! finish)) in
  ret {| path := p; path_distance := d; steps := log st;
         visited_nodes := visited st |}.

Fixpoint nearest_loop (start : string) (time_of_day : TimeOfDay)
    (exits : list string) (min_distance : num)
    (nearest_exit : option string) : method (option string * num) :=
  match exits with
  | [] => ret (nearest_exit, min_distance)
  | exit_point :: rest =>
      let* result := dijkstra start exit_point time_of_day true false in
      if num_ltb (path_distance result) min_distance
      then nearest_loop start time_of_day rest
             (path_distance result) (Some exit_point)
      else nearest_loop start time_of_day rest min_distance nearest_exit
  end.

Definition find_nearest_exit (start : string) (time_of_day : TimeOfDay)
  : method (option string * num) :=
  let* exit_points := read (fun self => exit_points (graph self)) in
  nearest_loop start time_of_day exit_points PosInf None.

(** A call on the object: what it returns or raises, and the object
    after it. *)
Definition serve (c : call) (self : PathFinder) : reply * PathFinder :=
  match c with
  | blockPair a b => (Done, (block_path a b self).2)
  | unblockPair a b => (Done, (unblock_path a b self).2)
  | markHazard id => (Done, (add_hazard_zone id self).2)
  | unmarkHazard id => (Done, (remove_hazard_zone id self).2)
  | clearHazards => (Done, (clear_hazards self).2)
  | resetAll => (Done, (reset_state self).2)
  | findPath s e t em tr =>
      let '(o, self') := dijkstra s e t em tr self in (Route o, self')
  | nearestExit s t =>
      let '(o, self') := find_nearest_exit s t self in (Exit o, self')
  end.

(** The object after a sequence of calls. *)
Definition serve_all (cs : list call) (self : PathFinder) : PathFinder :=
  fold_left (fun self c => (serve c self).2) cs self.

End Method.

(** ** The vocabulary of the further properties *)

(** Every blocked pair is stored sorted. *)
Definition pairs_sorted (pf : PathFinder) : Prop :=
  ∀ a b, (a, b) ∈ blocked_paths pf → String.ltb b a = false.

(** Neither location of the pair has a connection to the other. *)
Definition not_linked (g : CampusGraph) (a b : string) : Prop :=
  (∀ n, dict_get a (nodes g) = Some n → dict_get b (connections n) = None)
  ∧ (∀ n, dict_get b (nodes g) = Some n → dict_get a (connections n) = None).

(** The result of a call seen through [f]; what is raised is kept. *)
Definition outcome_map {A B} (f : A → B) (o : outcome A) : outcome B :=
  match o with
  | Ok a => Ok (f a)
  | Raise e => Raise e
  | Timeout => Timeout
  end.

(** The state of the search without its trace. *)
Definition forget (st : search) : search :=
  {| distances := distances st; previous := previous st; pq := pq st;
     visited := visited st; log := [] |}.

(** The links of a route: its pairs of consecutive locations. *)
Definition links_of (p : list string) : list (string * string) :=
  zip p (tail p).

(** A location can be reached when a route of finite cost leads to it. *)
Definition reachable (pf : PathFinder) (time_of_day : TimeOfDay)
    (emergency_mode : bool) (start v : string) : Prop :=
  ∃ p c, route start v p
         ∧ path_cost pf time_of_day emergency_mode p = Int c.

(** The connection from [u] to [v], as [_get_effective_weight] looks it
    up. *)
Definition link (g : CampusGraph) (u v : string) : option Connection :=
  match dict_get u (nodes g) with
  | Some node => dict_get v (connections node)
  | None => None
  end.

(** Every connection is declared in both directions, with the same data. *)
Definition symmetric_links (g : CampusGraph) : Prop :=
  ∀ u v, link g u v = link g v u.

(** Connections can be compared: their fields are integers and floats
    given by their bits. *)
#[local] Instance spec_float_eq_dec : EqDecision spec_float.
Proof. solve_decision. Defined.

#[local] Instance TrafficMultiplier_eq_dec : EqDecision TrafficMultiplier.
Proof. solve_decision. Defined.

#[local] Instance Connection_eq_dec : EqDecision Connection.
Proof. solve_decision. Defined.

(** The check of [symmetric_links] on the declared locations. *)
Definition symmetric_linksb (g : CampusGraph) : bool :=
  forallb (fun u =>
    forallb (fun v => bool_decide (link g u v = link g v u))
            (map fst (nodes g)))
    (map fst (nodes g)).

(** The pairs of declared locations whose connections differ between the
    two directions. *)
Definition one_way_pairs (g : CampusGraph) : list (string * string) :=
  filter (fun uv : string * string => link g uv.1 uv.2 ≠ link g uv.2 uv.1)
         (list_prod (map fst (nodes g)) (map fst (nodes g))).

(** The locations of the [visit] entries of a trace, in order. *)
Definition visits (l : list Step) : list string :=
  omap (fun s => match step_type s with
                 | visit => current s
                 | _ => None
                 end) l.

(** A trace while the search runs: it begins with the [init] entry, its
    [visit] entries list the finalized locations, each once, and it has no
    [found] entry. *)
Record trace_open (st : search) : Prop := {
  tr_init : ∃ s, head (log st) = Some s ∧ step_type s = init;
  tr_set : ∀ v, v ∈ visits (log st) ↔ v ∈ visited st;
  tr_nodup : NoDup (visits (log st));
  tr_open : Forall (fun s => step_type s ≠ found) (log st)
}.

(** A trace when the search is over: the [found] entry, if any, is the
    last, and there is one when the destination has been finalized. *)
Definition trace_closed (finish : string) (st : search) : Prop :=
  (∃ s, head (log st) = Some s ∧ step_type s = init)
  ∧ (∀ v, v ∈ visits (log st) ↔ v ∈ visited st)
  ∧ NoDup (visits (log st))
  ∧ if decide (finish ∈ visited st)
    then ∃ l, log st = l ++ [ {| step_type := found; current := Some finish;
                                 neighbor := None;
                                 step_distances := distances st |} ]
              ∧ Forall (fun s => step_type s ≠ found) l
    else Forall (fun s => step_type s ≠ found) (log st).

(** Two routes joined at the location where the first ends and the second
    begins. *)
Definition join (p q : list string) : list string := p ++ tail q.

(** * Properties *)

(** ** Numbers and the queue *)

Lemma num_le_Int a b : num_le (Int a) (Int b) ↔ a ≤ b.
Proof. unfold num_le; simpl. rewrite Z.ltb_ge. tauto. Qed.

Lemma num_le_PosInf a : num_le a PosInf.
Proof. reflexivity. Qed.

Lemma num_le_refl a : num_le a a.
Proof. destruct a; [apply num_le_Int; lia | reflexivity]. Qed.

Lemma num_le_trans a b c : num_le a b → num_le b c → num_le a c.
Proof.
  destruct a, b, c; unfold num_le; simpl; rewrite ?Z.ltb_ge; try done; lia.
Qed.

Lemma num_ltb_le a b : num_ltb a b = true → num_le a b.
Proof.
  destruct a, b; unfold num_le; simpl; rewrite ?Z.ltb_ge, ?Z.ltb_lt;
    try done; lia.
Qed.

Lemma entry_ltb_true a b : entry_ltb a b = true → num_le a.1 b.1.
Proof.
  unfold entry_ltb. case_decide as E.
  - intros _. rewrite E. apply num_le_refl.
  - apply num_ltb_le.
Qed.

Lemma entry_ltb_false a b : entry_ltb a b = false → num_le b.1 a.1.
Proof.
  unfold entry_ltb. case_decide as E.
  - intros _. rewrite E. apply num_le_refl.
  - done.
Qed.

(** [heappop] hands out an entry of the queue whose distance is least, and
    leaves the others. *)
Lemma pop_min_spec l : ∀ e m r,
  pop_min e l = (m, r) →
  Permutation (m :: r) (e :: l) ∧ ∀ z, z ∈ e :: l → num_le m.1 z.1.
Proof.
  induction l as [|e' l IH]; intros e m r; simpl.
  - intros [= <- <-]. split; [done|].
    intros z ->%list_elem_of_singleton. apply num_le_refl.
  - destruct (entry_ltb e' e) eqn:E.
    + destruct (pop_min e' l) as [m' r'] eqn:Hp. intros [= <- <-].
      destruct (IH _ _ _ Hp) as [Hperm Hmin]. split.
      * by rewrite perm_swap, Hperm.
      * intros z [->|Hz]%elem_of_cons; [|by apply Hmin].
        eapply num_le_trans; [apply Hmin; left|by apply entry_ltb_true].
    + destruct (pop_min e l) as [m' r'] eqn:Hp. intros [= <- <-].
      destruct (IH _ _ _ Hp) as [Hperm Hmin]. split.
      * rewrite perm_swap, Hperm. apply perm_swap.
      * intros z [->|[->|Hz]%elem_of_cons]%elem_of_cons.
        -- apply Hmin; left.
        -- eapply num_le_trans; [apply Hmin; left|by apply entry_ltb_false].
        -- apply Hmin. by right.
Qed.

Lemma heappop_spec q m r :
  heappop q = Some (m, r) →
  Permutation (m :: r) q ∧ ∀ z, z ∈ q → num_le m.1 z.1.
Proof.
  destruct q as [|e l]; [done|]. simpl. intros [= H]. by apply pop_min_spec.
Qed.

Lemma heappop_None q : heappop q = None → q = [].
Proof. by destruct q. Qed.

(** ** Dicts *)

Lemma dict_get_elem_of {A} k (d : list (string * A)) v :
  dict_get k d = Some v → (k, v) ∈ d.
Proof.
  induction d as [|[k' v'] d IH]; simpl; [done|].
  case_decide as E.
  - intros [= <-]. subst. left.
  - intros H. right. auto.
Qed.

Lemma dict_get_is_Some {A} k (d : list (string * A)) :
  is_Some (dict_get k d) ↔ k ∈ map fst d.
Proof.
  induction d as [|[k' v'] d IH]; simpl.
  - split; [by intros [? ?]|by intros ?%elem_of_nil].
  - case_decide as E.
    + subst. split; [intros _; left|eauto].
    + rewrite IH, elem_of_cons. simpl. tauto.
Qed.

Lemma lookup_const_map {A} (c : A) (l : list string) v :
  (list_to_map (map (fun k => (k, c)) l) : gmap string A) !! v
  = if decide (v ∈ l) then Some c else None.
Proof.
  induction l as [|k l IH]; simpl.
  - apply lookup_empty.
  - rewrite lookup_insert, IH. simpl.
    destruct (decide (k = v)) as [->|Hne].
    + by rewrite decide_True by left.
    + destruct (decide (v ∈ l)) as [Hin|Hnin].
      * by rewrite decide_True by (by right).
      * rewrite decide_False; [done|].
        intros [?|?]%elem_of_cons; congruence.
Qed.

(** ** Sets *)

Lemma difference_union_cancel (X : gset (string * string)) k :
  (X ∪ {[ k ]}) ∖ {[ k ]} = X ∖ {[ k ]}.
Proof.
  apply set_eq. intros a.
  rewrite !elem_of_difference, elem_of_union. tauto.
Qed.

Lemma not_in_difference (X : gset (string * string)) k :
  k ∉ X → X ∖ {[ k ]} = X.
Proof.
  intros Hk. apply set_eq. intros a.
  rewrite elem_of_difference, elem_of_singleton.
  split; [tauto|]. intros Ha. split; [done|]. by intros ->.
Qed.

(** ** The constraint store *)

Lemma path_key_sym a b : path_key a b = path_key b a.
Proof.
  unfold path_key, String.ltb.
  rewrite (String.compare_antisym a b).
  destruct (String.compare b a) eqn:E; simpl; try done.
  apply String.compare_eq_iff in E. by subst.
Qed.

(** ** Well-formed graphs and the cost of a route *)

Lemma wf_graph_link g u node v c :
  wf_graph g →
  dict_get u (nodes g) = Some node →
  dict_get v (connections node) = Some c →
  v ∈ map fst (nodes g) ∧ link_ok c.
Proof.
  intros Hwf Hu Hv.
  apply dict_get_elem_of in Hu, Hv.
  unfold wf_graph in Hwf. rewrite Forall_forall in Hwf.
  specialize (Hwf _ Hu). rewrite Forall_forall in Hwf.
  apply (Hwf _ Hv).
Qed.

Lemma wf_graph_link_key g u node v :
  wf_graph g →
  dict_get u (nodes g) = Some node →
  v ∈ map fst (connections node) →
  v ∈ map fst (nodes g).
Proof.
  intros Hwf Hu Hv.
  apply dict_get_is_Some in Hv as [c Hc].
  by destruct (wf_graph_link _ _ _ _ _ Hwf Hu Hc).
Qed.

Lemma hazard_penalty_nonneg pf u v : 0 ≤ hazard_penalty pf u v.
Proof. unfold hazard_penalty. repeat case_decide; lia. Qed.

Section Weights.
Variable pf : PathFinder.
Variables (time_of_day : TimeOfDay) (emergency_mode : bool).
Hypothesis Hwf : wf_graph (graph pf).

Abbreviation weight u v :=
  (_get_effective_weight pf u v time_of_day emergency_mode).
Abbreviation cost := (edge_cost pf time_of_day emergency_mode).

(** On a well-formed graph the weight function raises nothing. *)
Lemma weight_defined u v : weight u v = Ok (cost u v).
Proof.
  unfold edge_cost, _get_effective_weight.
  case_decide; [done|].
  destruct (dict_get u _) as [node|] eqn:Hu; [|done].
  destruct (dict_get v _) as [c|] eqn:Hv; [|done].
  destruct emergency_mode; [done|].
  destruct (wf_graph_link _ _ _ _ _ Hwf Hu Hv) as [_ [_ Hc]].
  destruct (Hc time_of_day) as (w & -> & _). done.
Qed.

(** A finite cost is the cost of a link of the graph, and not negative. *)
Lemma cost_finite u v c :
  cost u v = Int c →
  0 ≤ c ∧ ∃ node, dict_get u (nodes (graph pf)) = Some node
                  ∧ v ∈ map fst (connections node).
Proof.
  unfold edge_cost, _get_effective_weight.
  case_decide; [done|].
  destruct (dict_get u _) as [node|] eqn:Hu; [|done].
  destruct (dict_get v _) as [cn|] eqn:Hv; [|done].
  destruct (wf_graph_link _ _ _ _ _ Hwf Hu Hv) as [_ [Hd Hc]].
  intros Hw. split.
  - destruct emergency_mode.
    + injection Hw as <-. pose proof (hazard_penalty_nonneg pf u v). lia.
    + destruct (Hc time_of_day) as (w & Hw' & Hpos).
      rewrite Hw' in Hw. simpl in Hw. injection Hw as <-. done.
  - exists node. split; [done|].
    apply dict_get_is_Some. by rewrite Hv.
Qed.

Lemma path_cost_cons u v p :
  path_cost pf time_of_day emergency_mode (u :: v :: p)
  = num_add (cost u v) (path_cost pf time_of_day emergency_mode (v :: p)).
Proof. done. Qed.

Lemma path_cost_snoc p u v c :
  last p = Some u →
  path_cost pf time_of_day emergency_mode p = Int c →
  path_cost pf time_of_day emergency_mode (p ++ [v])
  = num_add (Int c) (cost u v).
Proof.
  revert c. induction p as [|a [|b p] IH]; intros c; [done| |].
  - simpl. intros [= ->] [= <-]. destruct (cost u v); simpl; f_equal; lia.
  - intros Hl. rewrite path_cost_cons.
    change ((a :: b :: p) ++ [v]) with (a :: b :: (p ++ [v])).
    rewrite path_cost_cons.
    change (b :: (p ++ [v])) with ((b :: p) ++ [v]).
    destruct (cost a b) as [w|]; [|done].
    destruct (path_cost pf time_of_day emergency_mode (b :: p)) as [c'|] eqn:Hc;
      [|done].
    intros [= <-]. rewrite (IH c'); [|done|done].
    destruct (cost u v); simpl; f_equal; lia.
Qed.

Lemma path_cost_nonneg p c :
  path_cost pf time_of_day emergency_mode p = Int c → 0 ≤ c.
Proof.
  revert c. induction p as [|a [|b p] IH]; intros c.
  - intros [= <-]. lia.
  - intros [= <-]. lia.
  - rewrite path_cost_cons.
    destruct (cost a b) as [w|] eqn:Hw; [|done].
    destruct (path_cost pf time_of_day emergency_mode (b :: p)) as [c'|];
      [|done].
    intros [= <-]. apply cost_finite in Hw as [? _].
    specialize (IH c' eq_refl). lia.
Qed.
End Weights.

(** ** The search *)

Lemma unvisited_degree_mono S S' l :
  S ⊆ S' → (unvisited_degree S' l ≤ unvisited_degree S l)%nat.
Proof.
  intros HS. induction l as [|[k n] l IH]; simpl; [done|].
  unfold unvisited_degree in *. simpl.
  repeat case_decide; try lia. exfalso. auto.
Qed.

Lemma unvisited_degree_visit S l k node :
  dict_get k l = Some node → k ∉ S →
  (unvisited_degree (S ∪ {[k]}) l + length (connections node)
   ≤ unvisited_degree S l)%nat.
Proof.
  intros Hk HS. induction l as [|[k' n'] l IH]; simpl in *; [done|].
  unfold unvisited_degree in *. simpl.
  pose proof (unvisited_degree_mono S (S ∪ {[k]}) l) as Hm.
  unfold unvisited_degree in Hm.
  case_decide as E.
  - injection Hk as ->. subst k'.
    rewrite decide_True by apply elem_of_union_r, elem_of_singleton, eq_refl.
    rewrite decide_False by done.
    specialize (Hm (union_subseteq_l _ _)). lia.
  - specialize (IH Hk).
    destruct (decide (k' ∈ S)) as [Hin|Hnin].
    + rewrite decide_True by by apply elem_of_union_l. lia.
    + rewrite decide_False; [lia|].
      intros [?|?%elem_of_singleton]%elem_of_union; congruence.
Qed.

Lemma unvisited_degree_empty l :
  unvisited_degree ∅ l
  = list_sum (map (fun kn : string * Node => length (connections kn.2)) l).
Proof.
  unfold unvisited_degree. induction l as [|[k n] l IH]; simpl; [done|].
  rewrite decide_False by set_solver. by rewrite IH.
Qed.

Section Engine.
Variable pf : PathFinder.
Variables (start finish : string) (time_of_day : TimeOfDay).
Variables (emergency_mode track_steps : bool).
Hypothesis Hwf : wf_graph (graph pf).
Hypothesis Hstart : start ∈ map fst (nodes (graph pf)).

Abbreviation keys := (map fst (nodes (graph pf))).
Abbreviation cost := (edge_cost pf time_of_day emergency_mode).
Abbreviation pcost := (path_cost pf time_of_day emergency_mode).
Abbreviation tree_path :=
  (tree_path_from pf time_of_day emergency_mode start).
Abbreviation inv := (search_inv pf time_of_day emergency_mode start).
Abbreviation measure := (search_measure pf).
Abbreviation carried := (carried_bound finish).

Lemma tree_path_mono prev S S' v p d :
  S ⊆ S' → tree_path prev S v p d → tree_path prev S' v p d.
Proof.
  intros HS. induction 1; [by constructor|].
  econstructor; eauto.
Qed.

Lemma tree_path_insert prev S nb o v p d :
  nb ≠ start → nb ∉ S → v ≠ nb →
  tree_path prev S v p d → tree_path (<[nb := o]> prev) S v p d.
Proof.
  intros Hs HS Hv Ht. induction Ht as [|u v p d c Ht IH Hu Hp Hc].
  - constructor. by rewrite lookup_insert_ne.
  - econstructor; [apply IH; by intros ->|done| |done].
    by rewrite lookup_insert_ne.
Qed.

Lemma tree_path_visited prev S v p d :
  tree_path prev S v p d → v ∈ S → ∀ a, a ∈ p → a ∈ S.
Proof.
  induction 1 as [|u v p d c Ht IH Hu Hp Hc]; intros Hv a.
  - by intros ->%list_elem_of_singleton.
  - rewrite elem_of_app, list_elem_of_singleton. intros [?| ->]; auto.
Qed.

Lemma tree_path_last prev S v p d :
  tree_path prev S v p d → last p = Some v.
Proof. destruct 1; [done|]. by rewrite last_snoc. Qed.

Lemma tree_path_route prev S v p d :
  tree_path prev S v p d →
  route start v p ∧ pcost p = Int d ∧ ∀ a, a ∈ p → a ∈ keys.
Proof.
  induction 1 as [|u v p d c Ht IH Hu Hp Hc].
  - split; [done|]. split; [done|]. by intros a ->%list_elem_of_singleton.
  - destruct IH as ([Hh Hl] & Hcost & Hk). split; [|split].
    + split; [|by rewrite last_snoc].
      destruct p; [done|]. done.
    + rewrite (path_cost_snoc _ _ _ _ u v d Hl Hcost), Hc. done.
    + intros a. rewrite elem_of_app, list_elem_of_singleton.
      intros [?| ->]; [auto|].
      apply (cost_finite _ _ _ Hwf) in Hc as [_ (node & Hn & Hv)].
      eapply wf_graph_link_key; eauto.
Qed.

(** Walking [prev] back from [v] rebuilds the route. *)
Lemma reconstruct_tree_path prev S v p d :
  tree_path prev S v p d → ∀ fuel acc,
  (length p ≤ fuel)%nat →
  reconstruct fuel prev (Some v) acc = Ok (p ++ acc).
Proof.
  induction 1 as [Hr|u v p d c Ht IH Hu Hp Hc]; intros fuel acc Hf.
  - destruct fuel; [simpl in Hf; lia|]. simpl. rewrite Hr. simpl.
    by destruct fuel.
  - rewrite length_app in Hf. simpl in Hf.
    destruct fuel; [lia|]. simpl. rewrite Hp. simpl.
    rewrite IH by lia. by rewrite <- app_assoc.
Qed.

Lemma relax_neighbor_spec S cur seen st nb :
  inv (during S cur seen) st → visited st = S → cur ∈ S →
  farthest st cur → nb ∈ keys →
  ∃ st',
    relax_neighbor pf time_of_day emergency_mode track_steps cur st nb
      = Ok st'
    ∧ inv (during S cur (nb :: seen)) st'
    ∧ visited st' = S
    ∧ farthest st' cur
    ∧ (length (pq st') ≤ Datatypes.S (length (pq st)))%nat.
Proof.
  intros Hinv HS Hcur Hfar Hnb.
  destruct (inv_visited _ _ _ _ _ _ Hinv cur) as [dc Hdc]; [by rewrite HS|].
  (* the state is left as it is: the pair is examined all the same *)
  assert (Hkeep :
    (∀ c, cost cur nb = Int c →
       ∃ dn, distances st !! nb = Some (Int dn) ∧ dn ≤ dc + c) →
    inv (during S cur (nb :: seen)) st).
  { intros Hrel. destruct Hinv. constructor; try done.
    intros u v du c [[Hu Hne]|[-> Hv]] Hdu Hc.
    - eapply inv_relaxed0; eauto. by left.
    - apply elem_of_cons in Hv as [->|Hv].
      + rewrite Hdc in Hdu. injection Hdu as <-. by apply Hrel.
      + eapply inv_relaxed0; eauto. by right. }
  unfold relax_neighbor.
  case_decide as Hvis.
  { (* already finalized *)
    exists st. split; [done|]. split; [|by auto].
    apply Hkeep. intros c Hc.
    rewrite HS in Hvis.
    destruct (inv_visited _ _ _ _ _ _ Hinv nb) as [dn Hdn]; [by rewrite HS|].
    exists dn. split; [done|].
    apply (cost_finite _ _ _ Hwf) in Hc as [Hc _].
    specialize (Hfar nb dn dc). rewrite HS in Hfar.
    specialize (Hfar Hvis Hdn Hdc). lia. }
  rewrite (weight_defined _ _ _ Hwf). cbn [bind].
  unfold num_eqb. case_bool_decide as Hw.
  { (* no usable edge *)
    exists st. split; [done|]. split; [|by auto].
    apply Hkeep. intros c Hc. by rewrite Hw in Hc. }
  destruct (cost cur nb) as [c|] eqn:Hc; [|done]. clear Hw.
  rewrite Hdc. cbn [bind getitem num_add].
  destruct (inv_dom _ _ _ _ _ _ Hinv nb Hnb) as [[dnb Hdnb] _].
  rewrite Hdnb. cbn [bind getitem num_add].
  destruct (num_ltb (Int (dc + c)) dnb) eqn:Hlt.
  2:{ exists st. split; [done|]. split; [|by auto].
      apply Hkeep. intros c' [= <-].
      destruct dnb as [dn|]; [|done].
      exists dn. split; [done|]. simpl in Hlt. lia. }
  (* the distance of [nb] improves *)
  pose proof (cost_finite _ _ _ Hwf _ _ _ Hc) as [Hc0 _].
  assert (Hroot : start ∈ S) by (rewrite <- HS; eapply inv_root; [done|by rewrite HS]).
  assert (Hnbs : nb ≠ start) by (intros ->; by rewrite HS in Hvis).
  assert (Hnbc : nb ≠ cur) by (intros ->; by rewrite HS in Hvis).
  rewrite HS in Hvis.
  eexists. split; [done|]. simpl.
  split; [|split; [done|split]].
  - destruct Hinv. constructor; simpl.
    + intros v Hv. destruct (inv_dom0 v Hv) as [Hd Hp].
      rewrite !lookup_insert. split; case_decide; eauto.
    + by rewrite lookup_insert_ne.
    + done.
    + intros v d. rewrite lookup_insert. case_decide as E.
      * intros [= <-]. subst v.
        destruct (inv_tree0 cur dc Hdc) as (p & Hp & Hnd).
        exists (p ++ [nb]). split.
        -- apply (tree_edge _ _ _ _ _ _ cur nb p dc c); [|by rewrite HS| |done].
           ++ apply tree_path_insert; [done|by rewrite HS|done|done].
           ++ by rewrite lookup_insert_eq.
        -- apply NoDup_app. split; [done|]. split; [|apply NoDup_singleton].
           intros a Ha ->%list_elem_of_singleton.
           rewrite HS in Hp.
           by apply (tree_path_visited _ _ _ _ _ Hp Hcur) in Ha.
      * intros Hd. destruct (inv_tree0 v d Hd) as (p & Hp & Hnd).
        exists p. split; [|done].
        apply tree_path_insert; [done|by rewrite HS|done|done].
    + intros v d. rewrite lookup_insert. unfold heappush.
      rewrite elem_of_app, list_elem_of_singleton. case_decide as E.
      * intros [= <-] _. subst v. by right.
      * intros Hd Hv. left. by apply inv_frontier0.
    + intros k v. unfold heappush.
      rewrite elem_of_app, list_elem_of_singleton.
      intros [Hq|[= -> ->]].
      * destruct (inv_queue0 k v Hq) as (d & d' & -> & Hd & Hle).
        rewrite lookup_insert. case_decide as E.
        -- subst v. rewrite Hdnb in Hd. injection Hd as ->.
           simpl in Hlt. exists d, (dc + c). split; [done|].
           split; [done|]. lia.
        -- exists d, d'. done.
      * exists (dc + c), (dc + c). rewrite lookup_insert_eq.
        split; [done|]. split; [done|]. lia.
    + intros u Hu. rewrite lookup_insert_ne; [by apply inv_visited0|].
      intros ->. by rewrite HS in Hu.
    + intros u v du dv Hu Hv.
      rewrite (lookup_insert_ne _ nb u); [|intros ->; by rewrite HS in Hu].
      rewrite lookup_insert. case_decide as E.
      * intros Hdu [= <-]. specialize (Hfar u du dc Hu Hdu Hdc). lia.
      * by apply inv_mono0.
    + intros v. rewrite !lookup_insert. case_decide as E; [done|].
      apply inv_inf0.
    + intros u v du c' Hrel.
      assert (Hu : u ≠ nb).
      { destruct Hrel as [[Hu _]|[-> _]]; [|done]. by intros ->. }
      rewrite (lookup_insert_ne _ nb u) by done.
      intros Hdu Hc'.
      assert (Hold : during S cur seen u v ∨ (u = cur ∧ v = nb)).
      { destruct Hrel as [?|[-> Hv]]; [left; by left|].
        apply elem_of_cons in Hv as [->|Hv]; [by right|].
        left. by right. }
      rewrite lookup_insert. case_decide as E.
      * subst v. exists (dc + c). split; [done|].
        destruct Hold as [Hold|[-> _]].
        -- destruct (inv_relaxed0 u nb du c' Hold Hdu Hc') as (dv & Hdv & Hle).
           rewrite Hdnb in Hdv. injection Hdv as ->.
           simpl in Hlt. lia.
        -- rewrite Hc in Hc'. injection Hc' as <-.
           rewrite Hdc in Hdu. injection Hdu as <-. lia.
      * destruct Hold as [Hold|[_ ->]]; [|done].
        by apply (inv_relaxed0 u v du c' Hold).
  - intros u du dc' Hu. simpl.
    rewrite !lookup_insert_ne; [by apply Hfar| |].
    + by intros ->.
    + intros ->. by rewrite HS in Hu.
  - unfold heappush. rewrite length_app. simpl. lia.
Qed.

Lemma explore_spec S cur nbs : ∀ seen st,
  inv (during S cur seen) st → visited st = S → cur ∈ S →
  farthest st cur → (∀ nb, nb ∈ nbs → nb ∈ keys) →
  ∃ st' seen',
    explore pf time_of_day emergency_mode track_steps cur nbs st = Ok st'
    ∧ (∀ v, v ∈ nbs ∨ v ∈ seen → v ∈ seen')
    ∧ inv (during S cur seen') st'
    ∧ visited st' = S
    ∧ (length (pq st') ≤ length (pq st) + length nbs)%nat.
Proof.
  induction nbs as [|nb nbs IH]; intros seen st Hinv HS Hcur Hfar Hk.
  - exists st, seen. simpl. split; [done|].
    split; [by intros v [?%elem_of_nil|?]|].
    split; [done|]. split; [done|]. lia.
  - destruct (relax_neighbor_spec S cur seen st nb Hinv HS Hcur Hfar)
      as (st1 & Hr & Hinv1 & HS1 & Hfar1 & Hlen1).
    { apply Hk. left. }
    destruct (IH (nb :: seen) st1 Hinv1 HS1 Hcur Hfar1)
      as (st2 & seen' & He & Hseen & Hinv2 & HS2 & Hlen2).
    { intros v Hv. apply Hk. by right. }
    exists st2, seen'. simpl. rewrite Hr. simpl.
    split; [done|]. split; [|split; [done|split; [done|lia]]].
    intros v [[->|Hv]%elem_of_cons|Hv]; apply Hseen.
    + right. left.
    + by left.
    + right. by right.
Qed.

(** The fields the invariant reads. *)
Lemma inv_ext relaxed st st' :
  distances st' = distances st → previous st' = previous st →
  pq st' = pq st → visited st' = visited st →
  inv relaxed st → inv relaxed st'.
Proof.
  intros HD HP HQ HV [].
  constructor; rewrite ?HD, ?HP, ?HQ, ?HV; done.
Qed.
(** One pass of the loop on a location that is not finalized yet: it
    becomes finalized, none of its connections examined so far. *)
Lemma visit_spec st k cur q' lg :
  inv (fun u _ => u ∈ visited st) st →
  heappop (pq st) = Some ((k, cur), q') →
  cur ∉ visited st →
  let st1 := {| distances := distances st; previous := previous st;
                pq := q'; visited := visited st ∪ {[cur]}; log := lg |} in
  inv (during (visited st ∪ {[cur]}) cur []) st1
  ∧ farthest st1 cur ∧ cur ∈ keys.
Proof.
  intros Hinv Hpop Hcur st1.
  apply heappop_spec in Hpop as [Hperm Hmin].
  assert (Hin : (k, cur) ∈ pq st) by (rewrite <- Hperm; left).
  destruct (inv_queue _ _ _ _ _ _ Hinv _ _ Hin) as (d & d' & -> & Hd & Hle).
  destruct (inv_tree _ _ _ _ _ _ Hinv _ _ Hd) as (p & Hp & Hnd).
  split; [|split].
  - destruct Hinv. constructor; simpl; try done.
    + intros u [Hu| ->%elem_of_singleton]%elem_of_union.
      * apply elem_of_union_l. eauto.
      * inversion Hp; subst; [by apply elem_of_union_r, elem_of_singleton|].
        apply elem_of_union_l. eauto.
    + intros v dv Hdv. destruct (inv_tree0 v dv Hdv) as (pv & Hpv & Hndv).
      exists pv. split; [|done].
      eapply tree_path_mono; [|done]. apply union_subseteq_l.
    + intros v dv Hdv Hv.
      assert (Hq : (Int dv, v) ∈ pq st).
      { apply inv_frontier0; [done|]. intros Hv'. by apply Hv, elem_of_union_l. }
      rewrite <- Hperm in Hq. apply elem_of_cons in Hq as [[= -> ->]|Hq]; [|done].
      exfalso. by apply Hv, elem_of_union_r, elem_of_singleton.
    + intros k' v Hq. apply inv_queue0. rewrite <- Hperm. by right.
    + intros u [Hu| ->%elem_of_singleton]%elem_of_union; eauto.
    + intros u v du dv [Hu| ->%elem_of_singleton]%elem_of_union Hv Hdu Hdv.
      * apply (inv_mono0 u v du dv); [done| |done|done].
        intros Hv'. apply Hv. by apply elem_of_union_l.
      * rewrite Hd in Hdu. injection Hdu as <-.
        assert (Hq : (Int dv, v) ∈ pq st).
        { apply inv_frontier0; [done|]. intros Hv'. by apply Hv, elem_of_union_l. }
        apply Hmin in Hq. simpl in Hq. apply num_le_Int in Hq. lia.
    + intros u v du c [[Hu Hne]|[_ []%elem_of_nil]].
      apply inv_relaxed0.
      apply elem_of_union in Hu as [Hu|Hu%elem_of_singleton]; done.
  - intros u du dc [Hu| ->%elem_of_singleton]%elem_of_union; simpl.
    + intros Hdu Hdc. eapply (inv_mono _ _ _ _ _ _ Hinv u cur); eauto.
    + intros Hdu Hdc. rewrite Hdu in Hdc. injection Hdc as <-. lia.
  - pose proof (tree_path_last _ _ _ _ _ Hp) as Hl.
    apply tree_path_route in Hp as (_ & _ & Hk).
    by apply Hk, last_Some_elem_of.
Qed.

(** The search loop ends within the bound, raises nothing, and ends either
    on [finish], finalized, or with an empty queue. *)
Lemma search_loop_spec fuel : ∀ st,
  inv (fun u _ => u ∈ visited st) st → finish ∉ visited st →
  (measure st ≤ fuel)%nat →
  ∃ st',
    search_loop pf finish time_of_day emergency_mode track_steps fuel st
      = Ok st'
    ∧ inv (fun u _ => u ∈ visited st' ∧ u ≠ finish) st'
    ∧ (finish ∈ visited st' ∨ pq st' = []).
Proof.
  induction fuel as [|fuel IH]; intros st Hinv Hfin Hfuel.
  - assert (Hq : pq st = []).
    { unfold search_measure in Hfuel. destruct (pq st); [done|simpl in Hfuel; lia]. }
    exists st. simpl. rewrite Hq. simpl. split; [done|]. split; [|by right].
    destruct Hinv. constructor; try done.
    intros u v du c [Hu _]. by apply inv_relaxed0.
  - simpl. destruct (heappop (pq st)) as [[[k cur] q']|] eqn:Hpop.
    2:{ exists st. split; [done|]. split; [|right; by apply heappop_None].
        destruct Hinv. constructor; try done.
        intros u v du c [Hu _]. by apply inv_relaxed0. }
    pose proof (heappop_spec _ _ _ Hpop) as [Hperm Hmin].
    assert (Hlen : length (pq st) = Datatypes.S (length q')).
    { by rewrite <- Hperm. }
    case_decide as Hcur.
    + (* a stale entry *)
      apply IH; simpl; [|done|].
      * destruct Hinv. constructor; simpl; try done.
        -- intros v d Hd Hv.
           assert (Hq : (Int d, v) ∈ pq st) by by apply inv_frontier0.
           rewrite <- Hperm in Hq.
           apply elem_of_cons in Hq as [[= -> ->]|Hq]; done.
        -- intros k' v Hq. apply inv_queue0. rewrite <- Hperm. by right.
      * unfold search_measure in *. simpl. lia.
    + set (lg := record track_steps _ (log st)).
      destruct (visit_spec st k cur q' lg Hinv Hpop Hcur)
        as (Hinv1 & Hfar1 & Hkey).
      case_decide as Hend.
      * (* the destination *)
        eexists. split; [done|]. simpl.
        split; [|left; by apply elem_of_union_r, elem_of_singleton].
        eapply inv_ext in Hinv1; [|reflexivity..].
        destruct Hinv1. constructor; simpl in *; try done.
        intros u v du c [Hu Hne]. apply inv_relaxed0.
        left. split; [done|]. by subst.
      * apply dict_get_is_Some in Hkey as [node Hnode].
        rewrite Hnode. cbn [bind getitem].
        destruct (explore_spec (visited st ∪ {[cur]}) cur
                    (map fst (connections node)) [] _ Hinv1)
          as (st2 & seen & He & Hseen & Hinv2 & HS2 & Hlen2);
          [done|by apply elem_of_union_r, elem_of_singleton|done| |].
        { intros nb Hnb. eapply wf_graph_link_key; eauto. }
        rewrite He. cbn [bind].
        apply IH.
        -- destruct Hinv2. constructor; try done.
           intros u v du c Hu Hdu Hc. apply (inv_relaxed0 u v du c); [|done..].
           destruct (decide (u = cur)) as [->|Hne].
           ++ right. split; [done|]. apply Hseen. left.
              apply (cost_finite _ _ _ Hwf) in Hc as [_ (node' & Hn' & Hv)].
              rewrite Hnode in Hn'. by injection Hn' as <-.
           ++ left. split; [|done]. by rewrite <- HS2.
        -- rewrite HS2.
           intros [?|?%elem_of_singleton]%elem_of_union; congruence.
        -- unfold search_measure in *. rewrite HS2.
           pose proof (unvisited_degree_visit (visited st) _ _ _ Hnode Hcur).
           rewrite length_map in Hlen2. simpl in Hlen2. lia.
Qed.

Lemma initial_inv :
  inv (fun u _ => u ∈ visited (initial_search (graph pf) start track_steps))
      (initial_search (graph pf) start track_steps).
Proof.
  constructor; simpl.
  - intros v Hv. rewrite lookup_insert, !lookup_const_map.
    destruct (decide (v ∈ keys)); [|done]. split; [case_decide|]; eauto.
  - by rewrite lookup_insert_eq.
  - intros u []%not_elem_of_empty.
  - intros v d. rewrite lookup_insert, lookup_const_map.
    case_decide as E; [|by case_decide].
    intros [= <-]. subst v. exists [start]. split; [|apply NoDup_singleton].
    constructor. rewrite lookup_const_map. by rewrite decide_True.
  - intros v d. rewrite lookup_insert, lookup_const_map.
    case_decide as E; [|by case_decide].
    intros [= <-] _. subst v. left.
  - intros k v [= -> ->]%list_elem_of_singleton.
    exists 0, 0. by rewrite lookup_insert_eq.
  - intros u []%not_elem_of_empty.
  - intros u v du dv []%not_elem_of_empty.
  - intros v. rewrite lookup_insert, !lookup_const_map.
    case_decide as E; [done|]. by case_decide.
  - intros u v du c []%not_elem_of_empty.
Qed.
Lemma carried_along st :
  inv (fun u _ => u ∈ visited st ∧ u ≠ finish) st →
  ∀ p u v c0 c, head p = Some u → last p = Some v →
    carried st u c0 → pcost p = Int c → carried st v (c0 + c).
Proof.
  intros Hinv. induction p as [|a [|b p] IH]; intros u v c0 c; [done| |].
  - intros [= ->] [= ->] Hc [= <-]. by rewrite Z.add_0_r.
  - intros [= ->] Hl Hc. rewrite path_cost_cons.
    destruct (cost u b) as [w|] eqn:Hw; [|done].
    destruct (pcost (b :: p)) as [c'|] eqn:Hc'; [|done].
    intros [= <-]. rewrite Z.add_assoc.
    apply (IH b v (c0 + w) c'); [done|done| |done].
    pose proof (cost_finite _ _ _ Hwf _ _ _ Hw) as [Hw0 _].
    destruct Hc as (y & dy & Hdy & Hle & Hy).
    destruct (decide (y = u ∧ u ∈ visited st ∧ u ≠ finish))
      as [(-> & Hu & Hne)|Hn].
    + destruct (inv_relaxed _ _ _ _ _ _ Hinv u b dy w) as (db & Hdb & Hleb);
        [done..|].
      exists b, db. split; [done|]. split; [lia|by left].
    + exists y, dy. split; [done|]. split; [lia|].
      destruct Hy as [->|Hy]; [|by right].
      right. destruct (decide (u ∈ visited st)); [|by left].
      right. destruct (decide (u = finish)); [done|]. tauto.
Qed.

Hypothesis Hfinish : finish ∈ map fst (nodes (graph pf)).

(** What [dijkstra] returns. *)
Lemma dijkstra_spec :
  ∃ r, dijkstra pf start finish time_of_day emergency_mode track_steps = Ok r
    ∧ (∀ p, route start finish p → num_le (path_distance r) (pcost p))
    ∧ (∀ d, path_distance r = Int d →
         route start finish (path r) ∧ pcost (path r) = Int d
         ∧ finish ∈ visited_nodes r)
    ∧ (path_distance r = PosInf →
         path r = [finish] ∧ finish ∉ visited_nodes r).
Proof.
  unfold dijkstra.
  destruct (search_loop_spec (search_fuel (graph pf))
              (initial_search (graph pf) start track_steps))
    as (st & -> & Hinv & Hfinal).
  { apply initial_inv. }
  { simpl. apply not_elem_of_empty. }
  { unfold search_measure, search_fuel. simpl. by rewrite unvisited_degree_empty. }
  cbn [bind].
  destruct (inv_dom _ _ _ _ _ _ Hinv finish Hfinish) as [[d Hd] _].
  assert (Hvis : ∀ dz, d = Int dz → finish ∈ visited st).
  { intros dz ->. destruct Hfinal as [?|Hq]; [done|].
    destruct (decide (finish ∈ visited st)) as [|Hn]; [done|].
    pose proof (inv_frontier _ _ _ _ _ _ Hinv _ _ Hd Hn) as Hin.
    rewrite Hq in Hin. by apply elem_of_nil in Hin. }
  assert (Hlow : ∀ p c, route start finish p → pcost p = Int c →
                        ∃ dz, d = Int dz ∧ dz ≤ c).
  { intros p c [Hh Hl] Hc.
    destruct (carried_along st Hinv p start finish 0 c Hh Hl) as
      (y & dy & Hdy & Hle & Hy); [|done|].
    { exists start, 0. split; [apply (inv_start _ _ _ _ _ _ Hinv)|]. split; [lia|by left]. }
    assert (Hy' : y = finish ∨ y ∉ visited st) by tauto. clear Hy.
    destruct Hy' as [->|Hy].
    - rewrite Hd in Hdy. injection Hdy as ->. exists dy. split; [done|lia].
    - assert (Hin : (Int dy, y) ∈ pq st) by by eapply inv_frontier.
      destruct Hfinal as [Hf|Hq]; [|rewrite Hq in Hin; by apply elem_of_nil in Hin].
      destruct (inv_visited _ _ _ _ _ _ Hinv _ Hf) as [dz Hdz].
      rewrite Hd in Hdz. injection Hdz as ->. exists dz. split; [done|].
      pose proof (inv_mono _ _ _ _ _ _ Hinv finish y dz dy Hf Hy Hd Hdy). lia. }
  destruct d as [dz|].
  - destruct (inv_tree _ _ _ _ _ _ Hinv _ _ Hd) as (p & Hp & Hnd).
    pose proof (tree_path_route _ _ _ _ _ Hp) as (Hroute & Hcost & Hk).
    rewrite (reconstruct_tree_path _ _ _ _ _ Hp).
    2:{ apply NoDup_submseteq in Hk; [|done].
        apply submseteq_length in Hk. rewrite length_map in Hk. lia. }
    rewrite Hd. cbn [bind getitem]. rewrite app_nil_r.
    eexists. split; [done|]. simpl. split; [|split; [|done]].
    + intros q Hq. destruct (pcost q) as [c|] eqn:Hc; [|done].
      destruct (Hlow q c Hq Hc) as (dz' & [= <-] & Hle).
      by apply num_le_Int.
    + intros d' [= <-]. eauto.
  - pose proof (inv_inf _ _ _ _ _ _ Hinv _ Hd) as Hprev.
    simpl. rewrite Hprev. cbn [bind getitem]. rewrite Hd.
    eexists. split; [by destruct (length (nodes (graph pf)))|].
    simpl. split; [|split; [done|]].
    + intros q Hq. destruct (pcost q) as [c|] eqn:Hc; [|done].
      by destruct (Hlow q c Hq Hc) as (dz' & [=] & _).
    + intros _. split; [done|].
      intros Hf. destruct (inv_visited _ _ _ _ _ _ Hinv _ Hf) as [dz Hdz]. congruence.
Qed.
End Engine.

(** ** The trivial query *)

(** [dijkstra] from a location to itself: the first entry popped is the
    destination. *)
Lemma dijkstra_self pf s time_of_day emergency_mode track_steps :
  s ∈ map fst (nodes (graph pf)) →
  ∃ r, dijkstra pf s s time_of_day emergency_mode track_steps = Ok r
       ∧ path r = [s] ∧ path_distance r = Int 0
       ∧ visited_nodes r = {[ s ]}.
Proof.
  intros Hs. unfold dijkstra, search_fuel, initial_search.
  cbn [search_loop pq heappop pop_min visited distances previous].
  rewrite decide_False by apply not_elem_of_empty.
  rewrite decide_True by done.
  cbn [bind previous distances reconstruct].
  rewrite lookup_const_map, decide_True by done.
  cbn [bind getitem]. rewrite lookup_insert_eq. cbn [bind getitem].
  eexists. split; [by destruct (length (nodes (graph pf)))|].
  simpl. split; [done|]. split; [done|]. apply (left_id_L ∅ (∪)).
Qed.

(** ** The campus graph is well formed *)

Lemma link_okb_sound c : link_okb c = true → link_ok c.
Proof.
  unfold link_okb, link_ok. simpl.
  rewrite !andb_true_iff, Z.leb_le. intros (Hd & Hm & Ha & He & _).
  split; [done|]. intros t.
  assert (H : match traffic_weight c t with
              | Ok w => 0 <=? w
              | _ => false
              end = true) by by destruct t.
  destruct (traffic_weight c t) as [w| |]; [|done..].
  exists w. split; [done|]. by apply Z.leb_le.
Qed.

Lemma wf_graphb_sound g : wf_graphb g = true → wf_graph g.
Proof.
  unfold wf_graphb, wf_graph. rewrite forallb_forall, Forall_forall.
  intros H kn Hkn. apply list_elem_of_In, H in Hkn.
  rewrite forallb_forall in Hkn. apply Forall_forall.
  intros kc Hkc. apply list_elem_of_In, Hkn in Hkc.
  apply andb_true_iff in Hkc as [Hk Hl].
  split; [by apply bool_decide_eq_true in Hk|by apply link_okb_sound].
Qed.

Lemma campus_wf : wf_graph campus.
Proof. apply wf_graphb_sound. vm_compute. reflexivity. Qed.

(** ** Rounding *)

Lemma float_fraction_pos f a b : float_fraction f = Some (a, b) → 0 < b.
Proof.
  destruct f as [| | |s m [|p|p]]; simpl; try done; intros [= <- <-]; lia.
Qed.

Lemma round_half_even_nearest m p :
  nearest_ties_even (Z.pos m) (Z.pow_pos 2 p) (round_half_even m (Z.neg p)).
Proof.
  unfold nearest_ties_even, round_half_even.
  set (d := Z.pow_pos 2 p).
  assert (Hd : 0 < d) by (unfold d; rewrite Z.pow_pos_fold; lia).
  pose proof (Z.div_mod (Z.pos m) d ltac:(lia)) as Hm.
  pose proof (Z.mod_pos_bound (Z.pos m) d Hd) as Hr.
  set (q := Z.pos m / d) in *. set (r := Z.pos m mod d) in *.
  destruct (Z.compare_spec (2 * r) d) as [He|Hl|Hg].
  - destruct (Z.even q) eqn:Hq.
    + split; [|done]. rewrite Hm. lia.
    + split; [rewrite Hm; lia|]. intros _.
      rewrite Z.even_add, Hq. done.
  - split; [rewrite Hm; lia|]. rewrite Hm. lia.
  - split; [rewrite Hm; lia|]. rewrite Hm. lia.
Qed.

Lemma nearest_ties_even_opp a b n :
  nearest_ties_even a b n → nearest_ties_even (- a) b (- n).
Proof.
  unfold nearest_ties_even.
  replace (2 * - a - 2 * - n * b) with (- (2 * a - 2 * n * b)) by lia.
  rewrite Z.abs_opp, Z.even_opp. done.
Qed.

(** [round] on a finite float is round-half-to-even of its value. *)
Lemma py_round_nearest f a b :
  float_fraction f = Some (a, b) →
  ∃ n, py_round f = Ok n ∧ nearest_ties_even a b n.
Proof.
  destruct f as [s|s| |s m e]; simpl; try done.
  - intros [= <- <-]. exists 0. split; [done|]. split; simpl; [lia|done].
  - intros [= Hab]. eexists. split; [done|].
    assert (Hpos : ∀ a' b', (match e with
                    | Z.neg p => (Z.pos m, Z.pow_pos 2 p)
                    | _ => (Z.pos m * 2 ^ e, 1) end) = (a', b') →
                  nearest_ties_even a' b' (round_half_even m e)).
    { destruct e as [|p|p]; intros a' b' [= <- <-].
      - unfold round_half_even, nearest_ties_even. split; lia.
      - unfold round_half_even, nearest_ties_even. split; lia.
      - apply round_half_even_nearest. }
    destruct s; simpl.
    + destruct e as [|p|p]; injection Hab as <- <-;
        apply nearest_ties_even_opp, Hpos; done.
    + apply Hpos. by destruct e.
Qed.

(** Away from a tie, nearest-even and half-up agree. *)
Lemma nearest_not_tie a b n :
  0 < b → nearest_ties_even a b n →
  Z.abs (2 * a - 2 * n * b) ≠ b → n = round_half_up a b.
Proof.
  unfold nearest_ties_even, round_half_up. intros Hb [Hle _] Hne.
  apply (Z.div_unique_pos _ _ n (2 * a + b - 2 * b * n)); lia.
Qed.

(** The rounding of a product keeps the sign of the product. *)
Lemma binary_round_aux_sign s m e l s' m' e' :
  binary_round_aux prec emax s m e l = S754_finite s' m' e' → s' = s.
Proof.
  unfold binary_round_aux.
  destruct (shr_fexp prec emax m e l) as [mrs1 e1].
  destruct (shr_fexp prec emax _ e1 loc_Exact) as [mrs2 e2].
  destruct (shr_m mrs2); [done| |done].
  destruct (e2 <=? emax - prec); [|done]. by intros [= <- _ _].
Qed.

Lemma round_half_even_nonneg m e : 0 ≤ round_half_even m e.
Proof.
  unfold round_half_even. destruct e as [|p|p]; [lia|lia|].
  assert (Hd : 0 < Z.pow_pos 2 p) by (rewrite Z.pow_pos_fold; lia).
  pose proof (Z.div_pos (Z.pos m) (Z.pow_pos 2 p) ltac:(lia) Hd).
  destruct (_ ?= _); [destruct (Z.even _)| |]; lia.
Qed.

(** A link of the data model is sound: with a base distance and multipliers
    that are not negative, its traffic-weighted cost is not negative
    wherever the product is finite. *)
Lemma link_ok_intro c :
  0 ≤ distance c →
  (∀ t, nonneg_float (multiplier_at (traffic c) t)) →
  (∀ t, ∃ base, float_of_int (distance c) = Ok base
                ∧ is_Some (float_fraction
                             (float_mul base (multiplier_at (traffic c) t)))) →
  link_ok c.
Proof.
  intros Hd Hm Hfin. split; [done|]. intros t.
  destruct (Hfin t) as (base & Hbase & [[a b] Hfr]).
  specialize (Hm t). unfold traffic_weight. rewrite Hbase. cbn [bind].
  assert (Hsign : ∀ s m e, base = S754_finite s m e → s = false).
  { intros s m e ->. unfold float_of_int in Hbase.
    destruct (distance c) as [|d|d]; [done| |lia].
    simpl in Hbase. unfold binary_round in Hbase.
    destruct (shl_align _ _ _) as [mz ez].
    destruct (binary_round_aux _ _ _ _ _ _) as [| | |s1 m1 e1] eqn:Hr; try done.
    injection Hbase as -> -> ->. by apply binary_round_aux_sign in Hr. }
  destruct (float_mul base (multiplier_at (traffic c) t))
    as [s|s| |s m e] eqn:Hp; try done.
  - exists 0. done.
  - exists (cond_Zopp s (round_half_even m e)). split; [done|].
    assert (s = false) as ->.
    { unfold float_mul, SFmul in Hp.
      destruct base as [sb|sb| |sb mb eb]; try done;
        destruct (multiplier_at (traffic c) t) as [sm|sm| |sm mm em];
        try done.
      apply binary_round_aux_sign in Hp. subst s.
      rewrite (Hsign sb mb eb eq_refl). by destruct sm. }
    apply round_half_even_nonneg.
Qed.

(** ** Reference values *)

(** Membership in a list of names, by evaluation. *)
Lemma listed (s : string) (l : list string) :
  bool_decide (s ∈ l) = true → s ∈ l.
Proof. apply bool_decide_eq_true_1. Qed.

Lemma campus_exits_known e :
  e ∈ exit_points campus → e ∈ map fst (nodes campus).
Proof.
  intros [->|[->|[]%elem_of_nil]%elem_of_cons]%elem_of_cons;
    by apply listed.
Qed.

Lemma campus_positive : positive_links campus.
Proof. unfold positive_links. repeat (constructor; simpl; try lia). Qed.

(** No product on the campus graph is a tie. *)
Lemma campus_half_up from_node node to_node c t :
  dict_get from_node (nodes campus) = Some node →
  dict_get to_node (connections node) = Some c →
  ∃ w, traffic_weight c t = Ok w ∧ half_up_weight c t = Some w.
Proof.
  intros Hn Hc. apply dict_get_elem_of in Hn, Hc.
  assert (Hall : forallb (fun kn : string * Node =>
                   forallb (fun kc : string * Connection => half_up_agrees kc.2)
                           (connections kn.2)) (nodes campus) = true)
    by (vm_compute; reflexivity).
  rewrite forallb_forall in Hall.
  apply list_elem_of_In, Hall in Hn. rewrite forallb_forall in Hn.
  apply list_elem_of_In, Hn in Hc. simpl in Hc.
  unfold half_up_agrees in Hc. simpl in Hc.
  rewrite !andb_true_iff in Hc. destruct Hc as (Hm & Ha & He & _).
  assert (H : match traffic_weight c t, half_up_weight c t with
              | Ok w, Some w' => w =? w'
              | _, _ => false
              end = true) by by destruct t.
  destruct (traffic_weight c t) as [w| |]; [|done..].
  destruct (half_up_weight c t) as [w'|]; [|done].
  apply Z.eqb_eq in H as ->. eauto.
Qed.

Lemma route_of_Ok o p d :
  route_of o = Some (p, d) →
  ∃ r, o = Ok r ∧ path r = p ∧ path_distance r = d.
Proof. destruct o as [r| |]; [|done..]. intros [= <- <-]. eauto. Qed.

Example tenths_16 : tenths 16 = S754_finite false 7205759403792794 (-52).
Proof. vm_compute. reflexivity. Qed.

Example campus_morning_weights :
  _get_effective_weight (new_PathFinder campus) "Main Gate" "Library"
    MORNING false = Ok (Int 225)
  ∧ _get_effective_weight (new_PathFinder campus) "Library" "Computer Lab"
      MORNING false = Ok (Int 192).
Proof. split; vm_compute; reflexivity. Qed.

Example two_link_route :
  ∃ r, dijkstra (new_PathFinder two_link_graph) "Main Gate" "Computer Lab"
         MORNING false true = Ok r
       ∧ path r = ["Main Gate"; "Library"; "Computer Lab"]
       ∧ path_distance r = Int 417.
Proof. apply route_of_Ok. vm_compute. reflexivity. Qed.

Example two_link_blocked :
  ∃ r, dijkstra (block_path (new_PathFinder two_link_graph)
                   "Library" "Computer Lab")
         "Main Gate" "Computer Lab" MORNING false true = Ok r
       ∧ path r = ["Computer Lab"]
       ∧ path_distance r = PosInf.
Proof. apply route_of_Ok. vm_compute. reflexivity. Qed.

(** ** The weight function *)

(** C2, counterexample: a link of length 3 under the multiplier 1.5 weighs
    4, the even neighbour of 4.5; rounding half up gives 5. *)
Lemma traffic_weight_tie_not_half_up :
  wf_graph tie_graph
  ∧ _get_effective_weight (new_PathFinder tie_graph) "A" "B" MORNING false
    = Ok (Int 4)
  ∧ half_up_weight (Conn 3 15 10 12) MORNING = Some 5.
Proof.
  split; [apply wf_graphb_sound; vm_compute; reflexivity|].
  split; vm_compute; reflexivity.
Qed.

(** C2, amended: in normal mode the weight of a link that is not blocked is
    the binary64 product of its base distance and the multiplier of the
    time of day, rounded to the nearest integer, a tie going to the even
    one; away from a tie that is the product rounded half up, as it is on
    every link of the campus graph. *)
Theorem traffic_weight_rounds_to_even :
  (∀ pf from_node to_node time_of_day node connection base a b,
     path_key from_node to_node ∉ blocked_paths pf →
     dict_get from_node (nodes (graph pf)) = Some node →
     dict_get to_node (connections node) = Some connection →
     float_of_int (distance connection) = Ok base →
     float_fraction
       (float_mul base (multiplier_at (traffic connection) time_of_day))
     = Some (a, b) →
     ∃ n, _get_effective_weight pf from_node to_node time_of_day false
          = Ok (Int n)
        ∧ nearest_ties_even a b n
        ∧ (Z.abs (2 * a - 2 * n * b) ≠ b → n = round_half_up a b))
  ∧ (∀ pf from_node to_node time_of_day node connection,
       graph pf = campus →
       path_key from_node to_node ∉ blocked_paths pf →
       dict_get from_node (nodes campus) = Some node →
       dict_get to_node (connections node) = Some connection →
       ∃ n, _get_effective_weight pf from_node to_node time_of_day false
            = Ok (Int n)
          ∧ half_up_weight connection time_of_day = Some n).
Proof.
  split.
  - intros pf u v t node c base a b Hb Hn Hc Hbase Hfr.
    destruct (py_round_nearest _ _ _ Hfr) as (n & Hround & Hnear).
    exists n. split; [|split; [done|]].
    + unfold _get_effective_weight. rewrite decide_False by done.
      rewrite Hn, Hc. unfold traffic_weight. rewrite Hbase. cbn [bind].
      by rewrite Hround.
    + apply nearest_not_tie; [|done]. by eapply float_fraction_pos.
  - intros pf u v t node c Hg Hb Hn Hc.
    destruct (campus_half_up u node v c t Hn Hc) as (n & Hw & Hh).
    exists n. split; [|done].
    unfold _get_effective_weight. rewrite decide_False by done.
    rewrite Hg, Hn, Hc, Hw. done.
Qed.

Lemma traffic_weight_rounds_to_even_witness :
  ∃ n, _get_effective_weight (new_PathFinder tie_graph) "A" "B" MORNING false
       = Ok (Int n)
     ∧ nearest_ties_even 5066549580791808 1125899906842624 n
     ∧ (Z.abs (2 * 5066549580791808 - 2 * n * 1125899906842624)
        ≠ 1125899906842624 →
        n = round_half_up 5066549580791808 1125899906842624).
Proof.
  apply (proj1 traffic_weight_rounds_to_even
           (new_PathFinder tie_graph) "A" "B" MORNING
           {| x := 0; y := 0; connections := [("B", Conn 3 15 10 12)];
              node_type := ENTRANCE; icon := "a" |}
           (Conn 3 15 10 12)
           (S754_finite false 6755399441055744 (-51))).
  - vm_compute. discriminate.
  - reflexivity.
  - reflexivity.
  - vm_compute. reflexivity.
  - vm_compute. reflexivity.
Defined.

(** The emergency weight of a link that is there and not blocked. *)
Lemma emergency_weight_link pf from_node to_node time_of_day node connection :
  path_key from_node to_node ∉ blocked_paths pf →
  dict_get from_node (nodes (graph pf)) = Some node →
  dict_get to_node (connections node) = Some connection →
  _get_effective_weight pf from_node to_node time_of_day true
  = Ok (Int (distance connection
             + (if decide (from_node ∈ hazard_zones pf) then 500 else 0)
             + (if decide (to_node ∈ hazard_zones pf) then 500 else 0))).
Proof.
  intros Hb Hn Hc. unfold _get_effective_weight, hazard_penalty.
  rewrite decide_False by done. by rewrite Hn, Hc, Z.add_assoc.
Qed.

(** C3: in emergency mode the weight of a link that is not blocked is its
    base distance plus 500 for each endpoint that is a hazard zone,
    whatever the time of day and whatever the traffic multipliers of the
    link. Against the same link with neither endpoint hazardous, exactly
    one hazardous endpoint adds exactly 500 and two add exactly 1000; so
    does marking, with [add_hazard_zone], endpoints that are not exit
    points. *)
Theorem emergency_weight_hazard_penalties
    pf from_node to_node time_of_day node connection :
  path_key from_node to_node ∉ blocked_paths pf →
  dict_get from_node (nodes (graph pf)) = Some node →
  dict_get to_node (connections node) = Some connection →
  let w := _get_effective_weight pf from_node to_node time_of_day true in
  w = Ok (Int (distance connection
               + (if decide (from_node ∈ hazard_zones pf) then 500 else 0)
               + (if decide (to_node ∈ hazard_zones pf) then 500 else 0)))
  ∧ (∀ t, _get_effective_weight pf from_node to_node t true = w)
  ∧ (∀ pf1 node1 connection1 t,
       blocked_paths pf1 = blocked_paths pf →
       hazard_zones pf1 = hazard_zones pf →
       dict_get from_node (nodes (graph pf1)) = Some node1 →
       dict_get to_node (connections node1) = Some connection1 →
       distance connection1 = distance connection →
       _get_effective_weight pf1 from_node to_node t true = w)
  ∧ (∀ pf0 w0,
       graph pf0 = graph pf → blocked_paths pf0 = blocked_paths pf →
       from_node ∉ hazard_zones pf0 → to_node ∉ hazard_zones pf0 →
       _get_effective_weight pf0 from_node to_node time_of_day true
       = Ok (Int w0) →
       w0 = distance connection
       ∧ ((from_node ∈ hazard_zones pf ∧ to_node ∉ hazard_zones pf)
          ∨ ((from_node ∉ hazard_zones pf) ∧ to_node ∈ hazard_zones pf) →
          w = Ok (Int (w0 + 500)))
       ∧ (from_node ∈ hazard_zones pf → to_node ∈ hazard_zones pf →
          w = Ok (Int (w0 + 1000))))
  ∧ (from_node ∉ hazard_zones pf → to_node ∉ hazard_zones pf →
     from_node ≠ to_node →
     let marked pf' := _get_effective_weight pf' from_node to_node
                         time_of_day true in
     (from_node ∉ exit_points (graph pf) →
      marked (add_hazard_zone pf from_node)
      = Ok (Int (distance connection + 500)))
     ∧ (to_node ∉ exit_points (graph pf) →
        marked (add_hazard_zone pf to_node)
        = Ok (Int (distance connection + 500)))
     ∧ (from_node ∉ exit_points (graph pf) →
        to_node ∉ exit_points (graph pf) →
        marked (add_hazard_zone (add_hazard_zone pf from_node) to_node)
        = Ok (Int (distance connection + 1000)))).
Proof.
  intros Hb Hn Hc w.
  assert (Hw : ∀ t, _get_effective_weight pf from_node to_node t true
                    = Ok (Int (distance connection
                               + (if decide (from_node ∈ hazard_zones pf)
                                  then 500 else 0)
                               + (if decide (to_node ∈ hazard_zones pf)
                                  then 500 else 0)))).
  { intros t. by apply (emergency_weight_link pf _ _ t node). }
  unfold w. split; [apply Hw|]. split; [intros t; by rewrite !Hw|].
  split.
  { intros pf1 node1 c1 t Hb1 Hh1 Hn1 Hc1 Hd1.
    rewrite (emergency_weight_link pf1 _ _ t node1 c1);
      [|by rewrite Hb1|done|done].
    by rewrite Hw, Hh1, Hd1. }
  split.
  { intros pf0 w0 Hg0 Hb0 H1 H2.
    rewrite (emergency_weight_link pf0 _ _ _ node connection);
      [|by rewrite Hb0|by rewrite Hg0|done].
    rewrite !decide_False by done. intros [= <-]. rewrite Hw.
    split; [lia|]. split.
    - intros [[H3 H4]|[H3 H4]].
      + rewrite decide_True, decide_False by done. do 2 f_equal; lia.
      + rewrite decide_False, decide_True by done. do 2 f_equal; lia.
    - intros H3 H4. rewrite !decide_True by done. do 2 f_equal; lia. }
  intros H1 H2 Hne.
  assert (Hadd : ∀ pf' id, id ∉ exit_points (graph pf') →
            graph (add_hazard_zone pf' id) = graph pf'
            ∧ blocked_paths (add_hazard_zone pf' id) = blocked_paths pf'
            ∧ hazard_zones (add_hazard_zone pf' id)
              = hazard_zones pf' ∪ {[ id ]}).
  { intros pf' id Hid. unfold add_hazard_zone. by rewrite decide_False. }
  split; [|split].
  - intros He. destruct (Hadd pf from_node He) as (Hg' & Hb' & Hh').
    rewrite (emergency_weight_link _ _ _ _ node connection);
      [|by rewrite Hb'|by rewrite Hg'|done].
    rewrite Hh'. rewrite decide_True, decide_False.
    + do 2 f_equal; lia.
    + intros [?|?%elem_of_singleton]%elem_of_union; congruence.
    + by apply elem_of_union_r, elem_of_singleton.
  - intros He. destruct (Hadd pf to_node He) as (Hg' & Hb' & Hh').
    rewrite (emergency_weight_link _ _ _ _ node connection);
      [|by rewrite Hb'|by rewrite Hg'|done].
    rewrite Hh'. rewrite decide_False, decide_True.
    + do 2 f_equal; lia.
    + by apply elem_of_union_r, elem_of_singleton.
    + intros [?|?%elem_of_singleton]%elem_of_union; congruence.
  - intros He1 He2.
    destruct (Hadd pf from_node He1) as (Hg1 & Hb1 & Hh1).
    destruct (Hadd (add_hazard_zone pf from_node) to_node) as (Hg2 & Hb2 & Hh2);
      [by rewrite Hg1|].
    rewrite (emergency_weight_link _ _ _ _ node connection);
      [|by rewrite Hb2, Hb1|by rewrite Hg2, Hg1|done].
    rewrite Hh2, Hh1. rewrite !decide_True.
    + do 2 f_equal; lia.
    + by apply elem_of_union_r, elem_of_singleton.
    + by apply elem_of_union_l, elem_of_union_r, elem_of_singleton.
Qed.

Lemma emergency_weight_hazard_penalties_witness :
  let pf := add_hazard_zone (new_PathFinder campus) "Library" in
  _get_effective_weight (new_PathFinder campus) "Library" "Computer Lab"
    EVENING true = Ok (Int 120)
  ∧ _get_effective_weight pf "Library" "Computer Lab" EVENING true
    = Ok (Int (120 + 500)).
Proof.
  intros pf.
  destruct (emergency_weight_hazard_penalties pf "Library" "Computer Lab"
              EVENING
              {| x := 250; y := 250;
                 connections := [ ("Main Gate", Conn 150 15 10 12);
                                  ("Computer Lab", Conn 120 16 14 10) ];
                 node_type := ACADEMIC; icon := "📚" |}
              (Conn 120 16 14 10))
    as (_ & _ & _ & Hadd & _).
  - vm_compute. discriminate.
  - reflexivity.
  - reflexivity.
  - assert (H0 : _get_effective_weight (new_PathFinder campus)
                   "Library" "Computer Lab" EVENING true = Ok (Int 120))
      by (vm_compute; reflexivity).
    split; [exact H0|].
    destruct (Hadd (new_PathFinder campus) 120) as (_ & Hone & _).
    + reflexivity.
    + reflexivity.
    + vm_compute. discriminate.
    + vm_compute. discriminate.
    + exact H0.
    + apply Hone. left. split; vm_compute; [reflexivity|discriminate].
Defined.

(** C4: when the pair of two locations is blocked, the weight between them
    is infinite in both directions and in every mode, whether or not the
    graph links them; the pair is blocked whichever location is named
    first. *)
Theorem blocked_pair_weight_infinite pf a b time_of_day emergency_mode :
  path_key a b ∈ blocked_paths pf →
  path_key b a ∈ blocked_paths pf
  ∧ _get_effective_weight pf a b time_of_day emergency_mode = Ok PosInf
  ∧ _get_effective_weight pf b a time_of_day emergency_mode = Ok PosInf.
Proof.
  intros H. unfold _get_effective_weight.
  rewrite <- (path_key_sym a b). by rewrite !decide_True.
Qed.

Lemma blocked_pair_weight_infinite_witness :
  path_key "Library" "Hostel" ∈ blocked_paths
    (block_path (new_PathFinder campus) "Hostel" "Library")
  ∧ _get_effective_weight
      (block_path (new_PathFinder campus) "Hostel" "Library")
      "Library" "Hostel" MORNING false = Ok PosInf
  ∧ _get_effective_weight
      (block_path (new_PathFinder campus) "Hostel" "Library")
      "Hostel" "Library" MORNING false = Ok PosInf.
Proof.
  assert (H : path_key "Library" "Hostel" ∈ blocked_paths
                (block_path (new_PathFinder campus) "Hostel" "Library"))
    by (vm_compute; reflexivity).
  split; [exact H|].
  exact (proj2 (blocked_pair_weight_infinite
                  (block_path (new_PathFinder campus) "Hostel" "Library")
                  "Library" "Hostel" MORNING false H)).
Defined.

(** ** The constraint store *)

Lemma serve_graph pf c : graph (serve pf c).1 = graph pf.
Proof. destruct c; simpl; try done. unfold add_hazard_zone. by case_decide. Qed.

Lemma serve_exits_safe pf c : exits_safe pf → exits_safe (serve pf c).1.
Proof.
  unfold exits_safe. intros H.
  destruct c; simpl; try done.
  - unfold add_hazard_zone. case_decide as E; [done|]. simpl.
    intros x [?| ->%elem_of_singleton]%elem_of_union; auto.
  - intros x [? _]%elem_of_difference. auto.
Qed.

Lemma PathFinder_eq pf pf' :
  graph pf = graph pf' → blocked_paths pf = blocked_paths pf' →
  hazard_zones pf = hazard_zones pf' → pf = pf'.
Proof. destruct pf, pf'; simpl. by intros -> -> ->. Qed.

(** C5: marking an exit point changes nothing, and no sequence of calls
    makes an exit point a hazard zone: the hazard zones stay apart from the
    exit points from a fresh path finder on, and from any state in which
    they are. *)
Theorem hazards_never_include_exits :
  (∀ pf id, id ∈ exit_points (graph pf) → add_hazard_zone pf id = pf)
  ∧ (∀ g cs, exits_safe (serve_all (new_PathFinder g) cs))
  ∧ (∀ pf cs, exits_safe pf → exits_safe (serve_all pf cs)).
Proof.
  assert (H : ∀ cs pf, exits_safe pf → exits_safe (serve_all pf cs)).
  { induction cs as [|c cs IH]; intros pf Hpf; [done|].
    apply IH. by apply serve_exits_safe. }
  split; [|split].
  - intros pf id Hid. unfold add_hazard_zone. by rewrite decide_True.
  - intros g cs. apply H. intros id []%not_elem_of_empty.
  - intros pf cs. apply H.
Qed.

Lemma hazards_never_include_exits_witness :
  add_hazard_zone (new_PathFinder campus) "Main Gate" = new_PathFinder campus
  ∧ exits_safe (serve_all (new_PathFinder campus)
                  [markHazard "Main Gate"; markHazard "Library"; resetAll;
                   markHazard "Sports Complex"]).
Proof.
  split.
  - apply (proj1 hazards_never_include_exits (new_PathFinder campus)).
    by apply listed.
  - apply (proj2 (proj2 hazards_never_include_exits) (new_PathFinder campus)).
    intros id. simpl. intros H.
    by apply not_elem_of_empty in H.
Defined.

(** C9, counterexample: the link between library and computer lab is
    closed already; blocking and unblocking it opens it, and the morning
    route from the main gate to the computer lab changes from 570 to 417. *)
Lemma unblock_after_block_opens_closed_link :
  let pf' := unblock_path (block_path lab_link_closed "Library" "Computer Lab")
               "Library" "Computer Lab" in
  (∃ r, dijkstra lab_link_closed "Main Gate" "Computer Lab"
          MORNING false true = Ok r
        ∧ path r = ["Main Gate"; "Admin Block"; "Computer Lab"]
        ∧ path_distance r = Int 570)
  ∧ (∃ r, dijkstra pf' "Main Gate" "Computer Lab" MORNING false true = Ok r
          ∧ path r = ["Main Gate"; "Library"; "Computer Lab"]
          ∧ path_distance r = Int 417)
  ∧ pf' ≠ lab_link_closed.
Proof.
  intros pf'. split; [|split].
  - apply route_of_Ok. vm_compute. reflexivity.
  - apply route_of_Ok. vm_compute. reflexivity.
  - intros E.
    assert (H : path_key "Library" "Computer Lab" ∈ blocked_paths pf').
    { rewrite E. vm_compute. reflexivity. }
    vm_compute in H. discriminate.
Qed.

(** C9: blocking a pair twice is blocking it once; unblocking after
    blocking leaves the pair unblocked, which is the state before, and the
    answers of before, when the pair was not blocked already. *)
Theorem unblock_after_block_restores :
  (∀ pf a b, block_path (block_path pf a b) a b = block_path pf a b)
  ∧ (∀ pf a b,
       blocked_paths (unblock_path (block_path pf a b) a b)
       = blocked_paths pf ∖ {[ path_key a b ]})
  ∧ (∀ pf a b, path_key a b ∉ blocked_paths pf →
       let pf' := unblock_path (block_path pf a b) a b in
       pf' = pf
       ∧ (∀ s e t em tr, dijkstra pf' s e t em tr = dijkstra pf s e t em tr)
       ∧ (∀ s t, find_nearest_exit pf' s t = find_nearest_exit pf s t)).
Proof.
  split; [|split].
  - intros pf a b. apply PathFinder_eq; simpl; [done| |done].
    by rewrite <- (assoc_L (∪)), (idemp_L (∪)).
  - intros pf a b. simpl. apply difference_union_cancel.
  - intros pf a b H pf'.
    assert (E : pf' = pf).
    { apply PathFinder_eq; simpl; [done| |done].
      rewrite difference_union_cancel. by apply not_in_difference. }
    by rewrite E.
Qed.

Lemma unblock_after_block_restores_witness :
  (path_key "Cafeteria" "Auditorium" ∉ blocked_paths lab_link_closed)
  ∧ unblock_path (block_path lab_link_closed "Cafeteria" "Auditorium")
      "Cafeteria" "Auditorium" = lab_link_closed.
Proof.
  assert (H : path_key "Cafeteria" "Auditorium" ∉ blocked_paths lab_link_closed)
    by (vm_compute; discriminate).
  split; [exact H|].
  exact (proj1 (proj2 (proj2 unblock_after_block_restores)
                  lab_link_closed "Cafeteria" "Auditorium" H)).
Defined.

(** ** The queries as methods *)

(** Each method of the search reads the object and leaves it as it was,
    whether it returns or raises; what it returns is what the function of
    the same name gives on the state of the object. *)
Lemma weight_method self u v t em :
  Method._get_effective_weight u v t em self
  = (_get_effective_weight self u v t em, self).
Proof.
  unfold Method._get_effective_weight, _get_effective_weight, hazard_penalty.
  unfold Method.mbind, Method.read, Method.ret, Method.lift.
  case_decide; [done|].
  destruct (dict_get u _) as [node|]; [|done].
  destruct (dict_get v _) as [cn|]; [|done].
  destruct em; [done|].
  by destruct (traffic_weight cn t).
Qed.

Lemma relax_neighbor_method self t em tr cur st nb :
  Method.relax_neighbor t em tr cur st nb self
  = (relax_neighbor self t em tr cur st nb, self).
Proof.
  unfold Method.relax_neighbor, relax_neighbor.
  case_decide; [done|].
  unfold Method.mbind at 1. rewrite weight_method.
  destruct (_get_effective_weight self cur nb t em) as [w| |]; [|done..].
  cbn [bind]. destruct (num_eqb w PosInf); [done|].
  unfold Method.mbind, Method.lift, Method.ret.
  destruct (distances st !! cur) as [dc|]; [|done].
  destruct (distances st !! nb) as [dn|]; [|done].
  cbn [bind getitem]. by destruct (num_ltb _ _).
Qed.

Lemma explore_method self t em tr cur nbs : ∀ st,
  Method.explore t em tr cur nbs st self
  = (explore self t em tr cur nbs st, self).
Proof.
  induction nbs as [|nb nbs IH]; intros st; [done|].
  cbn [Method.explore explore]. unfold Method.mbind.
  rewrite relax_neighbor_method.
  destruct (relax_neighbor self t em tr cur st nb) as [st'| |]; [|done..].
  cbn [bind]. apply IH.
Qed.

Lemma search_loop_method self finish t em tr fuel : ∀ st,
  Method.search_loop finish t em tr fuel st self
  = (search_loop self finish t em tr fuel st, self).
Proof.
  induction fuel as [|fuel IH]; intros st.
  - simpl. by destruct (heappop (pq st)) as [[[k cur] q']|].
  - simpl. destruct (heappop (pq st)) as [[[k cur] q']|]; [|done].
    case_decide; [apply IH|].
    case_decide; [done|].
    unfold Method.mbind at 1. unfold Method.read at 1.
    unfold Method.mbind at 1. unfold Method.lift at 1.
    destruct (dict_get cur (nodes (graph self))) as [node|]; [|done].
    cbn [bind getitem]. unfold Method.mbind. rewrite explore_method.
    destruct (explore self t em tr cur _ _) as [st2| |]; [|done..].
    cbn [bind]. apply IH.
Qed.

Lemma dijkstra_method self start finish t em tr :
  Method.dijkstra start finish t em tr self
  = (dijkstra self start finish t em tr, self).
Proof.
  unfold Method.dijkstra, dijkstra.
  unfold Method.mbind at 1. unfold Method.read at 1.
  unfold Method.mbind at 1. rewrite search_loop_method.
  destruct (search_loop self finish t em tr _ _) as [st| |]; [|done..].
  cbn [bind]. unfold Method.mbind, Method.lift, Method.ret.
  destruct (reconstruct _ _ _ _) as [p| |]; [|done..].
  cbn [bind]. by destruct (getitem (distances st !! finish)).
Qed.

Lemma nearest_loop_method self start t exits : ∀ m ne,
  Method.nearest_loop start t exits m ne self
  = (nearest_loop self start t exits m ne, self).
Proof.
  induction exits as [|e exits IH]; intros m ne; [done|].
  cbn [Method.nearest_loop nearest_loop]. unfold Method.mbind.
  rewrite dijkstra_method.
  destruct (dijkstra self start e t true false) as [r| |]; [|done..].
  cbn [bind]. destruct (num_ltb _ _); apply IH.
Qed.

Lemma find_nearest_exit_method self start t :
  Method.find_nearest_exit start t self
  = (find_nearest_exit self start t, self).
Proof.
  unfold Method.find_nearest_exit, find_nearest_exit.
  unfold Method.mbind, Method.read. apply nearest_loop_method.
Qed.

(** The calls that change the constraints do change the object, as the
    functions of the same names say. *)
Lemma serve_method c self :
  Method.serve c self = ((serve self c).2, (serve self c).1).
Proof.
  destruct c; simpl; try done.
  - unfold Method.add_hazard_zone, add_hazard_zone, Method.mbind, Method.read.
    by case_decide.
  - by rewrite dijkstra_method.
  - by rewrite find_nearest_exit_method.
Qed.

Lemma serve_all_method cs : ∀ self,
  Method.serve_all cs self = serve_all self cs.
Proof.
  induction cs as [|c cs IH]; intros self; [done|].
  cbn [Method.serve_all serve_all fold_left].
  rewrite serve_method. apply IH.
Qed.

(** C10: a query, run as a method on the path finder, leaves the object
    as it was, the graph with its nodes and exit points, the blocked
    pairs and the hazard zones, whether it returns or raises; asked again
    it gives the same answer. What [dijkstra] and [find_nearest_exit]
    return is a function of the state of the object and of the
    arguments. Any sequence of queries leaves the object as it was, and
    the queries among other calls leave no trace in the state the calls
    end in; blocking a pair that is not blocked, for one, does change the
    object. *)
Theorem queries_leave_store_unchanged :
  ∀ self c, is_query c = true →
    (Method.serve c self).2 = self
    ∧ nodes (graph (Method.serve c self).2) = nodes (graph self)
    ∧ exit_points (graph (Method.serve c self).2) = exit_points (graph self)
    ∧ blocked_paths (Method.serve c self).2 = blocked_paths self
    ∧ hazard_zones (Method.serve c self).2 = hazard_zones self
    ∧ Method.serve c (Method.serve c self).2 = Method.serve c self
    ∧ (∀ start finish t em tr,
         Method.dijkstra start finish t em tr self
         = (dijkstra self start finish t em tr, self))
    ∧ (∀ start t,
         Method.find_nearest_exit start t self
         = (find_nearest_exit self start t, self))
    ∧ (∀ cs, forallb is_query cs = true → Method.serve_all cs self = self)
    ∧ (∀ cs, Method.serve_all cs self
             = Method.serve_all
                 (List.filter (fun c => negb (is_query c)) cs) self)
    ∧ (∀ a b, path_key a b ∉ blocked_paths self →
         (Method.serve (blockPair a b) self).2 ≠ self).
Proof.
  intros self c Hc.
  assert (H : ∀ self' c', is_query c' = true →
                (Method.serve c' self').2 = self').
  { intros self' c' Hq. destruct c'; try done; simpl.
    - by rewrite dijkstra_method.
    - by rewrite find_nearest_exit_method. }
  rewrite (H self c Hc). repeat (split; [done|]).
  split; [intros; apply dijkstra_method|].
  split; [intros; apply find_nearest_exit_method|]. split; [|split].
  - induction cs as [|c' cs IH]; [done|].
    cbn [forallb Method.serve_all fold_left].
    intros [Hc' Hcs]%andb_true_iff. rewrite (H self c' Hc'). by apply IH.
  - intros cs. generalize self. clear.
    induction cs as [|c' cs IH]; intros self; [done|].
    cbn [List.filter Method.serve_all fold_left].
    destruct (is_query c') eqn:Hq; cbn [negb].
    + replace (Method.serve c' self).2 with self; [apply IH|].
      destruct c'; try done; simpl.
      * by rewrite dijkstra_method.
      * by rewrite find_nearest_exit_method.
    + cbn [Method.serve_all fold_left]. apply IH.
  - intros a b Hk Heq. apply Hk.
    apply (f_equal blocked_paths) in Heq. simpl in Heq.
    rewrite <- Heq. by apply elem_of_union_r, elem_of_singleton.
Qed.

Lemma queries_leave_store_unchanged_witness :
  (Method.serve (nearestExit "Hostel" EVENING) lab_link_closed).2
  = lab_link_closed.
Proof.
  exact (proj1 (queries_leave_store_unchanged lab_link_closed
                  (nearestExit "Hostel" EVENING) eq_refl)).
Defined.

(** ** The shortest-path engine *)

(** C1, counterexample: with the main gate closed off the hostel is out of
    reach; the distance is infinite, but the path returned is the hostel
    alone, which is no route from the main gate and costs 0. *)
Lemma unreachable_path_not_a_route :
  ∃ r, dijkstra gate_closed "Main Gate" "Hostel" MORNING false true = Ok r
       ∧ path_distance r = PosInf
       ∧ path r = ["Hostel"]
       ∧ ¬ route "Main Gate" "Hostel" (path r)
       ∧ path_cost gate_closed MORNING false (path r) ≠ path_distance r.
Proof.
  destruct (route_of_Ok
              (dijkstra gate_closed "Main Gate" "Hostel" MORNING false true)
              ["Hostel"] PosInf) as (r & Hr & Hp & Hd);
    [vm_compute; reflexivity|].
  exists r. rewrite Hp, Hd. split; [done|]. split; [done|]. split; [done|].
  split; [|done]. by intros [[=] _].
Qed.

(** C1, amended: on a well-formed graph, between known locations, in every
    mode and constraint state, [dijkstra] returns the least cost of a route
    from start to end; some route has that cost, and when it is finite the
    returned path is such a route. On the campus graph, without
    constraints, the morning route from the main gate to the computer lab
    is through the library, 417 long. *)
Theorem dijkstra_shortest_route :
  (∀ pf start finish time_of_day emergency_mode track_steps,
     wf_graph (graph pf) →
     start ∈ map fst (nodes (graph pf)) →
     finish ∈ map fst (nodes (graph pf)) →
     ∃ r, dijkstra pf start finish time_of_day emergency_mode track_steps
          = Ok r
       ∧ (∀ p, route start finish p →
               num_le (path_distance r)
                      (path_cost pf time_of_day emergency_mode p))
       ∧ (∃ p, route start finish p
               ∧ path_cost pf time_of_day emergency_mode p = path_distance r)
       ∧ (path_distance r ≠ PosInf →
          route start finish (path r)
          ∧ path_cost pf time_of_day emergency_mode (path r)
            = path_distance r))
  ∧ (∃ r, dijkstra (new_PathFinder campus) "Main Gate" "Computer Lab"
            MORNING false true = Ok r
          ∧ path r = ["Main Gate"; "Library"; "Computer Lab"]
          ∧ path_distance r = Int 417).
Proof.
  split.
  - intros pf start finish t em tr Hwf Hs Hf.
    destruct (dijkstra_spec pf start finish t em tr Hwf Hs Hf)
      as (r & Hr & Hlow & Hfin & Hinf).
    exists r. split; [done|]. split; [done|]. split.
    + destruct (path_distance r) as [d|] eqn:Hd.
      * exists (path r). by destruct (Hfin d eq_refl) as (? & ? & _).
      * exists [start; finish].
        assert (Hroute : route start finish [start; finish]) by done.
        split; [done|]. specialize (Hlow _ Hroute).
        by destruct (path_cost pf t em [start; finish]).
    + intros Hne. destruct (path_distance r) as [d|] eqn:Hd; [|done].
      by destruct (Hfin d eq_refl) as (? & ? & _).
  - apply route_of_Ok. vm_compute. reflexivity.
Qed.

Lemma dijkstra_shortest_route_witness :
  wf_graph (graph lab_link_closed)
  ∧ "Main Gate" ∈ map fst (nodes (graph lab_link_closed))
  ∧ "Hostel" ∈ map fst (nodes (graph lab_link_closed))
  ∧ ∃ r, dijkstra lab_link_closed "Main Gate" "Hostel" AFTERNOON false true
         = Ok r
       ∧ (∀ p, route "Main Gate" "Hostel" p →
               num_le (path_distance r)
                      (path_cost lab_link_closed AFTERNOON false p))
       ∧ (∃ p, route "Main Gate" "Hostel" p
               ∧ path_cost lab_link_closed AFTERNOON false p
                 = path_distance r)
       ∧ (path_distance r ≠ PosInf →
          route "Main Gate" "Hostel" (path r)
          ∧ path_cost lab_link_closed AFTERNOON false (path r)
            = path_distance r).
Proof.
  split; [apply campus_wf|].
  split; [by apply listed|].
  split; [by apply listed|].
  apply (proj1 dijkstra_shortest_route
           lab_link_closed "Main Gate" "Hostel" AFTERNOON false true).
  - apply campus_wf.
  - by apply listed.
  - by apply listed.
Defined.

(** C7: on a well-formed graph, between known locations, [dijkstra] raises
    nothing and ends, as the weight function does; when the end is never
    finalized the distance is infinite and the path is the end alone; and
    that is the case exactly when no route from start to end has a finite
    cost. *)
Theorem dijkstra_unreachable_is_data
    pf start finish time_of_day emergency_mode track_steps :
  wf_graph (graph pf) →
  start ∈ map fst (nodes (graph pf)) →
  finish ∈ map fst (nodes (graph pf)) →
  ∃ r, dijkstra pf start finish time_of_day emergency_mode track_steps = Ok r
    ∧ (finish ∉ visited_nodes r →
       path_distance r = PosInf ∧ path r = [finish])
    ∧ (finish ∉ visited_nodes r ↔
       ∀ p, route start finish p →
            path_cost pf time_of_day emergency_mode p = PosInf)
    ∧ (∀ u v, ∃ w,
         _get_effective_weight pf u v time_of_day emergency_mode = Ok w).
Proof.
  intros Hwf Hs Hf.
  destruct (dijkstra_spec pf start finish time_of_day emergency_mode
              track_steps Hwf Hs Hf) as (r & Hr & Hlow & Hfin & Hinf).
  exists r. split; [done|].
  assert (Hnv : finish ∉ visited_nodes r → path_distance r = PosInf).
  { intros Hv. destruct (path_distance r) as [d|] eqn:Hd; [|done].
    by destruct (Hfin d eq_refl) as (_ & _ & ?). }
  split; [|split; [split|]].
  - intros Hv. split; [auto|]. by apply Hinf, Hnv.
  - intros Hv p Hp. specialize (Hlow p Hp). rewrite (Hnv Hv) in Hlow.
    by destruct (path_cost pf time_of_day emergency_mode p).
  - intros Hall. destruct (path_distance r) as [d|] eqn:Hd.
    + destruct (Hfin d eq_refl) as (Hp & Hc & _).
      rewrite (Hall _ Hp) in Hc. done.
    + by apply Hinf.
  - intros u v. eexists. by apply weight_defined.
Qed.

Lemma dijkstra_unreachable_is_data_witness :
  wf_graph (graph gate_closed)
  ∧ "Main Gate" ∈ map fst (nodes (graph gate_closed))
  ∧ "Hostel" ∈ map fst (nodes (graph gate_closed))
  ∧ ∃ r, dijkstra gate_closed "Main Gate" "Hostel" MORNING true false = Ok r
    ∧ ("Hostel" ∉ visited_nodes r →
       path_distance r = PosInf ∧ path r = ["Hostel"])
    ∧ ("Hostel" ∉ visited_nodes r ↔
       ∀ p, route "Main Gate" "Hostel" p →
            path_cost gate_closed MORNING true p = PosInf)
    ∧ (∀ u v, ∃ w, _get_effective_weight gate_closed u v MORNING true = Ok w).
Proof.
  split; [apply campus_wf|].
  split; [by apply listed|].
  split; [by apply listed|].
  apply (dijkstra_unreachable_is_data
           gate_closed "Main Gate" "Hostel" MORNING true false).
  - apply campus_wf.
  - by apply listed.
  - by apply listed.
Defined.

(** C8, counterexample: from the main gate to the main gate the path is not
    empty. *)
Lemma dijkstra_same_node_path_not_empty :
  ∃ r, dijkstra (new_PathFinder campus) "Main Gate" "Main Gate"
         MORNING false true = Ok r
       ∧ path r = ["Main Gate"] ∧ path r ≠ [].
Proof.
  destruct (route_of_Ok
              (dijkstra (new_PathFinder campus) "Main Gate" "Main Gate"
                 MORNING false true)
              ["Main Gate"] (Int 0)) as (r & Hr & Hp & Hd);
    [vm_compute; reflexivity|].
  exists r. by rewrite Hp.
Qed.

(** C8, amended: from a known location to itself, in every mode,
    [dijkstra] returns the path of that one location and the distance 0. *)
Theorem dijkstra_same_node_singleton
    pf s time_of_day emergency_mode track_steps :
  s ∈ map fst (nodes (graph pf)) →
  ∃ r, dijkstra pf s s time_of_day emergency_mode track_steps = Ok r
       ∧ path r = [s] ∧ path_distance r = Int 0.
Proof.
  intros Hs.
  destruct (dijkstra_self pf s time_of_day emergency_mode track_steps Hs)
    as (r & ? & ? & ? & _).
  eauto.
Qed.

Lemma dijkstra_same_node_singleton_witness :
  "Cafeteria" ∈ map fst (nodes (graph (new_PathFinder campus)))
  ∧ ∃ r, dijkstra (new_PathFinder campus) "Cafeteria" "Cafeteria"
           EVENING true true = Ok r
         ∧ path r = ["Cafeteria"] ∧ path_distance r = Int 0.
Proof.
  split; [by apply listed|].
  apply (dijkstra_same_node_singleton
           (new_PathFinder campus) "Cafeteria" EVENING true true).
  by apply listed.
Defined.

(** ** The exit finder *)

Lemma num_ltb_trans a b c :
  num_ltb a b = true → num_ltb b c = true → num_ltb a c = true.
Proof.
  destruct a, b, c; simpl; rewrite ?Z.ltb_lt; try done; lia.
Qed.

Lemma num_ltb_le_trans a b c :
  num_ltb a b = true → num_le b c → num_ltb a c = true.
Proof.
  unfold num_le. destruct a, b, c; simpl; rewrite ?Z.ltb_lt, ?Z.ltb_ge;
    try done; lia.
Qed.

(** The loop keeps what it had unless an exit is strictly nearer; the exit
    it ends with is the first of the nearest. *)
Lemma nearest_loop_spec pf start time_of_day l : ∀ m ne,
  (∀ e, e ∈ l → ∃ r, dijkstra pf start e time_of_day true false = Ok r) →
  ∃ res, nearest_loop pf start time_of_day l m ne = Ok res ∧
    ((res = (ne, m)
      ∧ ∀ e, e ∈ l → num_le m (exit_distance pf start time_of_day e))
     ∨ ∃ l1 x l2, l = l1 ++ x :: l2
         ∧ res = (Some x, exit_distance pf start time_of_day x)
         ∧ num_ltb (exit_distance pf start time_of_day x) m = true
         ∧ (∀ y, y ∈ l1 →
              num_ltb (exit_distance pf start time_of_day x)
                      (exit_distance pf start time_of_day y) = true)
         ∧ (∀ y, y ∈ l2 →
              num_le (exit_distance pf start time_of_day x)
                     (exit_distance pf start time_of_day y))).
Proof.
  induction l as [|e l IH]; intros m ne Hok.
  - exists (ne, m). split; [done|]. left. split; [done|].
    by intros e ?%elem_of_nil.
  - destruct (Hok e) as [r Hr]; [left|].
    assert (He : exit_distance pf start time_of_day e = path_distance r).
    { unfold exit_distance. by rewrite Hr. }
    simpl. rewrite Hr. cbn [bind]. rewrite <- He.
    set (D := exit_distance pf start time_of_day) in *.
    destruct (num_ltb (D e) m) eqn:Hlt.
    + destruct (IH (D e) (Some e)) as (res & -> & Hres).
      { intros y Hy. apply Hok. by right. }
      exists res. split; [done|]. right.
      destruct Hres as [[-> Hall]|(l1 & x & l2 & -> & -> & Hx & H1 & H2)].
      * exists [], e, l. repeat (split; [done|]).
        split; [by intros y ?%elem_of_nil|done].
      * exists (e :: l1), x, l2. split; [done|]. split; [done|].
        split; [by eapply num_ltb_trans|]. split; [|done].
        intros y [->|Hy]%elem_of_cons; auto.
    + destruct (IH m ne) as (res & -> & Hres).
      { intros y Hy. apply Hok. by right. }
      exists res. split; [done|].
      destruct Hres as [[-> Hall]|(l1 & x & l2 & -> & -> & Hx & H1 & H2)].
      * left. split; [done|]. intros y [->|Hy]%elem_of_cons; auto.
      * right. exists (e :: l1), x, l2. split; [done|]. split; [done|].
        split; [done|]. split; [|done].
        intros y [->|Hy]%elem_of_cons; [|auto].
        by eapply num_ltb_le_trans.
Qed.

Lemma emergency_cost_positive pf t u v c :
  positive_links (graph pf) → edge_cost pf t true u v = Int c → 0 < c.
Proof.
  intros Hpos. unfold edge_cost, _get_effective_weight.
  case_decide; [done|].
  destruct (dict_get u _) as [node|] eqn:Hu; [|done].
  destruct (dict_get v _) as [cn|] eqn:Hv; [|done].
  intros [= <-].
  apply dict_get_elem_of in Hu, Hv.
  unfold positive_links in Hpos. rewrite Forall_forall in Hpos.
  specialize (Hpos _ Hu). rewrite Forall_forall in Hpos.
  specialize (Hpos _ Hv). simpl in Hpos.
  pose proof (hazard_penalty_nonneg pf u v). lia.
Qed.

Lemma exit_distance_spec pf start t e :
  wf_graph (graph pf) →
  start ∈ map fst (nodes (graph pf)) → e ∈ map fst (nodes (graph pf)) →
  ∃ r, dijkstra pf start e t true false = Ok r
       ∧ exit_distance pf start t e = path_distance r
       ∧ (∀ d, path_distance r = Int d → 0 ≤ d)
       ∧ (positive_links (graph pf) → e ≠ start → path_distance r ≠ Int 0).
Proof.
  intros Hwf Hs He.
  destruct (dijkstra_spec pf start e t true false Hwf Hs He)
    as (r & Hr & Hlow & Hfin & Hinf).
  exists r. split; [done|]. unfold exit_distance. rewrite Hr.
  split; [done|]. split.
  - intros d Hd. destruct (Hfin d Hd) as (_ & Hc & _).
    by eapply path_cost_nonneg.
  - intros Hpos Hne Hd. destruct (Hfin 0 Hd) as ([Hh Hl] & Hc & _).
    destruct (path r) as [|a [|b p]]; [done| |].
    + simpl in Hh, Hl. congruence.
    + rewrite path_cost_cons in Hc.
      destruct (edge_cost pf t true a b) as [w|] eqn:Hw; [|done].
      destruct (path_cost pf t true (b :: p)) as [c|] eqn:Hc'; [|done].
      apply emergency_cost_positive in Hw; [|done].
      apply (path_cost_nonneg _ _ _ Hwf) in Hc'.
      injection Hc as Hc. lia.
Qed.

(** C6, counterexample: from exit B, with exit A declared first and a link
    of length 0 between them, the exit returned is A, not B. *)
Lemma nearest_exit_zero_link_tie :
  wf_graph zero_link_graph
  ∧ "B" ∈ exit_points zero_link_graph
  ∧ find_nearest_exit (new_PathFinder zero_link_graph) "B" MORNING
    = Ok (Some "A", Int 0)
  ∧ find_nearest_exit (new_PathFinder zero_link_graph) "B" MORNING
    ≠ Ok (Some "B", Int 0).
Proof.
  split; [apply wf_graphb_sound; vm_compute; reflexivity|].
  split; [by apply listed|].
  assert (H : find_nearest_exit (new_PathFinder zero_link_graph) "B" MORNING
              = Ok (Some "A", Int 0)) by (vm_compute; reflexivity).
  split; [exact H|]. rewrite H. discriminate.
Qed.

(** C6, amended: [find_nearest_exit] searches each exit point in the order
    of declaration, in emergency mode and without trace; it returns the
    least of the distances and the first exit at that distance, every exit
    declared before it being strictly farther; when no exit can be reached
    it returns no exit and the infinite distance. When the start is an exit
    point the distance is 0, and the exit returned is the start unless an
    exit declared before it is at distance 0 too: it is the start when the
    start is declared first, and when every link has a positive length. *)
Theorem nearest_exit_first_minimum pf start time_of_day :
  wf_graph (graph pf) →
  start ∈ map fst (nodes (graph pf)) →
  (∀ e, e ∈ exit_points (graph pf) → e ∈ map fst (nodes (graph pf))) →
  let exits := exit_points (graph pf) in
  let D := exit_distance pf start time_of_day in
  ∃ ne d, find_nearest_exit pf start time_of_day = Ok (ne, d)
    ∧ (∀ e, e ∈ exits →
         ∃ r, dijkstra pf start e time_of_day true false = Ok r
              ∧ D e = path_distance r)
    ∧ (∀ e, e ∈ exits → num_le d (D e))
    ∧ (ne = None ↔ d = PosInf)
    ∧ ((∀ e, e ∈ exits → D e = PosInf) → ne = None)
    ∧ (∀ x, ne = Some x →
         ∃ l1 l2, exits = l1 ++ x :: l2 ∧ D x = d
                  ∧ ∀ y, y ∈ l1 → num_ltb d (D y) = true)
    ∧ (start ∈ exits →
         d = Int 0
         ∧ ((∀ e, e ∈ exits → e ≠ start → D e ≠ Int 0) → ne = Some start)
         ∧ (head exits = Some start → ne = Some start)
         ∧ (positive_links (graph pf) → ne = Some start)).
Proof.
  intros Hwf Hs Hex exits D.
  assert (Hspec : ∀ e, e ∈ exits →
            ∃ r, dijkstra pf start e time_of_day true false = Ok r
                 ∧ D e = path_distance r
                 ∧ (∀ d, path_distance r = Int d → 0 ≤ d)
                 ∧ (positive_links (graph pf) → e ≠ start →
                    path_distance r ≠ Int 0)).
  { intros e He. apply exit_distance_spec; auto. }
  assert (Hrun : ∀ e, e ∈ exits →
            ∃ r, dijkstra pf start e time_of_day true false = Ok r
                 ∧ D e = path_distance r).
  { intros e He. destruct (Hspec e He) as (r & ? & ? & _). eauto. }
  assert (Hself : D start = Int 0).
  { unfold D, exit_distance.
    destruct (dijkstra_self pf start time_of_day true false Hs)
      as (r & -> & _ & -> & _). done. }
  destruct (nearest_loop_spec pf start time_of_day exits PosInf None)
    as (res & Hres & Hcases).
  { intros e He. destruct (Hspec e He) as (r & ? & _). eauto. }
  unfold find_nearest_exit. fold exits. rewrite Hres. fold D in Hcases.
  destruct Hcases as [[-> Hall]|(l1 & x & l2 & Hl & -> & Hx & H1 & H2)].
  - exists None, PosInf. split; [done|]. split; [done|]. split; [done|].
    split; [done|]. split; [done|]. split; [done|].
    intros Hin. specialize (Hall _ Hin). by rewrite Hself in Hall.
  - destruct (D x) as [dx|] eqn:Hdx; [|done].
    assert (Hlow : ∀ e, e ∈ exits → num_le (Int dx) (D e)).
    { intros e. rewrite Hl, elem_of_app, elem_of_cons.
      intros [He|[->|He]].
      - apply num_ltb_le. auto.
      - rewrite Hdx. apply num_le_refl.
      - auto. }
    assert (Hxin : x ∈ exits).
    { rewrite Hl, elem_of_app, elem_of_cons. auto. }
    exists (Some x), (Int dx). split; [done|]. split; [done|].
    split; [done|]. split; [done|]. split; [|split].
    + intros Hinf. rewrite (Hinf x Hxin) in Hdx. done.
    + intros x' [= <-]. exists l1, l2. split; [done|]. split; [done|].
      intros y Hy. auto.
    + intros Hin.
      assert (Hzero : dx = 0).
      { pose proof (Hlow _ Hin) as Hle. rewrite Hself in Hle.
        apply num_le_Int in Hle.
        destruct (Hspec x Hxin) as (r & _ & Hd & Hpos & _).
        rewrite Hdx in Hd. specialize (Hpos dx (eq_sym Hd)). lia. }
      subst dx. split; [done|].
      assert (Hne : (∀ e, e ∈ exits → e ≠ start → D e ≠ Int 0) →
                    Some x = Some start).
      { intros Hnz. destruct (decide (x = start)) as [->|Hxs]; [done|].
        by destruct (Hnz x Hxin Hxs). }
      split; [done|]. split.
      * rewrite Hl. destruct l1 as [|a l1]; [by intros [= ->]|].
        intros [= ->]. specialize (H1 start ltac:(left)).
        rewrite Hself in H1. done.
      * intros Hpos. apply Hne. intros e He Hes.
        destruct (Hspec e He) as (r & _ & -> & _ & Hp). auto.
Qed.

Lemma nearest_exit_first_minimum_witness :
  let pf := add_hazard_zone (new_PathFinder campus) "Library" in
  find_nearest_exit pf "Main Gate" MORNING = Ok (Some "Main Gate", Int 0).
Proof.
  intros pf.
  destruct (nearest_exit_first_minimum pf "Main Gate" MORNING)
    as (ne & d & Hres & _ & _ & _ & _ & _ & Hstart).
  - apply campus_wf.
  - by apply listed.
  - apply campus_exits_known.
  - destruct Hstart as (-> & _ & Hhead & _); [by apply listed|].
    rewrite Hres, Hhead; reflexivity.
Defined.

(** * Further properties *)

(** ** More on the constraint store *)

Lemma string_ltb_asym a b : String.ltb a b = true → String.ltb b a = false.
Proof.
  unfold String.ltb. rewrite (String.compare_antisym a b).
  by destruct (String.compare b a).
Qed.

Lemma path_key_sorted a b : String.ltb (path_key a b).2 (path_key a b).1 = false.
Proof.
  unfold path_key. destruct (String.ltb b a) eqn:E; simpl; [|done].
  by apply string_ltb_asym.
Qed.

Lemma path_key_cases a b :
  path_key a b = (a, b) ∨ path_key a b = (b, a).
Proof. unfold path_key. destruct (String.ltb b a); auto. Qed.

(** The pair two names are stored under determines the two names. *)
Lemma path_key_inj a b u v :
  path_key u v = path_key a b → (u = a ∧ v = b) ∨ (u = b ∧ v = a).
Proof.
  destruct (path_key_cases u v) as [-> | ->],
           (path_key_cases a b) as [-> | ->]; intros [= -> ->]; auto.
Qed.

(** X1: the order in which the two locations of a pair are named does not
    matter: blocking (unblocking) [a, b] and [b, a] give the same store, and
    unblocking [b, a] opens what blocking [a, b] closed. *)
Theorem block_path_unordered pf a b :
  block_path pf a b = block_path pf b a
  ∧ unblock_path pf a b = unblock_path pf b a
  ∧ (path_key a b ∉ blocked_paths (unblock_path (block_path pf a b) b a))
  ∧ (path_key b a ∉ blocked_paths (unblock_path (block_path pf a b) b a)).
Proof.
  unfold block_path, unblock_path. simpl. rewrite (path_key_sym b a).
  repeat split; intros [_ H]%elem_of_difference;
    apply H; by apply elem_of_singleton.
Qed.

Lemma serve_pairs_sorted pf c : pairs_sorted pf → pairs_sorted (serve pf c).1.
Proof.
  unfold pairs_sorted. intros H. destruct c; simpl; try done.
  - intros u v [?|Hk%elem_of_singleton]%elem_of_union; [auto|].
    pose proof (path_key_sorted a b) as Hs. by rewrite <- Hk in Hs.
  - intros u v [? _]%elem_of_difference. auto.
  - unfold add_hazard_zone. by case_decide.
Qed.

Lemma serve_all_pairs_sorted cs : ∀ pf,
  pairs_sorted pf → pairs_sorted (serve_all pf cs).
Proof.
  induction cs as [|c cs IH]; intros pf H; [done|].
  apply IH. by apply serve_pairs_sorted.
Qed.

(** X2: whatever calls were made on a fresh path finder, no pair is in the
    blocked set in both orders, and a pair is reported blocked exactly when
    it is in the set in one order or the other. *)
Theorem blocked_pairs_stored_once g cs a b :
  let pf := serve_all (new_PathFinder g) cs in
  ((a, b) ∈ blocked_paths pf → (b, a) ∈ blocked_paths pf → a = b)
  ∧ (path_key a b ∈ blocked_paths pf
     ↔ (a, b) ∈ blocked_paths pf ∨ (b, a) ∈ blocked_paths pf).
Proof.
  intros pf.
  assert (Hs : pairs_sorted pf).
  { apply serve_all_pairs_sorted. intros u v []%not_elem_of_empty. }
  assert (Huniq : (a, b) ∈ blocked_paths pf → (b, a) ∈ blocked_paths pf →
                  a = b).
  { intros H1 H2. apply Hs in H1, H2.
    unfold String.ltb in H1, H2. rewrite (String.compare_antisym a b) in H2.
    destruct (String.compare b a) eqn:E; try done.
    by apply String.compare_eq_iff in E. }
  split; [done|]. split.
  - destruct (path_key_cases a b) as [-> | ->]; auto.
  - unfold path_key. intros [H|H].
    + by rewrite (Hs _ _ H).
    + destruct (String.ltb b a) eqn:E; [done|].
      pose proof (Hs _ _ H) as E'.
      unfold String.ltb in E, E'. rewrite (String.compare_antisym a b) in E'.
      destruct (String.compare b a) eqn:Ec; try done.
      apply String.compare_eq_iff in Ec. by subst.
Qed.

(** X3: marking a location twice is marking it once, and unmarking it
    twice unmarking it once; unmarking after marking restores the store
    when the location was not a hazard zone before; a location that is not
    an exit point is a hazard zone once marked. *)
Theorem hazard_mark_unmark pf id :
  add_hazard_zone (add_hazard_zone pf id) id = add_hazard_zone pf id
  ∧ remove_hazard_zone (remove_hazard_zone pf id) id = remove_hazard_zone pf id
  ∧ (id ∉ hazard_zones (remove_hazard_zone pf id))
  ∧ (id ∉ hazard_zones pf →
     remove_hazard_zone pf id = pf
     ∧ remove_hazard_zone (add_hazard_zone pf id) id = pf)
  ∧ (id ∉ exit_points (graph pf) → id ∈ hazard_zones (add_hazard_zone pf id)).
Proof.
  assert (Hrm : ∀ X : gset string, id ∉ X → X ∖ {[ id ]} = X).
  { intros X Hx. apply set_eq. intros a.
    rewrite elem_of_difference, elem_of_singleton.
    split; [tauto|]. intros Ha. split; [done|]. by intros ->. }
  assert (Hcancel : ∀ X : gset string, (X ∪ {[ id ]}) ∖ {[ id ]} = X ∖ {[ id ]}).
  { intros X. apply set_eq. intros a.
    rewrite !elem_of_difference, elem_of_union. tauto. }
  split; [|split; [|split; [|split]]].
  - unfold add_hazard_zone. destruct (decide (id ∈ exit_points (graph pf)));
      simpl; [by rewrite decide_True|].
    rewrite decide_False by done. apply PathFinder_eq; simpl; [done|done|].
    by rewrite <- (assoc_L (∪)), (idemp_L (∪)).
  - apply PathFinder_eq; simpl; [done|done|].
    apply Hrm. intros [_ H]%elem_of_difference. by apply H, elem_of_singleton.
  - simpl. intros [_ H]%elem_of_difference. by apply H, elem_of_singleton.
  - intros Hid.
    assert (E : remove_hazard_zone pf id = pf).
    { apply PathFinder_eq; simpl; [done|done|]. by apply Hrm. }
    split; [done|]. unfold add_hazard_zone. case_decide; [done|].
    apply PathFinder_eq; simpl; [done|done|]. rewrite Hcancel. by apply Hrm.
  - intros He. unfold add_hazard_zone. rewrite decide_False by done. simpl.
    by apply elem_of_union_r, elem_of_singleton.
Qed.

Lemma hazard_mark_unmark_witness :
  ("Library" ∉ hazard_zones lab_link_closed)
  ∧ remove_hazard_zone (add_hazard_zone lab_link_closed "Library") "Library"
    = lab_link_closed.
Proof.
  assert (H : "Library" ∉ hazard_zones lab_link_closed)
    by (vm_compute; discriminate).
  split; [exact H|].
  exact (proj2 (proj1 (proj2 (proj2 (proj2
           (hazard_mark_unmark lab_link_closed "Library")))) H)).
Defined.

(** X4: after [resetAll] the path finder is as it was created, whatever
    calls came before: no pair blocked, no hazard zone, the same graph. *)
Theorem reset_restores_fresh pf cs :
  serve_all pf (cs ++ [resetAll]) = new_PathFinder (graph pf).
Proof.
  unfold serve_all. rewrite fold_left_app. simpl.
  fold (serve_all pf cs).
  assert (Hg : graph (serve_all pf cs) = graph pf).
  { revert pf. induction cs as [|c cs IH]; intros pf; [done|].
    simpl. unfold serve_all in *. simpl. rewrite IH. apply serve_graph. }
  apply PathFinder_eq; simpl; done.
Qed.

(** ** The graph model *)

(** X5: [get_node_info] finds a node exactly for the names that
    [get_all_nodes] lists, and with distinct keys it returns the node stored
    under the name. *)
Theorem get_node_info_listed g :
  (∀ name, is_Some (get_node_info g name) ↔ name ∈ get_all_nodes g)
  ∧ (NoDup (get_all_nodes g) →
     ∀ name node, (name, node) ∈ nodes g → get_node_info g name = Some node).
Proof.
  unfold get_node_info, get_all_nodes. split.
  - intros name. apply dict_get_is_Some.
  - induction (nodes g) as [|[k n] l IH]; simpl.
    + by intros _ name node ?%elem_of_nil.
    + intros [Hk Hnd]%NoDup_cons name node [[= -> ->]|Hin]%elem_of_cons.
      * by rewrite decide_True.
      * rewrite decide_False; [by apply IH|].
        intros ->. apply Hk. apply list_elem_of_fmap. by exists (k, node).
Qed.

Lemma get_node_info_listed_witness :
  NoDup (get_all_nodes campus)
  ∧ ∀ name node, (name, node) ∈ nodes campus →
                 get_node_info campus name = Some node.
Proof.
  assert (H : NoDup (get_all_nodes campus)).
  { refine (proj1 (bool_decide_eq_true _) _). vm_compute. reflexivity. }
  split; [exact H|]. exact (proj2 (get_node_info_listed campus) H).
Defined.

(** ** What the search depends on *)

(** The search reads the path finder through its graph and through the
    weight function only. *)
Lemma explore_ext pf pf' t t' em em' tr cur nbs : ∀ st,
  (∀ nb, _get_effective_weight pf cur nb t em
         = _get_effective_weight pf' cur nb t' em') →
  explore pf t em tr cur nbs st = explore pf' t' em' tr cur nbs st.
Proof.
  intros st H. revert st. induction nbs as [|nb nbs IH]; intros st; [done|].
  simpl. unfold relax_neighbor. rewrite H.
  destruct (decide _); simpl; [apply IH|].
  destruct (_get_effective_weight pf' cur nb t' em') as [w| |]; simpl; try done.
  destruct (num_eqb w PosInf); simpl; [apply IH|].
  destruct (getitem (distances st !! cur)) as [dc| |]; simpl; try done.
  destruct (getitem (distances st !! nb)) as [dn| |]; simpl; try done.
  destruct (num_ltb _ _); simpl; apply IH.
Qed.

Lemma search_loop_ext pf pf' finish t t' em em' tr fuel : ∀ st,
  graph pf = graph pf' →
  (∀ u v, _get_effective_weight pf u v t em
          = _get_effective_weight pf' u v t' em') →
  search_loop pf finish t em tr fuel st
  = search_loop pf' finish t' em' tr fuel st.
Proof.
  intros st Hg Hw. revert st.
  induction fuel as [|fuel IH]; intros st; simpl; [done|].
  destruct (heappop (pq st)) as [[[k cur] q']|]; [|done].
  case_decide; [apply IH|]. case_decide; [done|].
  rewrite <- Hg.
  destruct (getitem (dict_get cur (nodes (graph pf)))) as [node| |];
    simpl; try done.
  rewrite (explore_ext pf pf' t t' em em') by done.
  destruct (explore pf' t' em' tr cur _ _) as [st2| |]; simpl;
    [apply IH|done|done].
Qed.

Lemma dijkstra_ext pf pf' start finish t t' em em' tr :
  graph pf = graph pf' →
  (∀ u v, _get_effective_weight pf u v t em
          = _get_effective_weight pf' u v t' em') →
  dijkstra pf start finish t em tr = dijkstra pf' start finish t' em' tr.
Proof.
  intros Hg Hw. unfold dijkstra.
  rewrite (search_loop_ext pf pf' finish t t' em em') by done.
  by rewrite Hg.
Qed.

Lemma nearest_loop_ext pf pf' start t t' exits : ∀ m ne,
  graph pf = graph pf' →
  (∀ u v, _get_effective_weight pf u v t true
          = _get_effective_weight pf' u v t' true) →
  nearest_loop pf start t exits m ne = nearest_loop pf' start t' exits m ne.
Proof.
  intros m ne Hg Hw. revert m ne.
  induction exits as [|e exits IH]; intros m ne; [done|]. simpl.
  rewrite (dijkstra_ext pf pf' start e t t' true true false) by done.
  destruct (dijkstra pf' start e t' true false) as [r| |]; simpl; try done.
  destruct (num_ltb _ _); apply IH.
Qed.

(** X6: in normal mode the hazard zones play no part: whatever they are,
    [dijkstra] returns the same result, trace included. *)
Theorem normal_mode_ignores_hazards pf pf' start finish time_of_day tr :
  graph pf = graph pf' → blocked_paths pf = blocked_paths pf' →
  dijkstra pf start finish time_of_day false tr
  = dijkstra pf' start finish time_of_day false tr.
Proof.
  intros Hg Hb. apply dijkstra_ext; [done|].
  intros u v. unfold _get_effective_weight. by rewrite Hg, Hb.
Qed.

Lemma normal_mode_ignores_hazards_witness :
  dijkstra (add_hazard_zone lab_link_closed "Cafeteria")
    "Main Gate" "Hostel" EVENING false true
  = dijkstra lab_link_closed "Main Gate" "Hostel" EVENING false true.
Proof.
  apply (normal_mode_ignores_hazards
           (add_hazard_zone lab_link_closed "Cafeteria") lab_link_closed);
    reflexivity.
Defined.

(** X7: in emergency mode the time of day plays no part: [dijkstra] and
    [find_nearest_exit] return the same result at every time of day. *)
Theorem emergency_mode_ignores_time pf start finish t t' tr :
  dijkstra pf start finish t true tr = dijkstra pf start finish t' true tr
  ∧ find_nearest_exit pf start t = find_nearest_exit pf start t'.
Proof.
  assert (Hw : ∀ u v, _get_effective_weight pf u v t true
                      = _get_effective_weight pf u v t' true).
  { intros u v. unfold _get_effective_weight.
    case_decide; [done|]. destruct (dict_get u _); [|done].
    by destruct (dict_get v _). }
  split; [by apply dijkstra_ext|].
  unfold find_nearest_exit. by apply nearest_loop_ext.
Qed.

(** X8: blocking or unblocking a pair of locations that the graph does not
    link changes no answer: every route and every nearest exit is as
    before. *)
Theorem block_unlinked_pair_no_effect pf a b :
  not_linked (graph pf) a b →
  ∀ start finish t em tr,
    dijkstra (block_path pf a b) start finish t em tr
    = dijkstra pf start finish t em tr
    ∧ dijkstra (unblock_path pf a b) start finish t em tr
      = dijkstra pf start finish t em tr
    ∧ find_nearest_exit (block_path pf a b) start t
      = find_nearest_exit pf start t
    ∧ find_nearest_exit (unblock_path pf a b) start t
      = find_nearest_exit pf start t.
Proof.
  intros [Hab Hba].
  assert (Hinf : ∀ pf' u v t em, graph pf' = graph pf →
            path_key u v = path_key a b →
            _get_effective_weight pf' u v t em = Ok PosInf).
  { intros pf' u v t em Hg Hk. unfold _get_effective_weight.
    case_decide; [done|]. rewrite Hg.
    destruct (dict_get u _) as [n|] eqn:Hn; [|done].
    apply path_key_inj in Hk as [[-> ->]|[-> ->]].
    - by rewrite (Hab n Hn).
    - by rewrite (Hba n Hn). }
  assert (Hw : ∀ pf', graph pf' = graph pf →
            hazard_zones pf' = hazard_zones pf →
            (∀ k, k ≠ path_key a b →
                  (k ∈ blocked_paths pf' ↔ k ∈ blocked_paths pf)) →
            ∀ t em u v, _get_effective_weight pf' u v t em
                        = _get_effective_weight pf u v t em).
  { intros pf' Hg Hh Hb t em u v.
    destruct (decide (path_key u v = path_key a b)) as [Hk|Hk].
    - by rewrite !Hinf.
    - unfold _get_effective_weight, hazard_penalty. rewrite Hg, Hh.
      destruct (decide (path_key u v ∈ blocked_paths pf')) as [H1|H1],
               (decide (path_key u v ∈ blocked_paths pf)) as [H2|H2];
        try done; exfalso; apply (Hb _ Hk) in H1 || apply (Hb _ Hk) in H2;
        done. }
  assert (Hblock : ∀ t em u v,
            _get_effective_weight (block_path pf a b) u v t em
            = _get_effective_weight pf u v t em).
  { apply Hw; [done|done|]. intros k Hk. simpl.
    rewrite elem_of_union, elem_of_singleton. tauto. }
  assert (Hunblock : ∀ t em u v,
            _get_effective_weight (unblock_path pf a b) u v t em
            = _get_effective_weight pf u v t em).
  { apply Hw; [done|done|]. intros k Hk. simpl.
    rewrite elem_of_difference, elem_of_singleton. tauto. }
  intros start finish t em tr.
  split; [by apply dijkstra_ext|]. split; [by apply dijkstra_ext|].
  unfold find_nearest_exit. simpl.
  split; by apply nearest_loop_ext.
Qed.

Lemma block_unlinked_pair_no_effect_witness :
  not_linked (graph lab_link_closed) "Main Gate" "Hostel"
  ∧ dijkstra (block_path lab_link_closed "Main Gate" "Hostel")
      "Main Gate" "Hostel" MORNING false true
    = dijkstra lab_link_closed "Main Gate" "Hostel" MORNING false true.
Proof.
  assert (H : not_linked (graph lab_link_closed) "Main Gate" "Hostel").
  { split; intros n [= <-]; reflexivity. }
  split; [exact H|].
  exact (proj1 (block_unlinked_pair_no_effect lab_link_closed
                  "Main Gate" "Hostel" H
                  "Main Gate" "Hostel" MORNING false true)).
Defined.

(** ** The trace *)

Lemma relax_neighbor_forget pf t em tr cur st nb :
  outcome_map forget (relax_neighbor pf t em tr cur st nb)
  = relax_neighbor pf t em false cur (forget st) nb.
Proof.
  unfold relax_neighbor. simpl.
  destruct (decide _); [done|].
  destruct (_get_effective_weight pf cur nb t em) as [w| |]; simpl; try done.
  destruct (num_eqb w PosInf); [done|].
  destruct (getitem (distances st !! cur)) as [dc| |]; simpl; try done.
  destruct (getitem (distances st !! nb)) as [dn| |]; simpl; try done.
  by destruct (num_ltb _ _).
Qed.

Lemma explore_forget pf t em tr cur nbs : ∀ st,
  outcome_map forget (explore pf t em tr cur nbs st)
  = explore pf t em false cur nbs (forget st).
Proof.
  induction nbs as [|nb nbs IH]; intros st; [done|]. simpl.
  rewrite <- (relax_neighbor_forget pf t em tr).
  destruct (relax_neighbor pf t em tr cur st nb) as [st'| |]; simpl;
    [apply IH|done|done].
Qed.

Lemma search_loop_forget pf finish t em tr fuel : ∀ st,
  outcome_map forget (search_loop pf finish t em tr fuel st)
  = search_loop pf finish t em false fuel (forget st).
Proof.
  induction fuel as [|fuel IH]; intros st; simpl.
  - by destruct (heappop (pq st)) as [[[k cur] q']|].
  - destruct (heappop (pq st)) as [[[k cur] q']|]; [|done].
    case_decide; [apply IH|]. case_decide; [done|].
    destruct (getitem (dict_get cur (nodes (graph pf)))) as [node| |];
      simpl; try done.
    match goal with
    | |- context [explore pf t em tr cur ?l ?s] =>
        pose proof (explore_forget pf t em tr cur l s) as He;
        destruct (explore pf t em tr cur l s) as [st2| |]
    end; simpl in He |- *; unfold forget in He; simpl in He;
      rewrite <- He; simpl; [apply IH|done|done].
Qed.

(** X9: recording the trace changes nothing else: with and without it
    [dijkstra] returns the same path, distance and visited set, or raises
    the same exception; without it the list of steps is empty. *)
Theorem trace_changes_only_steps pf start finish t em :
  match dijkstra pf start finish t em true,
        dijkstra pf start finish t em false with
  | Ok r, Ok r' =>
      path r = path r' ∧ path_distance r = path_distance r'
      ∧ visited_nodes r = visited_nodes r' ∧ steps r' = []
  | Raise e, Raise e' => e = e'
  | Timeout, Timeout => True
  | _, _ => False
  end.
Proof.
  unfold dijkstra.
  pose proof (search_loop_forget pf finish t em true (search_fuel (graph pf))
                (initial_search (graph pf) start true)) as H.
  change (forget (initial_search (graph pf) start true))
    with (initial_search (graph pf) start false) in H.
  rewrite <- H.
  destruct (search_loop pf finish t em true _ _) as [st| |];
    cbn [bind outcome_map forget previous distances visited log];
    [|done..].
  destruct (reconstruct (S (length (nodes (graph pf)))) (previous st)
              (Some finish) []) as [p| |]; cbn [bind]; [|done..].
  destruct (getitem (distances st !! finish)) as [d| |]; cbn [bind]; done.
Qed.

(** ** More constraints, longer routes *)

Lemma num_add_mono a a' b b' :
  num_le a a' → num_le b b' → num_le (num_add a b) (num_add a' b').
Proof.
  unfold num_le. destruct a, a', b, b'; simpl; rewrite ?Z.ltb_ge; try done; lia.
Qed.

Lemma hazard_penalty_mono pf pf' u v :
  hazard_zones pf ⊆ hazard_zones pf' →
  hazard_penalty pf u v ≤ hazard_penalty pf' u v.
Proof.
  intros Hh. unfold hazard_penalty.
  destruct (decide (u ∈ hazard_zones pf)) as [Hu|Hu].
  - rewrite (decide_True (P := u ∈ hazard_zones pf')) by by apply Hh.
    destruct (decide (v ∈ hazard_zones pf)) as [Hv|Hv].
    + rewrite (decide_True (P := v ∈ hazard_zones pf')) by by apply Hh. lia.
    + case_decide; lia.
  - destruct (decide (v ∈ hazard_zones pf)) as [Hv|Hv].
    + rewrite (decide_True (P := v ∈ hazard_zones pf')) by by apply Hh.
      case_decide; lia.
    + repeat case_decide; lia.
Qed.

Lemma edge_cost_mono pf pf' t em u v :
  graph pf' = graph pf →
  blocked_paths pf ⊆ blocked_paths pf' →
  hazard_zones pf ⊆ hazard_zones pf' →
  num_le (edge_cost pf t em u v) (edge_cost pf' t em u v).
Proof.
  intros Hg Hb Hh. unfold edge_cost, _get_effective_weight. rewrite Hg.
  destruct (decide (path_key u v ∈ blocked_paths pf')) as [Hk'|Hk'];
    [apply num_le_PosInf|].
  rewrite decide_False by (intros Hk; by apply Hk', Hb).
  destruct (dict_get u _) as [node|]; [|done].
  destruct (dict_get v _) as [cn|]; [|done].
  destruct em.
  - apply num_le_Int. pose proof (hazard_penalty_mono pf pf' u v Hh). lia.
  - apply num_le_refl.
Qed.

Lemma path_cost_mono pf pf' t em p :
  graph pf' = graph pf →
  blocked_paths pf ⊆ blocked_paths pf' →
  hazard_zones pf ⊆ hazard_zones pf' →
  num_le (path_cost pf t em p) (path_cost pf' t em p).
Proof.
  intros Hg Hb Hh. induction p as [|a [|b p] IH]; [done..|].
  rewrite !path_cost_cons. apply num_add_mono; [by apply edge_cost_mono|done].
Qed.

(** A cheapest route under the larger constraints costs no less under the
    smaller. *)
Lemma distance_mono pf pf' start finish t em tr tr' r r' :
  wf_graph (graph pf) →
  graph pf' = graph pf →
  blocked_paths pf ⊆ blocked_paths pf' →
  hazard_zones pf ⊆ hazard_zones pf' →
  start ∈ map fst (nodes (graph pf)) →
  finish ∈ map fst (nodes (graph pf)) →
  dijkstra pf start finish t em tr = Ok r →
  dijkstra pf' start finish t em tr' = Ok r' →
  num_le (path_distance r) (path_distance r').
Proof.
  intros Hwf Hg Hb Hh Hs Hf Hr Hr'.
  destruct (dijkstra_spec pf start finish t em tr Hwf Hs Hf)
    as (r0 & Hr0 & Hlow & _).
  destruct (dijkstra_spec pf' start finish t em tr')
    as (r0' & Hr0' & _ & Hfin' & _); [by rewrite Hg..|].
  rewrite Hr in Hr0. injection Hr0 as <-.
  rewrite Hr' in Hr0'. injection Hr0' as <-.
  destruct (path_distance r') as [d'|] eqn:Hd'; [|apply num_le_PosInf].
  destruct (Hfin' d' eq_refl) as (Hroute & Hcost & _).
  eapply num_le_trans; [by apply Hlow|].
  rewrite <- Hcost. by apply path_cost_mono.
Qed.

(** X10: on a well-formed graph, a path finder with more blocked pairs and
    more hazard zones never reports a shorter distance between two known
    locations, whatever the time of day and the mode; so blocking a path
    or marking a hazard never shortens a route, and unblocking or unmarking
    never lengthens one. *)
Theorem constraints_never_shorten pf pf' start finish time_of_day
    emergency_mode track_steps track_steps' :
  wf_graph (graph pf) →
  graph pf' = graph pf →
  blocked_paths pf ⊆ blocked_paths pf' →
  hazard_zones pf ⊆ hazard_zones pf' →
  start ∈ map fst (nodes (graph pf)) →
  finish ∈ map fst (nodes (graph pf)) →
  ∃ r r',
    dijkstra pf start finish time_of_day emergency_mode track_steps = Ok r
    ∧ dijkstra pf' start finish time_of_day emergency_mode track_steps'
      = Ok r'
    ∧ num_le (path_distance r) (path_distance r').
Proof.
  intros Hwf Hg Hb Hh Hs Hf.
  destruct (dijkstra_spec pf start finish time_of_day emergency_mode
              track_steps Hwf Hs Hf) as (r & Hr & _).
  destruct (dijkstra_spec pf' start finish time_of_day emergency_mode
              track_steps') as (r' & Hr' & _); [by rewrite Hg..|].
  exists r, r'. split; [done|]. split; [done|].
  by apply (distance_mono pf pf' start finish time_of_day emergency_mode
              track_steps track_steps').
Qed.

Lemma constraints_never_shorten_witness :
  ∃ r r',
    dijkstra (new_PathFinder campus) "Main Gate" "Hostel" AFTERNOON false true
      = Ok r
    ∧ dijkstra lab_link_closed "Main Gate" "Hostel" AFTERNOON false true
      = Ok r'
    ∧ num_le (path_distance r) (path_distance r').
Proof.
  apply (constraints_never_shorten (new_PathFinder campus) lab_link_closed).
  - apply campus_wf.
  - reflexivity.
  - apply empty_subseteq.
  - apply empty_subseteq.
  - by apply listed.
  - by apply listed.
Defined.

(** ** Unknown locations *)

(** The first pass of the loop looks up the node of the start; when the
    destination is the start, the route is read back from it. *)
Lemma unknown_start_raises pf start finish t em tr :
  start ∉ map fst (nodes (graph pf)) →
  dijkstra pf start finish t em tr = Raise KeyError.
Proof.
  intros Hs. unfold dijkstra, search_fuel, initial_search.
  cbn [search_loop pq heappop pop_min visited distances previous].
  rewrite decide_False by apply not_elem_of_empty.
  destruct (decide (start = finish)) as [<-|Hne].
  - cbn [bind previous distances reconstruct].
    by rewrite lookup_const_map, decide_False by done.
  - destruct (dict_get start (nodes (graph pf))) as [node|] eqn:Hn; [|done].
    destruct Hs. apply dict_get_is_Some. eauto.
Qed.

(** X11: from a start that is not a location of the graph, [dijkstra]
    raises [KeyError], whatever the graph, the destination and the mode:
    at the first pass of the loop when the destination differs, while the
    route is read back when the destination is the same unknown location.
    So [find_nearest_exit] raises [KeyError] at the first exit point it
    tries; with no exit point declared it returns no exit and the infinite
    distance. *)
Theorem unknown_start_is_KeyError pf start time_of_day :
  start ∉ map fst (nodes (graph pf)) →
  (∀ finish emergency_mode track_steps,
     dijkstra pf start finish time_of_day emergency_mode track_steps
     = Raise KeyError)
  ∧ find_nearest_exit pf start time_of_day
    = match exit_points (graph pf) with
      | [] => Ok (None, PosInf)
      | _ => Raise KeyError
      end.
Proof.
  intros Hs. split.
  - intros finish em tr. by apply unknown_start_raises.
  - unfold find_nearest_exit.
    destruct (exit_points (graph pf)) as [|e l]; [done|].
    simpl. by rewrite unknown_start_raises.
Qed.

Lemma unknown_start_is_KeyError_witness :
  dijkstra (new_PathFinder campus) "Canteen" "Hostel" MORNING false true
  = Raise KeyError
  ∧ find_nearest_exit (new_PathFinder campus) "Canteen" MORNING
    = Raise KeyError.
Proof.
  assert (H : "Canteen" ∉ map fst (nodes (graph (new_PathFinder campus)))).
  { refine (proj1 (bool_decide_eq_false _) _). vm_compute. reflexivity. }
  destruct (unknown_start_is_KeyError (new_PathFinder campus) "Canteen"
              MORNING H) as [Hd Hn].
  split; [apply Hd|exact Hn].
Defined.

(** The search adds no entry to [distances] and [previous]: it updates
    those of neighbours that have one. *)
Lemma relax_neighbor_keeps_absent pf t em tr cur st nb st' v :
  relax_neighbor pf t em tr cur st nb = Ok st' →
  distances st !! v = None → previous st !! v = None →
  distances st' !! v = None ∧ previous st' !! v = None.
Proof.
  unfold relax_neighbor. intros H Hd Hp.
  case_decide; [by injection H as <-|].
  destruct (_get_effective_weight _ _ _ _ _) as [w| |]; [|done..].
  cbn [bind] in H.
  destruct (num_eqb w PosInf); [by injection H as <-|].
  destruct (distances st !! cur) as [dc|]; [|done].
  destruct (distances st !! nb) as [dn|] eqn:Hn; [|done].
  cbn [bind getitem] in H.
  destruct (num_ltb _ _); [|by injection H as <-].
  injection H as <-. simpl.
  assert (nb ≠ v) by congruence.
  by rewrite !lookup_insert_ne.
Qed.

Lemma explore_keeps_absent pf t em tr cur v nbs : ∀ st st',
  explore pf t em tr cur nbs st = Ok st' →
  distances st !! v = None → previous st !! v = None →
  distances st' !! v = None ∧ previous st' !! v = None.
Proof.
  induction nbs as [|nb nbs IH]; intros st st' H Hd Hp.
  - by injection H as <-.
  - simpl in H.
    destruct (relax_neighbor pf t em tr cur st nb) as [st1| |] eqn:H1;
      [|done..].
    destruct (relax_neighbor_keeps_absent _ _ _ _ _ _ _ _ v H1 Hd Hp).
    by apply (IH st1).
Qed.

Lemma search_loop_keeps_absent pf finish t em tr v fuel : ∀ st st',
  search_loop pf finish t em tr fuel st = Ok st' →
  distances st !! v = None → previous st !! v = None →
  distances st' !! v = None ∧ previous st' !! v = None.
Proof.
  induction fuel as [|fuel IH]; intros st st' H Hd Hp.
  - simpl in H. destruct (heappop (pq st)) as [[[k cur] q']|]; [done|].
    by injection H as <-.
  - simpl in H. destruct (heappop (pq st)) as [[[k cur] q']|];
      [|by injection H as <-].
    case_decide; [by apply IH in H|].
    case_decide; [by injection H as <-|].
    destruct (dict_get cur _) as [node|]; [|done].
    cbn [bind getitem] in H.
    destruct (explore _ _ _ _ _ _ _) as [st2| |] eqn:H2; [|done..].
    apply explore_keeps_absent with (v := v) in H2 as [? ?]; [|done..].
    by apply IH in H.
Qed.

(** X12: a search for a location the graph does not have never returns a
    result, whatever the graph: [previous] has no entry for it when the
    route is read back. On a well-formed graph, from a known start, the
    search itself completes and the call raises [KeyError]. *)
Theorem dijkstra_unknown_destination pf start finish time_of_day
    emergency_mode track_steps :
  finish ∉ map fst (nodes (graph pf)) →
  (∀ r, dijkstra pf start finish time_of_day emergency_mode track_steps
        ≠ Ok r)
  ∧ (wf_graph (graph pf) → start ∈ map fst (nodes (graph pf)) →
     dijkstra pf start finish time_of_day emergency_mode track_steps
     = Raise KeyError).
Proof.
  intros Hf.
  destruct (decide (start = finish)) as [->|Hne].
  { rewrite unknown_start_raises by done. by split. }
  assert (Hread : ∀ st,
    search_loop pf finish time_of_day emergency_mode track_steps
      (search_fuel (graph pf)) (initial_search (graph pf) start track_steps)
    = Ok st →
    dijkstra pf start finish time_of_day emergency_mode track_steps
    = Raise KeyError).
  { intros st Hst. unfold dijkstra. rewrite Hst. cbn [bind].
    apply search_loop_keeps_absent with (v := finish) in Hst as [_ Hp].
    - simpl. by rewrite Hp.
    - simpl. rewrite lookup_insert_ne by done.
      by rewrite lookup_const_map, decide_False.
    - simpl. by rewrite lookup_const_map, decide_False. }
  split.
  - intros r Hr.
    destruct (search_loop pf finish time_of_day emergency_mode track_steps
                (search_fuel (graph pf))
                (initial_search (graph pf) start track_steps))
      as [st| |] eqn:Hst.
    + by rewrite (Hread st) in Hr.
    + unfold dijkstra in Hr. by rewrite Hst in Hr.
    + unfold dijkstra in Hr. by rewrite Hst in Hr.
  - intros Hwf Hs.
    destruct (search_loop_spec pf start finish time_of_day emergency_mode
                track_steps Hwf Hs (search_fuel (graph pf))
                (initial_search (graph pf) start track_steps))
      as (st & Hst & _).
    + by apply initial_inv.
    + simpl. apply not_elem_of_empty.
    + unfold search_measure, search_fuel. simpl.
      by rewrite unvisited_degree_empty.
    + by apply (Hread st).
Qed.

Lemma dijkstra_unknown_destination_witness :
  dijkstra (new_PathFinder campus) "Hostel" "Canteen" MORNING false true
  = Raise KeyError.
Proof.
  apply dijkstra_unknown_destination.
  - refine (proj1 (bool_decide_eq_false _) _). vm_compute. reflexivity.
  - apply campus_wf.
  - by apply listed.
Defined.

(** ** The state the search ends in *)

Lemma path_cost_links pf t em p c :
  path_cost pf t em p = Int c →
  ∀ u v, (u, v) ∈ links_of p → ∃ w, edge_cost pf t em u v = Int w.
Proof.
  revert c. induction p as [|a [|b p] IH]; intros c Hc u v Huv.
  - by apply elem_of_nil in Huv.
  - by apply elem_of_nil in Huv.
  - rewrite path_cost_cons in Hc.
    destruct (edge_cost pf t em a b) as [w|] eqn:Hw; [|done].
    destruct (path_cost pf t em (b :: p)) as [c'|] eqn:Hc'; [|done].
    unfold links_of in Huv. simpl in Huv.
    apply elem_of_cons in Huv as [[= -> ->]|Huv]; [eauto|].
    by apply (IH c').
Qed.

Lemma edge_cost_open pf t em u v w :
  edge_cost pf t em u v = Int w →
  (path_key u v ∉ blocked_paths pf)
  ∧ ∃ node, dict_get u (nodes (graph pf)) = Some node
            ∧ v ∈ map fst (connections node).
Proof.
  unfold edge_cost, _get_effective_weight.
  case_decide as Hk; [done|].
  destruct (dict_get u _) as [node|] eqn:Hu; [|done].
  destruct (dict_get v _) as [cn|] eqn:Hv; [|done].
  intros _. split; [done|]. exists node. split; [done|].
  apply dict_get_is_Some. eauto.
Qed.

Section Final.
Variable pf : PathFinder.
Variables (start finish : string) (time_of_day : TimeOfDay).
Variables (emergency_mode track_steps : bool).
Hypothesis Hwf : wf_graph (graph pf).
Hypothesis Hstart : start ∈ map fst (nodes (graph pf)).
Hypothesis Hfinish : finish ∈ map fst (nodes (graph pf)).

(** When the loop ends on the destination, no finalized location is
    farther than it: the queue hands out the locations in the order of
    their distances. *)
Lemma search_loop_farthest fuel : ∀ st st',
  search_inv pf time_of_day emergency_mode start
    (fun u _ => u ∈ visited st) st →
  finish ∉ visited st →
  search_loop pf finish time_of_day emergency_mode track_steps fuel st
    = Ok st' →
  finish ∈ visited st' → farthest st' finish.
Proof.
  induction fuel as [|fuel IH]; intros st st' Hinv Hfin Hrun Hend.
  - simpl in Hrun. destruct (heappop (pq st)) as [[[k cur] q']|]; [done|].
    by injection Hrun as <-.
  - simpl in Hrun.
    destruct (heappop (pq st)) as [[[k cur] q']|] eqn:Hpop;
      [|by injection Hrun as <-].
    pose proof (heappop_spec _ _ _ Hpop) as [Hperm Hmin].
    case_decide as Hcur.
    + eapply IH; [| |exact Hrun|done]; simpl; [|done].
      destruct Hinv as [? ? ? ? Ifrontier Iqueue ? ? ? ?].
      constructor; simpl; try done.
      * intros v d Hd Hv.
        assert (Hq : (Int d, v) ∈ pq st) by by apply Ifrontier.
        rewrite <- Hperm in Hq.
        apply elem_of_cons in Hq as [[= -> ->]|Hq]; done.
      * intros k' v Hq. apply Iqueue. rewrite <- Hperm. by right.
    + set (lg := record track_steps _ (log st)) in Hrun.
      destruct (visit_spec pf start time_of_day emergency_mode Hwf Hstart
                  st k cur q' lg Hinv Hpop Hcur) as (Hinv1 & Hfar1 & Hkey).
      case_decide as Hc.
      * injection Hrun as <-. subst cur. intros u du dc. apply Hfar1.
      * apply dict_get_is_Some in Hkey as [node Hnode].
        rewrite Hnode in Hrun. cbn [bind getitem] in Hrun.
        destruct (explore_spec pf start time_of_day emergency_mode
                    track_steps Hwf (visited st ∪ {[cur]}) cur
                    (map fst (connections node)) [] _ Hinv1)
          as (st2 & seen & He & Hseen & Hinv2 & HS2 & Hlen2);
          [done|by apply elem_of_union_r, elem_of_singleton|done| |].
        { intros nb Hnb. eapply wf_graph_link_key; eauto. }
        rewrite He in Hrun. cbn [bind] in Hrun.
        eapply IH; [| |exact Hrun|done].
        -- destruct Hinv2 as [? ? ? ? ? ? ? ? ? Irelaxed].
           constructor; try done.
           intros u v du c Hu Hdu Hcost.
           apply (Irelaxed u v du c); [|done..].
           destruct (decide (u = cur)) as [->|Hne].
           ++ right. split; [done|]. apply Hseen. left.
              apply (cost_finite _ _ _ Hwf) in Hcost as [_ (node' & Hn' & Hv)].
              rewrite Hnode in Hn'. by injection Hn' as <-.
           ++ left. split; [|done]. by rewrite <- HS2.
        -- rewrite HS2.
           intros [?|?%elem_of_singleton]%elem_of_union; congruence.
Qed.

(** The result of [dijkstra], read off the state the loop ends in. *)
Lemma dijkstra_final :
  ∃ st r,
    dijkstra pf start finish time_of_day emergency_mode track_steps = Ok r
    ∧ search_inv pf time_of_day emergency_mode start
        (fun u _ => u ∈ visited st ∧ u ≠ finish) st
    ∧ (finish ∈ visited st ∨ pq st = [])
    ∧ (finish ∈ visited st → farthest st finish)
    ∧ visited_nodes r = visited st
    ∧ distances st !! finish = Some (path_distance r)
    ∧ (∀ d, path_distance r = Int d →
         tree_path_from pf time_of_day emergency_mode start (previous st)
           (visited st) finish (path r) d
         ∧ NoDup (path r) ∧ finish ∈ visited st).
Proof.
  unfold dijkstra.
  destruct (search_loop_spec pf start finish time_of_day emergency_mode
              track_steps Hwf Hstart (search_fuel (graph pf))
              (initial_search (graph pf) start track_steps))
    as (st & Hrun & Hinv & Hfinal).
  { by apply initial_inv. }
  { simpl. apply not_elem_of_empty. }
  { unfold search_measure, search_fuel. simpl.
    by rewrite unvisited_degree_empty. }
  assert (Hfar : finish ∈ visited st → farthest st finish).
  { apply (search_loop_farthest (search_fuel (graph pf))
             (initial_search (graph pf) start track_steps) st);
      [by apply initial_inv| |done].
    simpl. apply not_elem_of_empty. }
  rewrite Hrun. cbn [bind]. exists st.
  destruct (inv_dom _ _ _ _ _ _ Hinv finish Hfinish) as [[d Hd] _].
  destruct d as [dz|].
  - destruct (inv_tree _ _ _ _ _ _ Hinv _ _ Hd) as (p & Hp & Hnd).
    pose proof (tree_path_route _ _ _ _ Hwf Hstart _ _ _ _ _ Hp)
      as (Hroute & Hcost & Hk).
    rewrite (reconstruct_tree_path _ _ _ _ _ _ _ _ _ Hp).
    2:{ apply NoDup_submseteq in Hk; [|done].
        apply submseteq_length in Hk. rewrite length_map in Hk. lia. }
    rewrite Hd. cbn [bind getitem]. rewrite app_nil_r.
    eexists. split; [done|]. simpl. repeat (split; [done|]).
    intros d' [= <-]. split; [done|]. split; [done|].
    destruct Hfinal as [?|Hq]; [done|].
    destruct (decide (finish ∈ visited st)) as [|Hn]; [done|].
    pose proof (inv_frontier _ _ _ _ _ _ Hinv _ _ Hd Hn) as Hin.
    rewrite Hq in Hin. by apply elem_of_nil in Hin.
  - pose proof (inv_inf _ _ _ _ _ _ Hinv _ Hd) as Hprev.
    simpl. rewrite Hprev. cbn [bind getitem]. rewrite Hd.
    eexists. split; [by destruct (length (nodes (graph pf)))|].
    simpl. by repeat (split; [done|]).
Qed.
End Final.

(** X13: on a well-formed graph, the route returned between two known
    locations passes through no location twice, only through locations of
    the graph that the search has visited, and only along links of the
    graph that are not blocked. *)
Theorem route_simple_and_open pf start finish time_of_day emergency_mode
    track_steps :
  wf_graph (graph pf) →
  start ∈ map fst (nodes (graph pf)) →
  finish ∈ map fst (nodes (graph pf)) →
  ∃ r,
    dijkstra pf start finish time_of_day emergency_mode track_steps = Ok r
    ∧ ∀ d, path_distance r = Int d →
        NoDup (path r)
        ∧ (length (path r) ≤ length (nodes (graph pf)))%nat
        ∧ (∀ a, a ∈ path r →
             a ∈ visited_nodes r ∧ a ∈ map fst (nodes (graph pf)))
        ∧ (∀ u v, (u, v) ∈ links_of (path r) →
             (path_key u v ∉ blocked_paths pf)
             ∧ ∃ node, dict_get u (nodes (graph pf)) = Some node
                       ∧ v ∈ map fst (connections node)).
Proof.
  intros Hwf Hs Hf.
  destruct (dijkstra_final pf start finish time_of_day emergency_mode
              track_steps Hwf Hs Hf)
    as (st & r & Hr & Hinv & Hfinal & Hfar & Hvis & Hd & Hpath).
  exists r. split; [done|]. intros d Hdist.
  destruct (Hpath d Hdist) as (Hp & Hnd & Hfv).
  pose proof (tree_path_route _ _ _ _ Hwf Hs _ _ _ _ _ Hp)
    as (Hroute & Hcost & Hk).
  split; [done|]. split; [|split].
  - apply NoDup_submseteq in Hk; [|done].
    apply submseteq_length in Hk. by rewrite length_map in Hk.
  - intros a Ha. split; [|by apply Hk]. rewrite Hvis.
    by apply (tree_path_visited _ _ _ _ _ _ _ _ _ Hp).
  - intros u v Huv.
    destruct (path_cost_links _ _ _ _ _ Hcost u v Huv) as [w Hw].
    by apply edge_cost_open in Hw.
Qed.

Lemma route_simple_and_open_witness :
  ∃ r,
    dijkstra gate_closed "Library" "Hostel" EVENING true false = Ok r
    ∧ ∀ d, path_distance r = Int d →
        NoDup (path r)
        ∧ (length (path r) ≤ length (nodes campus))%nat
        ∧ (∀ a, a ∈ path r →
             a ∈ visited_nodes r ∧ a ∈ map fst (nodes campus))
        ∧ (∀ u v, (u, v) ∈ links_of (path r) →
             (path_key u v ∉ blocked_paths gate_closed)
             ∧ ∃ node, dict_get u (nodes campus) = Some node
                       ∧ v ∈ map fst (connections node)).
Proof.
  apply (route_simple_and_open gate_closed).
  - apply campus_wf.
  - by apply listed.
  - by apply listed.
Defined.

(** X14: on a well-formed graph, between known locations, [visited_nodes]
    holds the start, and only locations of the graph that can be reached,
    none of them farther from the start than the distance returned; and
    it holds every location strictly nearer than that. So when the
    destination cannot be reached, [visited_nodes] is exactly the set of
    the locations that can. *)
Theorem visited_nodes_are_the_nearer pf start finish time_of_day
    emergency_mode track_steps :
  wf_graph (graph pf) →
  start ∈ map fst (nodes (graph pf)) →
  finish ∈ map fst (nodes (graph pf)) →
  let pcost := path_cost pf time_of_day emergency_mode in
  ∃ r,
    dijkstra pf start finish time_of_day emergency_mode track_steps = Ok r
    ∧ start ∈ visited_nodes r
    ∧ (∀ v, v ∈ visited_nodes r →
         v ∈ map fst (nodes (graph pf))
         ∧ ∃ p c, route start v p ∧ pcost p = Int c
                  ∧ (∀ q, route start v q → num_le (Int c) (pcost q))
                  ∧ num_le (Int c) (path_distance r))
    ∧ (∀ v p c, route start v p → pcost p = Int c →
         num_ltb (Int c) (path_distance r) = true → v ∈ visited_nodes r)
    ∧ (path_distance r = PosInf →
         ∀ v, v ∈ visited_nodes r ↔
              reachable pf time_of_day emergency_mode start v).
Proof.
  intros Hwf Hs Hf pcost.
  destruct (dijkstra_final pf start finish time_of_day emergency_mode
              track_steps Hwf Hs Hf)
    as (st & r & Hr & Hinv & Hfinal & Hfar & Hvis & Hd & Hpath).
  exists r. split; [done|]. rewrite Hvis.
  assert (Hstart : start ∈ visited st).
  { destruct Hfinal as [Hv|Hq]; [by apply (inv_root _ _ _ _ _ _ Hinv finish)|].
    destruct (decide (start ∈ visited st)) as [|Hn]; [done|].
    pose proof (inv_frontier _ _ _ _ _ _ Hinv _ _
                  (inv_start _ _ _ _ _ _ Hinv) Hn) as Hin.
    rewrite Hq in Hin. by apply elem_of_nil in Hin. }
  assert (Hcarry : ∀ v p c, route start v p → pcost p = Int c →
            carried_bound finish st v c).
  { intros v p c [Hh Hl] Hc.
    apply (carried_along pf start finish time_of_day emergency_mode Hwf st
             Hinv p start v 0 c Hh Hl); [|done].
    exists start, 0. split; [apply (inv_start _ _ _ _ _ _ Hinv)|].
    split; [lia|by left]. }
  assert (Hsound : ∀ v, v ∈ visited st →
            v ∈ map fst (nodes (graph pf))
            ∧ ∃ p c, route start v p ∧ pcost p = Int c
                     ∧ (∀ q, route start v q → num_le (Int c) (pcost q))
                     ∧ num_le (Int c) (path_distance r)).
  { intros v Hv.
    destruct (inv_visited _ _ _ _ _ _ Hinv v Hv) as [dv Hdv].
    destruct (inv_tree _ _ _ _ _ _ Hinv v dv Hdv) as (p & Hp & _).
    pose proof (tree_path_last _ _ _ _ _ _ _ _ _ Hp) as Hl.
    pose proof (tree_path_route _ _ _ _ Hwf Hs _ _ _ _ _ Hp)
      as (Hroute & Hcost & Hk).
    split; [by apply Hk, last_Some_elem_of|].
    assert (Hle : ∀ d, distances st !! finish = Some (Int d) → dv ≤ d).
    { intros d Hdf. destruct (decide (finish ∈ visited st)) as [Hfv|Hfv].
      - by apply (Hfar Hfv v dv d).
      - by apply (inv_mono _ _ _ _ _ _ Hinv v finish dv d). }
    exists p, dv. split; [done|]. split; [done|]. split.
    - intros q Hq. destruct (pcost q) as [cq|] eqn:Hcq; [|done].
      apply num_le_Int.
      destruct (Hcarry v q cq Hq Hcq) as (y & dy & Hdy & Hley & Hy).
      destruct Hy as [->|[Hy| ->]].
      + rewrite Hdv in Hdy. injection Hdy as <-. done.
      + pose proof (inv_mono _ _ _ _ _ _ Hinv v y dv dy Hv Hy Hdv Hdy). lia.
      + pose proof (Hle dy Hdy). lia.
    - destruct (path_distance r) as [d|]; [|done].
      apply num_le_Int. by apply Hle. }
  assert (Hcomplete : ∀ v p c, route start v p → pcost p = Int c →
            num_ltb (Int c) (path_distance r) = true → v ∈ visited st).
  { intros v p c Hroute Hc Hlt.
    destruct (Hcarry v p c Hroute Hc) as (y & dy & Hdy & Hley & Hy).
    assert (Hout : ∀ u du, distances st !! u = Some (Int du) → du ≤ c →
              u ∈ visited st ∧ u ≠ finish).
    { intros u du Hdu Hle.
      assert (Hne : u ≠ finish).
      { intros ->. rewrite Hd in Hdu. injection Hdu as Hdu.
        rewrite Hdu in Hlt. simpl in Hlt. apply Z.ltb_lt in Hlt. lia. }
      split; [|done].
      destruct (decide (u ∈ visited st)) as [|Hn]; [done|].
      pose proof (inv_frontier _ _ _ _ _ _ Hinv _ _ Hdu Hn) as Hin.
      destruct Hfinal as [Hfv|Hq];
        [|rewrite Hq in Hin; by apply elem_of_nil in Hin].
      destruct (inv_visited _ _ _ _ _ _ Hinv _ Hfv) as [d Hdf].
      pose proof (inv_mono _ _ _ _ _ _ Hinv finish u d du Hfv Hn Hdf Hdu).
      rewrite Hd in Hdf. injection Hdf as Hdf.
      rewrite Hdf in Hlt. simpl in Hlt. apply Z.ltb_lt in Hlt. lia. }
    destruct (Hout y dy Hdy Hley) as [Hyv Hyf].
    destruct Hy as [->|[Hy| ->]]; done. }
  split; [done|]. split; [done|]. split; [done|].
  intros Hinf v. split.
  - intros Hv. destruct (Hsound v Hv) as (_ & p & c & Hroute & Hc & _).
    by exists p, c.
  - intros (p & c & Hroute & Hc). apply (Hcomplete v p c Hroute Hc).
    by rewrite Hinf.
Qed.

Lemma visited_nodes_are_the_nearer_witness :
  let pcost := path_cost gate_closed AFTERNOON false in
  ∃ r,
    dijkstra gate_closed "Main Gate" "Hostel" AFTERNOON false true = Ok r
    ∧ "Main Gate" ∈ visited_nodes r
    ∧ (∀ v, v ∈ visited_nodes r →
         v ∈ map fst (nodes campus)
         ∧ ∃ p c, route "Main Gate" v p ∧ pcost p = Int c
                  ∧ (∀ q, route "Main Gate" v q → num_le (Int c) (pcost q))
                  ∧ num_le (Int c) (path_distance r))
    ∧ (∀ v p c, route "Main Gate" v p → pcost p = Int c →
         num_ltb (Int c) (path_distance r) = true → v ∈ visited_nodes r)
    ∧ (path_distance r = PosInf →
         ∀ v, v ∈ visited_nodes r ↔
              reachable gate_closed AFTERNOON false "Main Gate" v).
Proof.
  apply (visited_nodes_are_the_nearer gate_closed).
  - apply campus_wf.
  - by apply listed.
  - by apply listed.
Defined.

(** ** Both directions *)

Lemma link_known g u v c :
  wf_graph g → link g u v = Some c →
  u ∈ map fst (nodes g) ∧ v ∈ map fst (nodes g).
Proof.
  intros Hwf. unfold link.
  destruct (dict_get u (nodes g)) as [node|] eqn:Hu; [|done].
  intros Hv. split.
  - apply dict_get_is_Some. eauto.
  - by destruct (wf_graph_link g u node v c Hwf Hu Hv).
Qed.

Lemma symmetric_linksb_sound g :
  wf_graph g → symmetric_linksb g = true → symmetric_links g.
Proof.
  intros Hwf Hb u v. unfold symmetric_linksb in Hb.
  rewrite forallb_forall in Hb.
  assert (Hin : ∀ a b, a ∈ map fst (nodes g) → b ∈ map fst (nodes g) →
                       link g a b = link g b a).
  { intros a b Ha Hb'. apply list_elem_of_In, Hb in Ha.
    rewrite forallb_forall in Ha. apply list_elem_of_In, Ha in Hb'.
    by apply bool_decide_eq_true in Hb'. }
  destruct (link g u v) as [c|] eqn:Huv.
  - destruct (link_known g u v c Hwf Huv) as [Hu Hv].
    by rewrite <- (Hin u v).
  - destruct (link g v u) as [c|] eqn:Hvu; [|done].
    destruct (link_known g v u c Hwf Hvu) as [Hv Hu].
    rewrite <- (Hin u v), Huv in Hvu by done. done.
Qed.

Lemma weight_by_link pf u v t em :
  _get_effective_weight pf u v t em
  = if decide (path_key u v ∈ blocked_paths pf) then Ok PosInf
    else match link (graph pf) u v with
         | None => Ok PosInf
         | Some connection =>
             if em
             then Ok (Int (distance connection + hazard_penalty pf u v))
             else let! w := traffic_weight connection t in Ok (Int w)
         end.
Proof.
  unfold _get_effective_weight, link. case_decide; [done|].
  by destruct (dict_get u _).
Qed.

Lemma edge_cost_sym pf t em u v :
  symmetric_links (graph pf) →
  edge_cost pf t em u v = edge_cost pf t em v u.
Proof.
  intros Hsym. unfold edge_cost. rewrite !weight_by_link.
  rewrite (path_key_sym v u), (Hsym v u).
  unfold hazard_penalty. by rewrite (Z.add_comm (if decide (v ∈ _) then _ else _)).
Qed.

Lemma num_add_comm a b : num_add a b = num_add b a.
Proof. destruct a, b; simpl; try done. by rewrite Z.add_comm. Qed.

Lemma num_add_assoc a b c : num_add a (num_add b c) = num_add (num_add a b) c.
Proof. destruct a, b, c; simpl; try done. by rewrite Z.add_assoc. Qed.

Lemma num_le_antisym a b : num_le a b → num_le b a → a = b.
Proof.
  unfold num_le. destruct a, b; simpl; rewrite ?Z.ltb_ge; try done.
  intros. f_equal. lia.
Qed.

(** The cost of a route extended by one location. *)
Lemma path_cost_extend pf t em p u v :
  last p = Some u →
  path_cost pf t em (p ++ [v])
  = num_add (path_cost pf t em p) (edge_cost pf t em u v).
Proof.
  induction p as [|a [|b p] IH]; [done| |].
  - intros [= ->]. simpl. by rewrite num_add_comm.
  - intros Hl. change ((a :: b :: p) ++ [v]) with (a :: b :: (p ++ [v])).
    rewrite !path_cost_cons. change (b :: p ++ [v]) with ((b :: p) ++ [v]).
    rewrite IH by done. apply num_add_assoc.
Qed.

Lemma last_rev (l : list string) : last (rev l) = head l.
Proof. rewrite rev_alt. apply (last_reverse l). Qed.

Lemma head_rev (l : list string) : head (rev l) = last l.
Proof. rewrite rev_alt. apply (head_reverse l). Qed.

Lemma path_cost_rev pf t em p :
  symmetric_links (graph pf) →
  path_cost pf t em (rev p) = path_cost pf t em p.
Proof.
  intros Hsym. induction p as [|a [|b p] IH]; [done..|].
  change (rev (a :: b :: p)) with (rev (b :: p) ++ [a]).
  rewrite (path_cost_extend _ _ _ _ b a).
  - rewrite IH, path_cost_cons, (edge_cost_sym _ _ _ b a) by done.
    apply num_add_comm.
  - by rewrite last_rev.
Qed.

Lemma route_rev a b p : route a b p → route b a (rev p).
Proof.
  intros [Hh Hl]. split.
  - by rewrite head_rev.
  - by rewrite last_rev.
Qed.

(** X15: on a well-formed graph whose connections are declared in both
    directions with the same data, the distance from one known location to
    another is the distance back, whatever the blocked paths, the hazard
    zones, the time of day and the mode. *)
Theorem distance_symmetric pf a b time_of_day emergency_mode track_steps
    track_steps' :
  wf_graph (graph pf) → symmetric_links (graph pf) →
  a ∈ map fst (nodes (graph pf)) → b ∈ map fst (nodes (graph pf)) →
  ∃ r r',
    dijkstra pf a b time_of_day emergency_mode track_steps = Ok r
    ∧ dijkstra pf b a time_of_day emergency_mode track_steps' = Ok r'
    ∧ path_distance r = path_distance r'.
Proof.
  intros Hwf Hsym Ha Hb.
  destruct (dijkstra_spec pf a b time_of_day emergency_mode track_steps
              Hwf Ha Hb) as (r & Hr & Hlow & Hfin & _).
  destruct (dijkstra_spec pf b a time_of_day emergency_mode track_steps'
              Hwf Hb Ha) as (r' & Hr' & Hlow' & Hfin' & _).
  exists r, r'. split; [done|]. split; [done|].
  apply num_le_antisym.
  - destruct (path_distance r') as [d'|] eqn:Hd'; [|apply num_le_PosInf].
    destruct (Hfin' d' eq_refl) as (Hroute & Hcost & _).
    rewrite <- Hcost, <- (path_cost_rev pf _ _ _ Hsym).
    by apply Hlow, route_rev.
  - destruct (path_distance r) as [d|] eqn:Hd; [|apply num_le_PosInf].
    destruct (Hfin d eq_refl) as (Hroute & Hcost & _).
    rewrite <- Hcost, <- (path_cost_rev pf _ _ _ Hsym).
    by apply Hlow', route_rev.
Qed.

Lemma distance_symmetric_witness :
  ∃ r r',
    dijkstra (new_PathFinder tie_graph) "A" "B" MORNING false true = Ok r
    ∧ dijkstra (new_PathFinder tie_graph) "B" "A" MORNING false false = Ok r'
    ∧ path_distance r = path_distance r'.
Proof.
  assert (Hwf : wf_graph tie_graph) by by apply wf_graphb_sound.
  apply (distance_symmetric (new_PathFinder tie_graph)).
  - exact Hwf.
  - by apply symmetric_linksb_sound.
  - by apply listed.
  - by apply listed.
Defined.

Lemma one_way_pairs_spec g u v :
  wf_graph g →
  link g u v ≠ link g v u ↔ (u, v) ∈ one_way_pairs g.
Proof.
  intros Hwf. unfold one_way_pairs. rewrite list_elem_of_filter. simpl.
  split; [|tauto]. intros Hne. split; [done|].
  assert (Hk : u ∈ map fst (nodes g) ∧ v ∈ map fst (nodes g)).
  { destruct (link g u v) as [c|] eqn:Huv; [by eapply link_known|].
    destruct (link g v u) as [c|] eqn:Hvu; [|done].
    destruct (link_known g v u c Hwf Hvu). done. }
  destruct Hk as [Hu Hv]. apply list_elem_of_In, in_prod; by apply list_elem_of_In.
Qed.

(** X16: the campus graph declares every link in both directions with the
    same data, except the link from the hostel to the sports complex,
    which it declares in that direction only: the way back leads through
    the auditorium, and the two distances differ. *)
Theorem campus_one_way_link :
  (∀ u v, link campus u v ≠ link campus v u ↔
          (u, v) ∈ [("Sports Complex", "Hostel"); ("Hostel", "Sports Complex")])
  ∧ route_of (dijkstra (new_PathFinder campus) "Hostel" "Sports Complex"
                AFTERNOON true false)
    = Some (["Hostel"; "Sports Complex"], Int 220)
  ∧ route_of (dijkstra (new_PathFinder campus) "Sports Complex" "Hostel"
                AFTERNOON true false)
    = Some (["Sports Complex"; "Auditorium"; "Hostel"], Int 330).
Proof.
  split; [|split; vm_compute; reflexivity].
  intros u v. rewrite (one_way_pairs_spec campus u v campus_wf).
  assert (H : one_way_pairs campus
              = [("Sports Complex", "Hostel"); ("Hostel", "Sports Complex")])
    by (vm_compute; reflexivity).
  by rewrite H.
Qed.

(** ** The route to the nearest exit *)

(** The trace apart, a result does not depend on [track_steps]. *)
Lemma dijkstra_forget pf start finish t em tr :
  outcome_map (fun r => (path r, path_distance r, visited_nodes r))
    (dijkstra pf start finish t em tr)
  = outcome_map (fun r => (path r, path_distance r, visited_nodes r))
      (dijkstra pf start finish t em false).
Proof.
  destruct tr; [|done]. unfold dijkstra.
  pose proof (search_loop_forget pf finish t em true (search_fuel (graph pf))
                (initial_search (graph pf) start true)) as H.
  change (forget (initial_search (graph pf) start true))
    with (initial_search (graph pf) start false) in H.
  rewrite <- H.
  destruct (search_loop pf finish t em true _ _) as [st| |];
    cbn [bind outcome_map forget previous distances visited log];
    [|done..].
  destruct (reconstruct (S (length (nodes (graph pf)))) (previous st)
              (Some finish) []) as [p| |]; cbn [bind outcome_map]; [|done..].
  destruct (getitem (distances st !! finish)) as [d| |];
    cbn [bind outcome_map]; done.
Qed.

Lemma emergency_weight_any_time pf u v t t' :
  _get_effective_weight pf u v t true = _get_effective_weight pf u v t' true.
Proof.
  unfold _get_effective_weight.
  case_decide; [done|]. destruct (dict_get u _); [|done].
  by destruct (dict_get v _).
Qed.

(** X17: on a well-formed graph whose exit points are locations of the
    graph, when [find_nearest_exit] returns an exit and a distance from a
    known start, the exit is a declared exit point, the distance is
    finite, and an emergency-mode search to that exit, at any time of day,
    with or without trace, returns a route to it of exactly that
    distance. *)
Theorem evacuation_route_has_exit_distance pf start time_of_day
    time_of_day' track_steps e d :
  wf_graph (graph pf) →
  start ∈ map fst (nodes (graph pf)) →
  (∀ x, x ∈ exit_points (graph pf) → x ∈ map fst (nodes (graph pf))) →
  find_nearest_exit pf start time_of_day = Ok (Some e, d) →
  e ∈ exit_points (graph pf)
  ∧ ∃ r dz,
      dijkstra pf start e time_of_day' true track_steps = Ok r
      ∧ path_distance r = d ∧ d = Int dz
      ∧ route start e (path r)
      ∧ path_cost pf time_of_day' true (path r) = d.
Proof.
  intros Hwf Hs Hex Hfind. unfold find_nearest_exit in Hfind.
  destruct (nearest_loop_spec pf start time_of_day (exit_points (graph pf))
              PosInf None) as (res & Hres & Hcase).
  { intros x Hx.
    destruct (dijkstra_spec pf start x time_of_day true false Hwf Hs (Hex x Hx))
      as (r & Hr & _). eauto. }
  rewrite Hres in Hfind. injection Hfind as ->.
  destruct Hcase as [[[=] _]|(l1 & ex & l2 & Hl & [= -> ->] & Hlt & _)].
  assert (Hin : ex ∈ exit_points (graph pf)).
  { rewrite Hl. apply elem_of_app. right. left. }
  split; [done|].
  destruct (dijkstra_spec pf start ex time_of_day' true track_steps Hwf Hs
              (Hex ex Hin)) as (r & Hr & _ & Hfin & _).
  assert (Hd : exit_distance pf start time_of_day ex = path_distance r).
  { unfold exit_distance.
    rewrite (dijkstra_ext pf pf start ex time_of_day time_of_day' true true
               false eq_refl)
      by (intros; apply emergency_weight_any_time).
    pose proof (dijkstra_forget pf start ex time_of_day' true track_steps)
      as H.
    rewrite Hr in H.
    destruct (dijkstra pf start ex time_of_day' true false) as [r0| |];
      [|done..].
    simpl in H. by injection H as _ <- _. }
  rewrite Hd in *.
  destruct (path_distance r) as [dz|] eqn:Hdz; [|done].
  destruct (Hfin dz eq_refl) as (Hroute & Hcost & _).
  by exists r, dz.
Qed.

Lemma evacuation_route_has_exit_distance_witness :
  let pf := add_hazard_zone (add_hazard_zone (new_PathFinder campus) "Library")
              "Computer Lab" in
  "Sports Complex" ∈ exit_points (graph pf)
  ∧ ∃ r dz,
      dijkstra pf "Lecture Hall" "Sports Complex" MORNING true true = Ok r
      ∧ path_distance r = Int 200 ∧ Int 200 = Int dz
      ∧ route "Lecture Hall" "Sports Complex" (path r)
      ∧ path_cost pf MORNING true (path r) = Int 200.
Proof.
  intros pf.
  apply (evacuation_route_has_exit_distance pf "Lecture Hall" MORNING).
  - apply campus_wf.
  - by apply listed.
  - apply campus_exits_known.
  - vm_compute. reflexivity.
Defined.

(** ** The trace *)

Lemma head_app_Some (l l' : list Step) s :
  head l = Some s → head (l ++ l') = Some s.
Proof. by destruct l. Qed.

Lemma visits_app l l' : visits (l ++ l') = visits l ++ visits l'.
Proof. apply omap_app. Qed.

Lemma relax_neighbor_trace pf t em cur st nb st' :
  relax_neighbor pf t em true cur st nb = Ok st' →
  trace_open st → trace_open st' ∧ visited st' = visited st.
Proof.
  unfold relax_neighbor. intros H Ht.
  case_decide; [by injection H as <-|].
  destruct (_get_effective_weight _ _ _ _ _) as [w| |]; [|done..].
  cbn [bind] in H.
  destruct (num_eqb w PosInf); [by injection H as <-|].
  destruct (distances st !! cur) as [dc|]; [|done].
  destruct (distances st !! nb) as [dn|]; [|done].
  cbn [bind getitem] in H.
  destruct (num_ltb _ _); [|by injection H as <-].
  injection H as <-. split; [|done].
  destruct Ht as [(s & Hs & Hi) Hset Hnd Hop].
  constructor; simpl.
  - exists s. split; [by apply head_app_Some|done].
  - intros v. rewrite visits_app. simpl. rewrite app_nil_r. apply Hset.
  - rewrite visits_app. simpl. by rewrite app_nil_r.
  - apply Forall_app. split; [done|]. by apply Forall_singleton.
Qed.

Lemma explore_trace pf t em cur nbs : ∀ st st',
  explore pf t em true cur nbs st = Ok st' →
  trace_open st → trace_open st' ∧ visited st' = visited st.
Proof.
  induction nbs as [|nb nbs IH]; intros st st' H Ht.
  - by injection H as <-.
  - simpl in H.
    destruct (relax_neighbor pf t em true cur st nb) as [st1| |] eqn:H1;
      [|done..].
    destruct (relax_neighbor_trace _ _ _ _ _ _ _ H1 Ht) as [Ht1 Hv1].
    destruct (IH st1 st' H Ht1) as [Ht' Hv']. split; [done|congruence].
Qed.

Lemma search_loop_trace pf finish t em fuel : ∀ st st',
  search_loop pf finish t em true fuel st = Ok st' →
  trace_open st → finish ∉ visited st → trace_closed finish st'.
Proof.
  induction fuel as [|fuel IH]; intros st st' H Ht Hf.
  - simpl in H. destruct (heappop (pq st)) as [[[k cur] q']|]; [done|].
    injection H as <-. destruct Ht. unfold trace_closed.
    by rewrite decide_False.
  - simpl in H. destruct (heappop (pq st)) as [[[k cur] q']|].
    2:{ injection H as <-. destruct Ht. unfold trace_closed.
        by rewrite decide_False. }
    case_decide as Hcur.
    { apply IH in H; [done| |done]. by destruct Ht. }
    destruct Ht as [(s & Hs & Hi) Hset Hnd Hop].
    assert (Ht1 : trace_open
              {| distances := distances st; previous := previous st;
                 pq := q'; visited := visited st ∪ {[cur]};
                 log := record true
                          {| step_type := visit; current := Some cur;
                             neighbor := None;
                             step_distances := distances st |} (log st) |}).
    { constructor; simpl.
      - exists s. split; [by apply head_app_Some|done].
      - intros v. rewrite visits_app. simpl.
        rewrite elem_of_app, elem_of_union, Hset.
        by rewrite list_elem_of_singleton, elem_of_singleton.
      - rewrite visits_app. simpl. apply NoDup_app. split; [done|].
        split; [|apply NoDup_singleton].
        intros v Hv ->%list_elem_of_singleton. by apply Hcur, Hset.
      - apply Forall_app. split; [done|]. by apply Forall_singleton. }
    case_decide as Hend.
    + injection H as <-. subst cur.
      destruct Ht1 as [Hi1 Hset1 Hnd1 Hop1]. simpl in *.
      unfold trace_closed. simpl.
      rewrite decide_True by by apply elem_of_union_r, elem_of_singleton.
      split; [|split; [|split]].
      * exists s. split; [by do 2 apply head_app_Some|done].
      * intros v. rewrite visits_app. simpl. rewrite app_nil_r. apply Hset1.
      * rewrite visits_app. simpl. by rewrite app_nil_r.
      * eexists. split; [reflexivity|done].
    + destruct (dict_get cur _) as [node|]; [|done].
      cbn [bind getitem] in H.
      destruct (explore _ _ _ _ _ _ _) as [st2| |] eqn:H2; [|done..].
      destruct (explore_trace _ _ _ _ _ _ _ H2 Ht1) as [Ht2 Hv2].
      cbn [bind] in H. apply IH in H; [done|done|].
      rewrite Hv2. simpl.
      intros [?|?%elem_of_singleton]%elem_of_union; congruence.
Qed.

Lemma initial_trace g start : trace_open (initial_search g start true).
Proof.
  constructor; simpl.
  - eauto.
  - intros v. split; [by intros ?%elem_of_nil|by intros ?%not_elem_of_empty].
  - apply NoDup_nil_2.
  - by apply Forall_singleton.
Qed.

Lemma dijkstra_unfold pf start finish t em tr r :
  dijkstra pf start finish t em tr = Ok r →
  ∃ st, search_loop pf finish t em tr (search_fuel (graph pf))
          (initial_search (graph pf) start tr) = Ok st
        ∧ steps r = log st ∧ visited_nodes r = visited st
        ∧ distances st !! finish = Some (path_distance r).
Proof.
  unfold dijkstra. intros H.
  destruct (search_loop pf finish t em tr _ _) as [st| |]; [|done..].
  cbn [bind] in H. exists st. split; [done|].
  destruct (reconstruct _ _ _ _) as [p| |]; [|done..]. cbn [bind] in H.
  destruct (distances st !! finish) as [d|]; [|done].
  cbn [bind getitem] in H. by injection H as <-.
Qed.

(** X18: on a well-formed graph, between known locations, the trace of a
    search begins with the [init] entry; its [visit] entries name the
    locations of [visited_nodes], each once; when a route is found its
    last entry, and no other, is the [found] entry, for the destination,
    and shows the distance returned; when no route is found it has no
    [found] entry. *)
Theorem trace_matches_result pf start finish time_of_day emergency_mode :
  wf_graph (graph pf) →
  start ∈ map fst (nodes (graph pf)) →
  finish ∈ map fst (nodes (graph pf)) →
  ∃ r,
    dijkstra pf start finish time_of_day emergency_mode true = Ok r
    ∧ (∃ s, head (steps r) = Some s ∧ step_type s = init)
    ∧ NoDup (visits (steps r))
    ∧ (∀ v, v ∈ visits (steps r) ↔ v ∈ visited_nodes r)
    ∧ (∀ d, path_distance r = Int d →
         ∃ l s, steps r = l ++ [s]
                ∧ step_type s = found ∧ current s = Some finish
                ∧ step_distances s !! finish = Some (Int d)
                ∧ Forall (fun s => step_type s ≠ found) l)
    ∧ (path_distance r = PosInf →
         Forall (fun s => step_type s ≠ found) (steps r)).
Proof.
  intros Hwf Hs Hf.
  destruct (dijkstra_spec pf start finish time_of_day emergency_mode true
              Hwf Hs Hf) as (r & Hr & _ & Hfin & Hinf).
  exists r. split; [done|].
  destruct (dijkstra_unfold _ _ _ _ _ _ _ Hr) as (st & Hst & Hlog & Hvis & Hd).
  apply search_loop_trace in Hst;
    [|apply initial_trace|simpl; apply not_elem_of_empty].
  destruct Hst as (Hinit & Hset & Hnd & Hlast).
  rewrite Hlog, Hvis. repeat (split; [done|]). split.
  - intros d Hdist. destruct (Hfin d Hdist) as (_ & _ & Hv).
    rewrite Hvis in Hv. rewrite decide_True in Hlast by done.
    destruct Hlast as (l & Hl & Hop). eexists l, _.
    split; [done|]. simpl. by rewrite Hd, Hdist.
  - intros Hdist. destruct (Hinf Hdist) as [_ Hv].
    rewrite Hvis in Hv. by rewrite decide_False in Hlast.
Qed.

Lemma trace_matches_result_witness :
  ∃ r,
    dijkstra (new_PathFinder campus) "Main Gate" "Cafeteria" AFTERNOON false
      true = Ok r
    ∧ (∃ s, head (steps r) = Some s ∧ step_type s = init)
    ∧ NoDup (visits (steps r))
    ∧ (∀ v, v ∈ visits (steps r) ↔ v ∈ visited_nodes r)
    ∧ (∀ d, path_distance r = Int d →
         ∃ l s, steps r = l ++ [s]
                ∧ step_type s = found ∧ current s = Some "Cafeteria"
                ∧ step_distances s !! "Cafeteria" = Some (Int d)
                ∧ Forall (fun s => step_type s ≠ found) l)
    ∧ (path_distance r = PosInf →
         Forall (fun s => step_type s ≠ found) (steps r)).
Proof.
  apply (trace_matches_result (new_PathFinder campus)).
  - apply campus_wf.
  - by apply listed.
  - by apply listed.
Defined.

(** ** Routes through a stop *)

Lemma path_cost_join pf t em p q b :
  last p = Some b → head q = Some b →
  path_cost pf t em (join p q)
  = num_add (path_cost pf t em p) (path_cost pf t em q).
Proof.
  unfold join. intros Hl Hh. destruct q as [|b' q]; [done|].
  injection Hh as ->. cbn [tail]. revert p Hl.
  induction q as [|c q IH] using rev_ind; intros p Hl.
  - rewrite app_nil_r. simpl.
    destruct (path_cost pf t em p); simpl; [by rewrite Z.add_0_r|done].
  - rewrite app_assoc.
    assert (Hlast : ∃ u, last (b :: q) = Some u ∧ last (p ++ q) = Some u).
    { destruct q as [|c' q] using rev_ind.
      - exists b. by rewrite app_nil_r.
      - exists c'. rewrite app_assoc, !last_snoc.
        split; [|done]. change (b :: q ++ [c']) with ((b :: q) ++ [c']).
        by rewrite last_snoc. }
    destruct Hlast as (u & Hu1 & Hu2).
    rewrite (path_cost_extend _ _ _ _ u c Hu2), IH by done.
    change (b :: q ++ [c]) with ((b :: q) ++ [c]).
    rewrite (path_cost_extend _ _ _ _ u c Hu1). by rewrite num_add_assoc.
Qed.

Lemma route_join a b c p q :
  route a b p → route b c q → route a c (join p q).
Proof.
  unfold route, join. intros [Hh Hl] [Hh' Hl'].
  destruct p as [|a' p]; [done|]. split; [done|].
  destruct q as [|b' [|c' q]]; [done| |].
  - simpl in *. rewrite app_nil_r. congruence.
  - simpl tail. rewrite last_app. simpl in Hl'. simpl. by rewrite Hl'.
Qed.

(** X19: on a well-formed graph, the distances returned between known
    locations are not negative, and the distance from [a] to [c] is at
    most the distance from [a] to [b] plus the distance from [b] to [c]:
    a stop on the way never makes the way shorter. *)
Theorem distance_triangle pf a b c time_of_day emergency_mode track_steps :
  wf_graph (graph pf) →
  a ∈ map fst (nodes (graph pf)) →
  b ∈ map fst (nodes (graph pf)) →
  c ∈ map fst (nodes (graph pf)) →
  ∃ rac rab rbc,
    dijkstra pf a c time_of_day emergency_mode track_steps = Ok rac
    ∧ dijkstra pf a b time_of_day emergency_mode track_steps = Ok rab
    ∧ dijkstra pf b c time_of_day emergency_mode track_steps = Ok rbc
    ∧ num_le (Int 0) (path_distance rac)
    ∧ num_le (path_distance rac)
             (num_add (path_distance rab) (path_distance rbc)).
Proof.
  intros Hwf Ha Hb Hc.
  destruct (dijkstra_spec pf a c time_of_day emergency_mode track_steps
              Hwf Ha Hc) as (rac & Hac & Hlow & Hfin & _).
  destruct (dijkstra_spec pf a b time_of_day emergency_mode track_steps
              Hwf Ha Hb) as (rab & Hab & _ & Hfin1 & _).
  destruct (dijkstra_spec pf b c time_of_day emergency_mode track_steps
              Hwf Hb Hc) as (rbc & Hbc & _ & Hfin2 & _).
  exists rac, rab, rbc. repeat (split; [done|]). split.
  - destruct (path_distance rac) as [d|] eqn:Hd; [|done].
    destruct (Hfin d eq_refl) as (_ & Hcost & _).
    apply num_le_Int. by eapply path_cost_nonneg.
  - destruct (path_distance rab) as [d1|] eqn:Hd1; [|apply num_le_PosInf].
    destruct (path_distance rbc) as [d2|] eqn:Hd2; [|apply num_le_PosInf].
    destruct (Hfin1 d1 eq_refl) as (Hr1 & Hc1 & _).
    destruct (Hfin2 d2 eq_refl) as (Hr2 & Hc2 & _).
    rewrite <- Hc1, <- Hc2.
    rewrite <- (path_cost_join pf _ _ _ _ b); [|apply Hr1|apply Hr2].
    apply Hlow. by eapply route_join.
Qed.

Lemma distance_triangle_witness :
  ∃ rac rab rbc,
    dijkstra lab_link_closed "Main Gate" "Hostel" EVENING false false = Ok rac
    ∧ dijkstra lab_link_closed "Main Gate" "Cafeteria" EVENING false false
      = Ok rab
    ∧ dijkstra lab_link_closed "Cafeteria" "Hostel" EVENING false false
      = Ok rbc
    ∧ num_le (Int 0) (path_distance rac)
    ∧ num_le (path_distance rac)
             (num_add (path_distance rab) (path_distance rbc)).
Proof.
  apply (distance_triangle lab_link_closed).
  - apply campus_wf.
  - by apply listed.
  - by apply listed.
  - by apply listed.
Defined.

(** ** More constraints, farther exits *)

(** X20: on a well-formed graph whose exit points are locations of the
    graph, a path finder with more blocked pairs and more hazard zones
    never reports a nearer exit: the distance [find_nearest_exit] returns
    from a known start does not decrease. *)
Theorem constraints_never_shorten_evacuation pf pf' start time_of_day
    time_of_day' :
  wf_graph (graph pf) →
  graph pf' = graph pf →
  blocked_paths pf ⊆ blocked_paths pf' →
  hazard_zones pf ⊆ hazard_zones pf' →
  start ∈ map fst (nodes (graph pf)) →
  (∀ x, x ∈ exit_points (graph pf) → x ∈ map fst (nodes (graph pf))) →
  ∃ ne d ne' d',
    find_nearest_exit pf start time_of_day = Ok (ne, d)
    ∧ find_nearest_exit pf' start time_of_day' = Ok (ne', d')
    ∧ num_le d d'.
Proof.
  intros Hwf Hg Hb Hh Hs Hex.
  assert (Hrun : ∀ q t, graph q = graph pf → ∀ x,
            x ∈ exit_points (graph pf) →
            ∃ r, dijkstra q start x t true false = Ok r).
  { intros q t Hq x Hx.
    destruct (dijkstra_spec q start x t true false) as (r & Hr & _);
      rewrite ?Hq; eauto. }
  unfold find_nearest_exit. rewrite Hg.
  destruct (nearest_loop_spec pf start time_of_day (exit_points (graph pf))
              PosInf None (Hrun pf time_of_day eq_refl))
    as ([ne d] & Hres & Hcase).
  destruct (nearest_loop_spec pf' start time_of_day'
              (exit_points (graph pf)) PosInf None (Hrun pf' time_of_day' Hg))
    as ([ne' d'] & Hres' & Hcase').
  exists ne, d, ne', d'. split; [done|]. split; [done|].
  destruct Hcase' as [[[= -> ->] _]|(l1 & ex & l2 & Hl & [= -> ->] & _)];
    [apply num_le_PosInf|].
  assert (Hin : ex ∈ exit_points (graph pf)).
  { rewrite Hl. apply elem_of_app. right. left. }
  assert (Hle : num_le d (exit_distance pf start time_of_day ex)).
  { destruct Hcase as [[[= -> ->] Hall]|(k1 & y & k2 & Hk & [= -> ->] & _ & H1 & H2)].
    - by apply Hall.
    - rewrite Hk in Hin.
      apply elem_of_app in Hin as [Hin|[->|Hin]%elem_of_cons].
      + apply num_ltb_le. by apply H1.
      + apply num_le_refl.
      + by apply H2. }
  eapply num_le_trans; [exact Hle|].
  unfold exit_distance.
  rewrite (dijkstra_ext pf pf start ex time_of_day time_of_day' true true
             false eq_refl) by (intros; apply emergency_weight_any_time).
  destruct (Hrun pf time_of_day' eq_refl ex Hin) as [r Hr].
  destruct (Hrun pf' time_of_day' Hg ex Hin) as [r' Hr'].
  rewrite Hr, Hr'.
  apply (distance_mono pf pf' start ex time_of_day' true false false);
    auto.
Qed.

Lemma constraints_never_shorten_evacuation_witness :
  ∃ ne d ne' d',
    find_nearest_exit (new_PathFinder campus) "Lecture Hall" MORNING
      = Ok (ne, d)
    ∧ find_nearest_exit
        (add_hazard_zone (new_PathFinder campus) "Lecture Hall")
        "Lecture Hall" EVENING = Ok (ne', d')
    ∧ num_le d d'.
Proof.
  apply (constraints_never_shorten_evacuation (new_PathFinder campus)).
  - apply campus_wf.
  - reflexivity.
  - apply empty_subseteq.
  - apply empty_subseteq.
  - by apply listed.
  - apply campus_exits_known.
Defined.

(** ** Hazard zones on the way *)

Lemma hazard_penalty_clear pf u v : hazard_penalty (clear_hazards pf) u v = 0.
Proof.
  unfold hazard_penalty. simpl.
  by rewrite !decide_False by apply not_elem_of_empty.
Qed.

(** In emergency mode the cost of a link is its cost without hazard zones
    plus the penalty. *)
Lemma edge_cost_penalty pf t u v :
  edge_cost pf t true u v
  = num_add (edge_cost (clear_hazards pf) t true u v)
            (Int (hazard_penalty pf u v)).
Proof.
  unfold edge_cost, _get_effective_weight. simpl.
  case_decide; [done|].
  destruct (dict_get u _) as [node|]; [|done].
  destruct (dict_get v _) as [cn|]; [|done].
  simpl. by rewrite hazard_penalty_clear, Z.add_0_r.
Qed.

Lemma hazard_penalty_bounds pf u v :
  0 ≤ hazard_penalty pf u v
  ∧ (u ∈ hazard_zones pf ∨ v ∈ hazard_zones pf → 500 ≤ hazard_penalty pf u v)
  ∧ (u ∉ hazard_zones pf → v ∉ hazard_zones pf → hazard_penalty pf u v = 0).
Proof.
  unfold hazard_penalty. repeat case_decide; repeat split; try lia; tauto.
Qed.

Lemma path_cost_penalty pf t p : ∀ c,
  path_cost pf t true p = Int c →
  ∃ c0, path_cost (clear_hazards pf) t true p = Int c0
        ∧ c0 ≤ c
        ∧ ((∃ a, a ∈ p ∧ a ∈ hazard_zones pf) → (2 ≤ length p)%nat →
           c0 + 500 ≤ c)
        ∧ ((∀ a, a ∈ p → a ∉ hazard_zones pf) → c0 = c).
Proof.
  induction p as [|a [|b p] IH]; intros c Hc.
  - injection Hc as <-. exists 0. simpl. repeat split; try done; lia.
  - injection Hc as <-. exists 0. simpl. repeat split; try done; lia.
  - rewrite path_cost_cons in Hc. rewrite path_cost_cons.
    rewrite edge_cost_penalty in Hc.
    destruct (edge_cost (clear_hazards pf) t true a b) as [e0|]; [|done].
    destruct (path_cost pf t true (b :: p)) as [c'|] eqn:Hc'; [|done].
    injection Hc as <-.
    destruct (IH c' eq_refl) as (c0 & -> & Hle & Hhaz & Hfree).
    destruct (hazard_penalty_bounds pf a b) as (Hp0 & Hp500 & Hpz).
    exists (e0 + c0). split; [done|]. split; [lia|]. split.
    + intros (h & Hin & Hh) _.
      destruct (decide (a ∈ hazard_zones pf)) as [Ha|Ha];
        [specialize (Hp500 (or_introl Ha)); lia|].
      destruct (decide (b ∈ hazard_zones pf)) as [Hb|Hb];
        [specialize (Hp500 (or_intror Hb)); lia|].
      apply elem_of_cons in Hin as [->|Hin]; [done|].
      apply elem_of_cons in Hin as [->|Hin]; [done|].
      assert (c0 + 500 ≤ c'); [|lia].
      apply Hhaz.
      * exists h. split; [by right|done].
      * destruct p; [by apply elem_of_nil in Hin|simpl; lia].
    + intros Hall.
      rewrite Hpz; [|apply Hall; left|apply Hall; right; left].
      rewrite Hfree; [lia|]. intros x Hx. apply Hall. by right.
Qed.

(** Without a hazard zone on it, a route costs what it costs without
    penalties. *)
Lemma path_cost_free pf t q :
  (∀ a, a ∈ q → a ∉ hazard_zones pf) →
  path_cost pf t true q = path_cost (clear_hazards pf) t true q.
Proof.
  induction q as [|a [|b q] IH]; intros Hfree; [done..|].
  rewrite !path_cost_cons, edge_cost_penalty, IH.
  - rewrite (proj2 (proj2 (hazard_penalty_bounds pf a b)));
      [|apply Hfree; left|apply Hfree; right; left].
    destruct (edge_cost (clear_hazards pf) t true a b); [|done].
    simpl. by rewrite Z.add_0_r.
  - intros x Hx. apply Hfree. by right.
Qed.

(** X21: in emergency mode, on a well-formed graph, the route returned
    between two known locations costs no more than any route free of
    hazard zones, whose cost is its cost without penalties; and when the
    route returned has a link and touches a hazard zone, it is shorter
    than every such route by at least 500 before penalties: the search
    goes through a hazard zone only to save that much. *)
Theorem emergency_route_avoids_hazards pf start finish time_of_day
    track_steps :
  wf_graph (graph pf) →
  start ∈ map fst (nodes (graph pf)) →
  finish ∈ map fst (nodes (graph pf)) →
  let plain := path_cost (clear_hazards pf) time_of_day true in
  ∃ r,
    dijkstra pf start finish time_of_day true track_steps = Ok r
    ∧ ∀ q c, route start finish q →
        (∀ a, a ∈ q → a ∉ hazard_zones pf) →
        plain q = Int c →
        ∃ d d0, path_distance r = Int d ∧ d ≤ c
                ∧ plain (path r) = Int d0 ∧ d0 ≤ d
                ∧ ((∃ a, a ∈ path r ∧ a ∈ hazard_zones pf) →
                   start ≠ finish → d0 + 500 ≤ c).
Proof.
  intros Hwf Hs Hf plain.
  destruct (dijkstra_spec pf start finish time_of_day true track_steps
              Hwf Hs Hf) as (r & Hr & Hlow & Hfin & _).
  exists r. split; [done|]. intros q c Hq Hfree Hc.
  assert (Hcq : path_cost pf time_of_day true q = Int c)
    by by rewrite path_cost_free.
  specialize (Hlow q Hq). rewrite Hcq in Hlow.
  destruct (path_distance r) as [d|] eqn:Hd; [|done].
  apply num_le_Int in Hlow.
  destruct (Hfin d eq_refl) as (Hroute & Hcost & _).
  destruct (path_cost_penalty pf _ _ _ Hcost) as (d0 & Hd0 & Hle & Hhaz & _).
  exists d, d0. repeat (split; [done|]).
  intros Hh Hne. assert (d0 + 500 ≤ d); [|lia]. apply Hhaz; [done|].
  destruct Hroute as [Hh1 Hl1].
  destruct (path r) as [|a [|b p]]; [done| |simpl; lia].
  simpl in Hh1, Hl1. congruence.
Qed.

Lemma emergency_route_avoids_hazards_witness :
  let pf := add_hazard_zone (new_PathFinder campus) "Library" in
  let plain := path_cost (clear_hazards pf) MORNING true in
  ∃ r,
    dijkstra pf "Main Gate" "Computer Lab" MORNING true true = Ok r
    ∧ ∀ q c, route "Main Gate" "Computer Lab" q →
        (∀ a, a ∈ q → a ∉ hazard_zones pf) →
        plain q = Int c →
        ∃ d d0, path_distance r = Int d ∧ d ≤ c
                ∧ plain (path r) = Int d0 ∧ d0 ≤ d
                ∧ ((∃ a, a ∈ path r ∧ a ∈ hazard_zones pf) →
                   "Main Gate" ≠ "Computer Lab" → d0 + 500 ≤ c).
Proof.
  intros pf.
  apply (emergency_route_avoids_hazards pf).
  - apply campus_wf.
  - by apply listed.
  - by apply listed.
Defined.
